(** * dbml-pg: grammar (dbml.ohm), semantic actions (semantics.ts) and
      Parser / ParseError (parser.ts), embedded in Rocq.

    Characters are [ascii] (code points 0..255); JavaScript strings are
    Rocq [string]s.  The Ohm matching engine is an external library; it is
    modelled below as a PEG interpreter following Ohm's documented
    semantics (ordered choice, greedy iteration, negative lookahead, implicit
    space skipping inside syntactic rules, concrete syntax trees whose
    nodes record their source interval). *)

From Stdlib Require Import String Ascii List Bool Arith Lia.
Import ListNotations.
Open Scope list_scope.
Open Scope string_scope.
Open Scope nat_scope.
Set Warnings "-register-all".

(** ** Characters *)

Definition chr (n : nat) : ascii := ascii_of_nat n.
Definition str1 (c : ascii) : string := String c EmptyString.

Definition c_nl : ascii := chr 10.
Definition c_cr : ascii := chr 13.
Definition c_tab : ascii := chr 9.
Definition c_dq : ascii := chr 34.
Definition c_sq : ascii := chr 39.
Definition c_bs : ascii := chr 92.
Definition c_bt : ascii := chr 96.

Definition in_rng (lo hi : nat) (c : ascii) : bool :=
  (lo <=? nat_of_ascii c) && (nat_of_ascii c <=? hi).

Definition is_upper_ascii (c : ascii) : bool := in_rng 65 90 c.
Definition is_lower_ascii (c : ascii) : bool := in_rng 97 122 c.
Definition is_ascii_letter (c : ascii) : bool := is_upper_ascii c || is_lower_ascii c.

(** Ohm's [letter] is [lower | upper | unicodeLtmo] (Unicode categories
    Ll, Lu, Lt, Lm, Lo); restricted to code points 0..255 these are the
    ASCII letters and the Latin-1 letters below. *)
Definition is_letter (c : ascii) : bool :=
  is_ascii_letter c || in_rng 170 170 c || in_rng 181 181 c || in_rng 186 186 c
  || in_rng 192 214 c || in_rng 216 246 c || in_rng 248 255 c.

Definition is_digit (c : ascii) : bool := in_rng 48 57 c.
Definition is_hexdigit (c : ascii) : bool :=
  is_digit c || in_rng 97 102 c || in_rng 65 70 c.

(** [String.prototype.toUpperCase] on single ASCII letters, used by Ohm's
    case-insensitive terminals (keywords are ASCII). *)
Definition up (c : ascii) : ascii :=
  if is_lower_ascii c then chr (nat_of_ascii c - 32) else c.

(** [String.prototype.toLowerCase] on code points 0..255. *)
Definition low (c : ascii) : ascii :=
  if is_upper_ascii c || in_rng 192 214 c || in_rng 216 222 c
  then chr (nat_of_ascii c + 32) else c.

Fixpoint str_map (f : ascii -> ascii) (s : string) : string :=
  match s with
  | EmptyString => EmptyString
  | String c s' => String (f c) (str_map f s')
  end.

(** ** JavaScript values *)

(** [JNum lit] is the number [parseFloat(lit)] (the literal text is kept;
    floating-point arithmetic is never performed).  [JRef l] is a reference
    to the heap cell [l]: the only objects that are shared in the code are
    the Column objects of a Table (pushed to both [columns] and
    [elements]), and those live on the heap.  [JNative n] is a built-in
    object of the JavaScript runtime (a method of [Object.prototype]). *)
Inductive jv : Type :=
| JUndef
| JNull
| JBool (b : bool)
| JNum (lit : string)
| JStr (s : string)
| JArr (xs : list jv)
| JObj (props : list (string * jv))
| JRef (l : nat)
| JNative (name : string).

Definition heap := list jv.

Definition truthy (v : jv) : bool :=
  match v with
  | JUndef | JNull => false
  | JBool b => b
  | JNum lit => existsb (fun c => is_digit c && negb (Ascii.eqb c "0"%char)) (list_ascii_of_string lit)
  | JStr s => negb (String.eqb s EmptyString)
  | _ => true
  end.

(** [a ?? b] *)
Definition nullish (a b : jv) : jv :=
  match a with JUndef | JNull => b | _ => a end.

(** [a || b] *)
Definition jor (a b : jv) : jv := if truthy a then a else b.

Fixpoint pget (ps : list (string * jv)) (k : string) : jv :=
  match ps with
  | [] => JUndef
  | (k', v) :: ps' => if String.eqb k k' then v else pget ps' k
  end.

Fixpoint phas (ps : list (string * jv)) (k : string) : bool :=
  match ps with
  | [] => false
  | (k', _) :: ps' => String.eqb k k' || phas ps' k
  end.

(** Property assignment [o[k] = v]: an existing property keeps its place,
    a new one is appended (JavaScript property order for string keys). *)
Fixpoint pset (ps : list (string * jv)) (k : string) (v : jv) : list (string * jv) :=
  match ps with
  | [] => [(k, v)]
  | (k', v') :: ps' => if String.eqb k k' then (k', v) :: ps' else (k', v') :: pset ps' k v
  end.

Fixpoint pdel (ps : list (string * jv)) (k : string) : list (string * jv) :=
  match ps with
  | [] => []
  | (k', v') :: ps' => if String.eqb k k' then pdel ps' k else (k', v') :: pdel ps' k
  end.

(** [Object.assign(target, source)] and object spread. *)
Definition passign (target source : list (string * jv)) : list (string * jv) :=
  fold_left (fun acc kv => pset acc (fst kv) (snd kv)) source target.

Definition get (o : jv) (k : string) : jv :=
  match o with JObj ps => pget ps k | _ => JUndef end.

Definition set (o : jv) (k : string) (v : jv) : jv :=
  match o with JObj ps => JObj (pset ps k v) | _ => o end.

(** [Object.assign(o, src)]: a non-object source contributes nothing. *)
Definition assign (o src : jv) : jv :=
  match o, src with JObj ps, JObj qs => JObj (passign ps qs) | _, _ => o end.

Definition push (o : jv) (k : string) (v : jv) : jv :=
  match get o k with JArr xs => set o k (JArr (xs ++ [v])) | _ => o end.

(** [arr[0]] *)
Definition idx0 (v : jv) : jv :=
  match v with JArr (x :: _) => x | _ => JUndef end.

Definition js_strcat (a : jv) (t : string) : jv :=
  match a with JStr s => JStr (s ++ t) | _ => JUndef end.

(** [s.slice(1, -1)] *)
Definition slice1m1 (s : string) : string := substring 1 (String.length s - 2) s.

(** [parts.join('')] for an array of strings. *)
Fixpoint join_strs (xs : list jv) : string :=
  match xs with
  | [] => EmptyString
  | JStr s :: xs' => s ++ join_strs xs'
  | _ :: xs' => join_strs xs'
  end.
(** The rules of the grammar: the rules of [dbml.ohm] (a rule with
    case names [-- c] gives the inline rules [R_c] of Ohm), its keyword
    rules, and the built-in rules it uses. *)
Inductive rule : Type :=
| R_Schema
| R_Element
| R_Project
| R_ProjectBody
| R_ProjectProperty
| R_Table
| R_QualifiedIdentifier
| R_QualifiedIdentifier_qualified
| R_QualifiedIdentifier_simple
| R_TableAlias
| R_TableBody
| R_TableElement
| R_TablePartial
| R_TablePartialBody
| R_TablePartialElement
| R_PartialReference
| R_Column
| R_DataType
| R_DataType_array
| R_DataType_parameterized
| R_DataType_simple
| R_TypeParams
| R_ColumnSettings
| R_ColumnSetting
| R_ColumnSetting_pk
| R_ColumnSetting_primaryKey
| R_ColumnSetting_unique
| R_ColumnSetting_notNull
| R_ColumnSetting_null
| R_ColumnSetting_increment
| R_ColumnSetting_identityAlways
| R_ColumnSetting_identityByDefault
| R_ColumnSetting_generatedStored
| R_ColumnSetting_check
| R_ColumnDefault
| R_ColumnNote
| R_ColumnRef
| R_DefaultValue
| R_DefaultValue_expression
| R_DefaultValue_literal
| R_Indexes
| R_Index
| R_Index_composite
| R_Index_single
| R_IndexColumn
| R_SortOrder
| R_SortOrder_asc
| R_SortOrder_desc
| R_IndexSettings
| R_IndexSetting
| R_IndexSetting_pk
| R_IndexSetting_unique
| R_IndexType
| R_IndexName
| R_IndexWhere
| R_IndexTypeName
| R_IndexTypeName_btree
| R_IndexTypeName_hash
| R_IndexTypeName_gin
| R_IndexTypeName_gist
| R_IndexTypeName_spgist
| R_IndexTypeName_brin
| R_IndexTypeName_custom
| R_Constraints
| R_Constraint
| R_ConstraintName
| R_ConstraintType
| R_ConstraintType_check
| R_ConstraintType_unique
| R_ConstraintType_primaryKey
| R_ConstraintType_exclude
| R_ExcludeOperator
| R_ConstraintSettings
| R_ConstraintSetting
| R_ConstraintSetting_deferrable
| R_ConstraintSetting_notDeferrable
| R_ConstraintSetting_initiallyDeferred
| R_ConstraintSetting_initiallyImmediate
| R_Ref
| R_RefName
| R_RefEndpoint
| R_RefEndpoint_compositeQualified
| R_RefEndpoint_composite
| R_RefEndpoint_simpleQualified
| R_RefEndpoint_simple
| R_RefType
| R_RefType_many
| R_RefType_to
| R_RefType_from
| R_RefType_one
| R_RefSettings
| R_RefSetting
| R_RefSetting_delete
| R_RefSetting_update
| R_RefOnDelete
| R_RefOnUpdate
| R_RefAction
| R_RefAction_cascade
| R_RefAction_restrict
| R_RefAction_setNull
| R_RefAction_setDefault
| R_RefAction_noAction
| R_Enum
| R_EnumValue
| R_EnumValueNote
| R_TableGroup
| R_Note
| R_HeaderColor
| R_HexColor
| R_Value
| R_tripleString
| R_doubleString
| R_singleString
| R_doubleStringChar
| R_doubleStringChar_escape
| R_doubleStringChar_normal
| R_singleStringChar
| R_singleStringChar_escape
| R_singleStringChar_normal
| R_backtickString
| R_number
| R_boolean
| R_boolean_true
| R_boolean_false
| R_identifier
| R_quotedIdentifier
| R_identifierName
| R_reservedWord
| R_project
| R_table
| R_tablepartial
| R_ref
| R_enum
| R_tablegroup
| R_indexes
| R_note
| R_headercolor
| R_as
| R_type
| R_name
| R_where
| R_default
| R_not
| R_null
| R_primary
| R_key
| R_delete
| R_update
| R_set
| R_no
| R_action
| R_true
| R_false
| R_pk
| R_unique
| R_increment
| R_asc
| R_desc
| R_btree
| R_hash
| R_gin
| R_gist
| R_spgist
| R_brin
| R_cascade
| R_restrict
| R_generated
| R_always
| R_by
| R_identity
| R_stored
| R_check
| R_constraints
| R_constraint
| R_exclude
| R_using
| R_with
| R_deferrable
| R_initially
| R_deferred
| R_immediate
| R_comment
| R_newline
| R_newline_lf
| R_newline_cr
| R_newline_crlf
| R_space
| R_spaces
| R_any
| R_letter
| R_digit
| R_hexDigit
| R_ListOf.

(** Ohm's name of each rule (the [ctorName] of its nodes). *)
Definition rule_name (r : rule) : string :=
  match r with
  | R_Schema => "Schema"
  | R_Element => "Element"
  | R_Project => "Project"
  | R_ProjectBody => "ProjectBody"
  | R_ProjectProperty => "ProjectProperty"
  | R_Table => "Table"
  | R_QualifiedIdentifier => "QualifiedIdentifier"
  | R_QualifiedIdentifier_qualified => "QualifiedIdentifier_qualified"
  | R_QualifiedIdentifier_simple => "QualifiedIdentifier_simple"
  | R_TableAlias => "TableAlias"
  | R_TableBody => "TableBody"
  | R_TableElement => "TableElement"
  | R_TablePartial => "TablePartial"
  | R_TablePartialBody => "TablePartialBody"
  | R_TablePartialElement => "TablePartialElement"
  | R_PartialReference => "PartialReference"
  | R_Column => "Column"
  | R_DataType => "DataType"
  | R_DataType_array => "DataType_array"
  | R_DataType_parameterized => "DataType_parameterized"
  | R_DataType_simple => "DataType_simple"
  | R_TypeParams => "TypeParams"
  | R_ColumnSettings => "ColumnSettings"
  | R_ColumnSetting => "ColumnSetting"
  | R_ColumnSetting_pk => "ColumnSetting_pk"
  | R_ColumnSetting_primaryKey => "ColumnSetting_primaryKey"
  | R_ColumnSetting_unique => "ColumnSetting_unique"
  | R_ColumnSetting_notNull => "ColumnSetting_notNull"
  | R_ColumnSetting_null => "ColumnSetting_null"
  | R_ColumnSetting_increment => "ColumnSetting_increment"
  | R_ColumnSetting_identityAlways => "ColumnSetting_identityAlways"
  | R_ColumnSetting_identityByDefault => "ColumnSetting_identityByDefault"
  | R_ColumnSetting_generatedStored => "ColumnSetting_generatedStored"
  | R_ColumnSetting_check => "ColumnSetting_check"
  | R_ColumnDefault => "ColumnDefault"
  | R_ColumnNote => "ColumnNote"
  | R_ColumnRef => "ColumnRef"
  | R_DefaultValue => "DefaultValue"
  | R_DefaultValue_expression => "DefaultValue_expression"
  | R_DefaultValue_literal => "DefaultValue_literal"
  | R_Indexes => "Indexes"
  | R_Index => "Index"
  | R_Index_composite => "Index_composite"
  | R_Index_single => "Index_single"
  | R_IndexColumn => "IndexColumn"
  | R_SortOrder => "SortOrder"
  | R_SortOrder_asc => "SortOrder_asc"
  | R_SortOrder_desc => "SortOrder_desc"
  | R_IndexSettings => "IndexSettings"
  | R_IndexSetting => "IndexSetting"
  | R_IndexSetting_pk => "IndexSetting_pk"
  | R_IndexSetting_unique => "IndexSetting_unique"
  | R_IndexType => "IndexType"
  | R_IndexName => "IndexName"
  | R_IndexWhere => "IndexWhere"
  | R_IndexTypeName => "IndexTypeName"
  | R_IndexTypeName_btree => "IndexTypeName_btree"
  | R_IndexTypeName_hash => "IndexTypeName_hash"
  | R_IndexTypeName_gin => "IndexTypeName_gin"
  | R_IndexTypeName_gist => "IndexTypeName_gist"
  | R_IndexTypeName_spgist => "IndexTypeName_spgist"
  | R_IndexTypeName_brin => "IndexTypeName_brin"
  | R_IndexTypeName_custom => "IndexTypeName_custom"
  | R_Constraints => "Constraints"
  | R_Constraint => "Constraint"
  | R_ConstraintName => "ConstraintName"
  | R_ConstraintType => "ConstraintType"
  | R_ConstraintType_check => "ConstraintType_check"
  | R_ConstraintType_unique => "ConstraintType_unique"
  | R_ConstraintType_primaryKey => "ConstraintType_primaryKey"
  | R_ConstraintType_exclude => "ConstraintType_exclude"
  | R_ExcludeOperator => "ExcludeOperator"
  | R_ConstraintSettings => "ConstraintSettings"
  | R_ConstraintSetting => "ConstraintSetting"
  | R_ConstraintSetting_deferrable => "ConstraintSetting_deferrable"
  | R_ConstraintSetting_notDeferrable => "ConstraintSetting_notDeferrable"
  | R_ConstraintSetting_initiallyDeferred => "ConstraintSetting_initiallyDeferred"
  | R_ConstraintSetting_initiallyImmediate => "ConstraintSetting_initiallyImmediate"
  | R_Ref => "Ref"
  | R_RefName => "RefName"
  | R_RefEndpoint => "RefEndpoint"
  | R_RefEndpoint_compositeQualified => "RefEndpoint_compositeQualified"
  | R_RefEndpoint_composite => "RefEndpoint_composite"
  | R_RefEndpoint_simpleQualified => "RefEndpoint_simpleQualified"
  | R_RefEndpoint_simple => "RefEndpoint_simple"
  | R_RefType => "RefType"
  | R_RefType_many => "RefType_many"
  | R_RefType_to => "RefType_to"
  | R_RefType_from => "RefType_from"
  | R_RefType_one => "RefType_one"
  | R_RefSettings => "RefSettings"
  | R_RefSetting => "RefSetting"
  | R_RefSetting_delete => "RefSetting_delete"
  | R_RefSetting_update => "RefSetting_update"
  | R_RefOnDelete => "RefOnDelete"
  | R_RefOnUpdate => "RefOnUpdate"
  | R_RefAction => "RefAction"
  | R_RefAction_cascade => "RefAction_cascade"
  | R_RefAction_restrict => "RefAction_restrict"
  | R_RefAction_setNull => "RefAction_setNull"
  | R_RefAction_setDefault => "RefAction_setDefault"
  | R_RefAction_noAction => "RefAction_noAction"
  | R_Enum => "Enum"
  | R_EnumValue => "EnumValue"
  | R_EnumValueNote => "EnumValueNote"
  | R_TableGroup => "TableGroup"
  | R_Note => "Note"
  | R_HeaderColor => "HeaderColor"
  | R_HexColor => "HexColor"
  | R_Value => "Value"
  | R_tripleString => "tripleString"
  | R_doubleString => "doubleString"
  | R_singleString => "singleString"
  | R_doubleStringChar => "doubleStringChar"
  | R_doubleStringChar_escape => "doubleStringChar_escape"
  | R_doubleStringChar_normal => "doubleStringChar_normal"
  | R_singleStringChar => "singleStringChar"
  | R_singleStringChar_escape => "singleStringChar_escape"
  | R_singleStringChar_normal => "singleStringChar_normal"
  | R_backtickString => "backtickString"
  | R_number => "number"
  | R_boolean => "boolean"
  | R_boolean_true => "boolean_true"
  | R_boolean_false => "boolean_false"
  | R_identifier => "identifier"
  | R_quotedIdentifier => "quotedIdentifier"
  | R_identifierName => "identifierName"
  | R_reservedWord => "reservedWord"
  | R_project => "project"
  | R_table => "table"
  | R_tablepartial => "tablepartial"
  | R_ref => "ref"
  | R_enum => "enum"
  | R_tablegroup => "tablegroup"
  | R_indexes => "indexes"
  | R_note => "note"
  | R_headercolor => "headercolor"
  | R_as => "as"
  | R_type => "type"
  | R_name => "name"
  | R_where => "where"
  | R_default => "default"
  | R_not => "not"
  | R_null => "null"
  | R_primary => "primary"
  | R_key => "key"
  | R_delete => "delete"
  | R_update => "update"
  | R_set => "set"
  | R_no => "no"
  | R_action => "action"
  | R_true => "true"
  | R_false => "false"
  | R_pk => "pk"
  | R_unique => "unique"
  | R_increment => "increment"
  | R_asc => "asc"
  | R_desc => "desc"
  | R_btree => "btree"
  | R_hash => "hash"
  | R_gin => "gin"
  | R_gist => "gist"
  | R_spgist => "spgist"
  | R_brin => "brin"
  | R_cascade => "cascade"
  | R_restrict => "restrict"
  | R_generated => "generated"
  | R_always => "always"
  | R_by => "by"
  | R_identity => "identity"
  | R_stored => "stored"
  | R_check => "check"
  | R_constraints => "constraints"
  | R_constraint => "constraint"
  | R_exclude => "exclude"
  | R_using => "using"
  | R_with => "with"
  | R_deferrable => "deferrable"
  | R_initially => "initially"
  | R_deferred => "deferred"
  | R_immediate => "immediate"
  | R_comment => "comment"
  | R_newline => "newline"
  | R_newline_lf => "newline_lf"
  | R_newline_cr => "newline_cr"
  | R_newline_crlf => "newline_crlf"
  | R_space => "space"
  | R_spaces => "spaces"
  | R_any => "any"
  | R_letter => "letter"
  | R_digit => "digit"
  | R_hexDigit => "hexDigit"
  | R_ListOf => "ListOf"
  end.

Definition all_rules : list rule :=
  [R_Schema; R_Element; R_Project; R_ProjectBody; R_ProjectProperty; R_Table; R_QualifiedIdentifier; R_QualifiedIdentifier_qualified; R_QualifiedIdentifier_simple; R_TableAlias; R_TableBody; R_TableElement; R_TablePartial; R_TablePartialBody; R_TablePartialElement; R_PartialReference; R_Column; R_DataType; R_DataType_array; R_DataType_parameterized; R_DataType_simple; R_TypeParams; R_ColumnSettings; R_ColumnSetting; R_ColumnSetting_pk; R_ColumnSetting_primaryKey; R_ColumnSetting_unique; R_ColumnSetting_notNull; R_ColumnSetting_null; R_ColumnSetting_increment; R_ColumnSetting_identityAlways; R_ColumnSetting_identityByDefault; R_ColumnSetting_generatedStored; R_ColumnSetting_check; R_ColumnDefault; R_ColumnNote; R_ColumnRef; R_DefaultValue; R_DefaultValue_expression; R_DefaultValue_literal; R_Indexes; R_Index; R_Index_composite; R_Index_single; R_IndexColumn; R_SortOrder; R_SortOrder_asc; R_SortOrder_desc; R_IndexSettings; R_IndexSetting; R_IndexSetting_pk; R_IndexSetting_unique; R_IndexType; R_IndexName; R_IndexWhere; R_IndexTypeName; R_IndexTypeName_btree; R_IndexTypeName_hash; R_IndexTypeName_gin; R_IndexTypeName_gist; R_IndexTypeName_spgist; R_IndexTypeName_brin; R_IndexTypeName_custom; R_Constraints; R_Constraint; R_ConstraintName; R_ConstraintType; R_ConstraintType_check; R_ConstraintType_unique; R_ConstraintType_primaryKey; R_ConstraintType_exclude; R_ExcludeOperator; R_ConstraintSettings; R_ConstraintSetting; R_ConstraintSetting_deferrable; R_ConstraintSetting_notDeferrable; R_ConstraintSetting_initiallyDeferred; R_ConstraintSetting_initiallyImmediate; R_Ref; R_RefName; R_RefEndpoint; R_RefEndpoint_compositeQualified; R_RefEndpoint_composite; R_RefEndpoint_simpleQualified; R_RefEndpoint_simple; R_RefType; R_RefType_many; R_RefType_to; R_RefType_from; R_RefType_one; R_RefSettings; R_RefSetting; R_RefSetting_delete; R_RefSetting_update; R_RefOnDelete; R_RefOnUpdate; R_RefAction; R_RefAction_cascade; R_RefAction_restrict; R_RefAction_setNull; R_RefAction_setDefault; R_RefAction_noAction; R_Enum; R_EnumValue; R_EnumValueNote; R_TableGroup; R_Note; R_HeaderColor; R_HexColor; R_Value; R_tripleString; R_doubleString; R_singleString; R_doubleStringChar; R_doubleStringChar_escape; R_doubleStringChar_normal; R_singleStringChar; R_singleStringChar_escape; R_singleStringChar_normal; R_backtickString; R_number; R_boolean; R_boolean_true; R_boolean_false; R_identifier; R_quotedIdentifier; R_identifierName; R_reservedWord; R_project; R_table; R_tablepartial; R_ref; R_enum; R_tablegroup; R_indexes; R_note; R_headercolor; R_as; R_type; R_name; R_where; R_default; R_not; R_null; R_primary; R_key; R_delete; R_update; R_set; R_no; R_action; R_true; R_false; R_pk; R_unique; R_increment; R_asc; R_desc; R_btree; R_hash; R_gin; R_gist; R_spgist; R_brin; R_cascade; R_restrict; R_generated; R_always; R_by; R_identity; R_stored; R_check; R_constraints; R_constraint; R_exclude; R_using; R_with; R_deferrable; R_initially; R_deferred; R_immediate; R_comment; R_newline; R_newline_lf; R_newline_cr; R_newline_crlf; R_space; R_spaces; R_any; R_letter; R_digit; R_hexDigit; R_ListOf].

(** The keyword rules: [k = caseInsensitive<"k">]. *)
Definition keyword_of (r : rule) : option string :=
  match r with
  | R_project => Some "project"
  | R_table => Some "table"
  | R_tablepartial => Some "tablepartial"
  | R_ref => Some "ref"
  | R_enum => Some "enum"
  | R_tablegroup => Some "tablegroup"
  | R_indexes => Some "indexes"
  | R_note => Some "note"
  | R_headercolor => Some "headercolor"
  | R_as => Some "as"
  | R_type => Some "type"
  | R_name => Some "name"
  | R_where => Some "where"
  | R_default => Some "default"
  | R_not => Some "not"
  | R_null => Some "null"
  | R_primary => Some "primary"
  | R_key => Some "key"
  | R_delete => Some "delete"
  | R_update => Some "update"
  | R_set => Some "set"
  | R_no => Some "no"
  | R_action => Some "action"
  | R_true => Some "true"
  | R_false => Some "false"
  | R_pk => Some "pk"
  | R_unique => Some "unique"
  | R_increment => Some "increment"
  | R_asc => Some "asc"
  | R_desc => Some "desc"
  | R_btree => Some "btree"
  | R_hash => Some "hash"
  | R_gin => Some "gin"
  | R_gist => Some "gist"
  | R_spgist => Some "spgist"
  | R_brin => Some "brin"
  | R_cascade => Some "cascade"
  | R_restrict => Some "restrict"
  | R_generated => Some "generated"
  | R_always => Some "always"
  | R_by => Some "by"
  | R_identity => Some "identity"
  | R_stored => Some "stored"
  | R_check => Some "check"
  | R_constraints => Some "constraints"
  | R_constraint => Some "constraint"
  | R_exclude => Some "exclude"
  | R_using => Some "using"
  | R_with => Some "with"
  | R_deferrable => Some "deferrable"
  | R_initially => Some "initially"
  | R_deferred => Some "deferred"
  | R_immediate => Some "immediate"
  | _ => None
  end.

(** Syntactic rules (capitalised names) skip spaces implicitly. *)
Definition is_syntactic (r : rule) : bool :=
  match rule_name r with
  | String c _ => is_upper_ascii c
  | EmptyString => false
  end.

(** ** The Ohm matching engine *)

Inductive cls : Type := CAny | CLetter | CHexDigit.

Definition cls_test (k : cls) (c : ascii) : bool :=
  match k with
  | CAny => true
  | CLetter => is_letter c
  | CHexDigit => is_hexdigit c
  end.

(** Parsing expressions of Ohm.  [EListOf e sep] is [ListOf<e, sep>]. *)
Inductive expr : Type :=
| ETerm (t : string)
| ECI (t : string)
| ERange (lo hi : ascii)
| EClass (k : cls)
| ESeq (es : list expr)
| EAlt (es : list expr)
| EStar (e : expr)
| EPlus (e : expr)
| EOpt (e : expr)
| ENot (e : expr)
| EApp (r : rule)
| EListOf (e sep : expr)
| EEnd.

(** Concrete syntax tree nodes with their source interval [st, st+ln):
    terminal nodes, rule applications, and iteration nodes. *)
Inductive cst : Type :=
| CTerm (st ln : nat)
| CNode (r : rule) (st ln : nat) (kids : list cst)
| CIter (st ln : nat) (kids : list cst).

Definition cst_start (n : cst) : nat :=
  match n with CTerm st _ | CNode _ st _ _ | CIter st _ _ => st end.
Definition cst_len (n : cst) : nat :=
  match n with CTerm _ ln | CNode _ _ ln _ | CIter _ ln _ => ln end.

(** [node.sourceString] *)
Definition source_string (s : string) (n : cst) : string :=
  substring (cst_start n) (cst_len n) s.

(** Number of bindings (children) an expression contributes. *)
Fixpoint arity (e : expr) : nat :=
  match e with
  | ESeq es => (fix sum (es : list expr) : nat :=
                  match es with [] => 0 | e1 :: es' => arity e1 + sum es' end) es
  | EAlt (e1 :: _) => arity e1
  | EAlt [] => 0
  | EStar e1 | EPlus e1 | EOpt e1 => arity e1
  | ENot _ | EEnd => 0
  | _ => 1
  end.

(** The iteration nodes of [e*], [e+], [e?]: one per binding of [e]. *)
Definition iter_nodes (ar st ln : nat) (rows : list (list cst)) : list cst :=
  map (fun i => CIter st ln (flat_map (fun row => match nth_error row i with
                                                  | Some c => [c] | None => [] end) rows))
      (seq 0 ar).

(** Failure information: the rightmost failure position and the
    descriptions of what was expected there. *)
Definition finfo := (nat * list string)%type.

Definition record_fail (p : nat) (d : string) (f : finfo) : finfo :=
  let (q, ds) := f in
  if q <? p then (p, [d])
  else if p =? q then (q, if existsb (String.eqb d) ds then ds else (ds ++ [d])%list)
  else f.

Inductive outcome : Type :=
| Abort
| Fail (f : finfo)
| Ok (bs : list cst) (p : nat) (f : finfo).

Fixpoint match_at (ci : bool) (t s : string) (pos : nat) : bool :=
  match t with
  | EmptyString => true
  | String c t' =>
      match String.get pos s with
      | Some c' => (if ci then Ascii.eqb (up c') (up c) else Ascii.eqb c' c)
                   && match_at ci t' s (S pos)
      | None => false
      end
  end.

Definition char_test (test : ascii -> bool) (s : string) (pos : nat) : bool :=
  match String.get pos s with Some c => test c | None => false end.

Definition quote (t : string) : string := str1 c_dq ++ t ++ str1 c_dq.

Section Engine.

Variable rule_body : rule -> expr.
Variable s : string.

(** A sequence: the bindings of its parts, concatenated. *)
Fixpoint seq_eval (g : expr -> nat -> finfo -> outcome) (es : list expr) (p : nat)
  (acc : list cst) (f : finfo) : outcome :=
  match es with
  | [] => Ok acc p f
  | e1 :: es' =>
      match g e1 p f with
      | Ok bs p' f' => seq_eval g es' p' (acc ++ bs)%list f'
      | Fail f' => Fail f'
      | Abort => Abort
      end
  end.

(** Ordered choice: the first alternative that succeeds. *)
Fixpoint alt_eval (g : expr -> nat -> finfo -> outcome) (es : list expr) (pos : nat)
  (f : finfo) : outcome :=
  match es with
  | [] => Fail f
  | e1 :: es' =>
      match g e1 pos f with
      | Ok bs p' f' => Ok bs p' f'
      | Fail f' => alt_eval g es' pos f'
      | Abort => Abort
      end
  end.

(** Greedy iteration of [g1]; an iteration that consumes nothing ends the
    loop (Ohm refuses grammars where this can happen).  [k] bounds the
    number of iterations. *)
Fixpoint star_loop (g1 : nat -> finfo -> outcome) (k p : nat) (f : finfo)
  : option (list (list cst) * nat * finfo) :=
  match k with
  | 0 => None
  | S k' =>
      match g1 p f with
      | Ok bs p' f' =>
          if p <? p' then
            match star_loop g1 k' p' f' with
            | Some (rows, q, f'') => Some (bs :: rows, q, f'')
            | None => None
            end
          else Some ([], p, f')
      | Fail f' => Some ([], p, f')
      | Abort => None
      end
  end.

(** The [(sep e1)*] part of [NonemptyListOf<e1, sep>]. *)
Fixpoint list_loop (gsep gel : nat -> finfo -> outcome) (k p : nat) (f : finfo)
  : option (list cst * nat * finfo) :=
  match k with
  | 0 => None
  | S k' =>
      match gsep p f with
      | Ok _ ps fs =>
          match gel ps fs with
          | Ok bs p' f' =>
              if p <? p' then
                match list_loop gsep gel k' p' f' with
                | Some (els, r, f'') => Some ((bs ++ els)%list, r, f'')
                | None => None
                end
              else Some ([], p, f')
          | Fail f' => Some ([], p, f')
          | Abort => None
          end
      | Fail f' => Some ([], p, f')
      | Abort => None
      end
  end.

(** One parsing expression, given how to apply a rule ([app r q f]
    evaluates the body of [r] at [q]) and how to skip spaces ([skip syn p]
    skips them when [syn] holds). *)
Fixpoint go (app : rule -> nat -> finfo -> outcome) (skip : bool -> nat -> option nat)
  (syn : bool) (e : expr) (pos : nat) (f : finfo) {struct e} : outcome :=
  match e with
  | ETerm t =>
      match skip syn pos with
      | None => Abort
      | Some q => if match_at false t s q then Ok [CTerm q (String.length t)] (q + String.length t) f
                  else Fail (record_fail q (quote t) f)
      end
  | ECI t =>
      match skip syn pos with
      | None => Abort
      | Some q => if match_at true t s q then Ok [CTerm q (String.length t)] (q + String.length t) f
                  else Fail (record_fail q (quote t) f)
      end
  | ERange lo hi =>
      match skip syn pos with
      | None => Abort
      | Some q => if char_test (in_rng (nat_of_ascii lo) (nat_of_ascii hi)) s q
                  then Ok [CTerm q 1] (S q) f
                  else Fail (record_fail q (quote (str1 lo) ++ ".." ++ quote (str1 hi))%string f)
      end
  | EClass k =>
      match skip syn pos with
      | None => Abort
      | Some q => if char_test (cls_test k) s q then Ok [CTerm q 1] (S q) f
                  else Fail (record_fail q (match k with CAny => "any object" | CLetter => "a letter"
                                               | CHexDigit => "a hexadecimal digit" end)%string f)
      end
  | EEnd =>
      match skip syn pos with
      | None => Abort
      | Some q => if q =? String.length s then Ok [] q f else Fail (record_fail q "end of input"%string f)
      end
  | EApp r =>
      match skip syn pos with
      | None => Abort
      | Some q =>
          match app r q f with
          | Ok bs p f' => Ok [CNode r q (p - q) bs] p f'
          | Fail f' => Fail f'
          | Abort => Abort
          end
      end
  | ESeq es => seq_eval (go app skip syn) es pos [] f
  | EAlt es => alt_eval (go app skip syn) es pos f
  | EStar e1 =>
      match star_loop (go app skip syn e1) (S (String.length s)) pos f with
      | None => Abort
      | Some (rows, q, f') => Ok (iter_nodes (arity e1) pos (q - pos) rows) q f'
      end
  | EPlus e1 =>
      match star_loop (go app skip syn e1) (S (String.length s)) pos f with
      | None => Abort
      | Some ([], _, f') => Fail f'
      | Some (rows, q, f') => Ok (iter_nodes (arity e1) pos (q - pos) rows) q f'
      end
  | EOpt e1 =>
      match go app skip syn e1 pos f with
      | Ok bs p f' => Ok (iter_nodes (arity e1) pos (p - pos) [bs]) p f'
      | Fail f' => Ok (iter_nodes (arity e1) pos 0 []) pos f'
      | Abort => Abort
      end
  | ENot e1 =>
      (* failures inside a lookahead are not recorded *)
      match go app skip syn e1 pos (0, []) with
      | Ok _ _ _ => Fail (record_fail pos "not"%string f)
      | Fail _ => Ok [] pos f
      | Abort => Abort
      end
  | EListOf e1 sep =>
      (* ListOf<e1, sep> = NonemptyListOf<e1, sep> | EmptyListOf<e1, sep>,
         NonemptyListOf<e1, sep> = e1 (sep e1)*; the node keeps the
         elements, i.e. [asIteration().children] *)
      match skip syn pos with
      | None => Abort
      | Some q =>
          match go app skip true e1 q f with
          | Ok bs1 p1 f1 =>
              match list_loop (go app skip true sep) (go app skip true e1) (S (String.length s)) p1 f1 with
              | None => Abort
              | Some (els, r, f') => Ok [CNode R_ListOf q (r - q) (bs1 ++ els)%list] r f'
              end
          | Fail f1 => Ok [CNode R_ListOf q 0 []] q f1
          | Abort => Abort
          end
      end
  end.

(** [eval n syn e pos f] matches [e] against [s] at [pos]; [syn] says
    whether the enclosing rule is syntactic (spaces are then skipped before
    every application, terminal, range and [end]).  [n] bounds the nesting
    of rule applications; running out of it gives [Abort] (the grammar is
    not recursive, so a bound above its depth never runs out). *)
Fixpoint eval (n : nat) (syn : bool) (e : expr) (pos : nat) (f : finfo) {struct n} : outcome :=
  match n with
  | 0 => Abort
  | S n' =>
      (* [state.skipSpaces()]: apply [spaces]; failures inside are not recorded *)
      let skip (syn : bool) (p : nat) : option nat :=
        if syn then
          match eval n' false (rule_body R_spaces) p (0, []) with
          | Ok _ q _ => Some q
          | Fail _ => Some p
          | Abort => None
          end
        else Some p in
      let app (r : rule) (q : nat) (f : finfo) : outcome :=
        eval n' (is_syntactic r) (rule_body r) q f in
      go app skip syn e pos f
  end.

End Engine.

(** ** The grammar [dbml.ohm] *)

Module G.
Definition A (r : rule) : expr := EApp r.
Definition T (t : string) : expr := ETerm t.
Definition ident : expr := EApp R_identifier.
Definition identChar : expr := EAlt [A R_letter; A R_digit; T "_"].
End G.
Import G.

Definition rule_body (r : rule) : expr :=
  match r with
  (* ===== Top Level ===== *)
  | R_Schema => EStar (A R_Element)
  | R_Element => EAlt [A R_Project; A R_Table; A R_TablePartial; A R_Ref; A R_Enum; A R_TableGroup]
  (* ===== Project Definition ===== *)
  | R_Project => ESeq [A R_project; ident; T "{"; A R_ProjectBody; T "}"]
  | R_ProjectBody => EStar (A R_ProjectProperty)
  | R_ProjectProperty => ESeq [ident; T ":"; A R_Value]
  (* ===== Table Definition ===== *)
  | R_Table => ESeq [A R_table; A R_QualifiedIdentifier; EOpt (A R_TableAlias); T "{"; A R_TableBody; T "}"]
  | R_QualifiedIdentifier => EAlt [A R_QualifiedIdentifier_qualified; A R_QualifiedIdentifier_simple]
  | R_QualifiedIdentifier_qualified => ESeq [ident; T "."; ident]
  | R_QualifiedIdentifier_simple => ident
  | R_TableAlias => ESeq [A R_as; ident]
  | R_TableBody => EStar (A R_TableElement)
  | R_TableElement => EAlt [A R_Column; A R_Indexes; A R_Constraints; A R_Note; A R_HeaderColor;
                            A R_PartialReference]
  (* ===== TablePartial Definition ===== *)
  | R_TablePartial => ESeq [A R_tablepartial; ident; T "{"; A R_TablePartialBody; T "}"]
  | R_TablePartialBody => EStar (A R_TablePartialElement)
  | R_TablePartialElement => EAlt [A R_Column; A R_Indexes; A R_Constraints; A R_Note]
  | R_PartialReference => ESeq [T "~"; ident]
  (* ===== Column Definition ===== *)
  | R_Column => ESeq [ident; A R_DataType; EOpt (A R_ColumnSettings)]
  | R_DataType => EAlt [A R_DataType_array; A R_DataType_parameterized; A R_DataType_simple]
  | R_DataType_array => ESeq [ident; T "[]"]
  | R_DataType_parameterized => ESeq [ident; T "("; A R_TypeParams; T ")"]
  | R_DataType_simple => ident
  | R_TypeParams => EPlus (ESeq [ENot (T ")"); A R_any])
  | R_ColumnSettings => ESeq [T "["; EListOf (A R_ColumnSetting) (T ","); T "]"]
  | R_ColumnSetting =>
      EAlt [A R_ColumnSetting_pk; A R_ColumnSetting_primaryKey; A R_ColumnSetting_unique;
            A R_ColumnSetting_notNull; A R_ColumnSetting_null; A R_ColumnSetting_increment;
            A R_ColumnSetting_identityAlways; A R_ColumnSetting_identityByDefault;
            A R_ColumnSetting_generatedStored; A R_ColumnSetting_check;
            A R_ColumnDefault; A R_ColumnNote; A R_ColumnRef]
  | R_ColumnSetting_pk => A R_pk
  | R_ColumnSetting_primaryKey => ESeq [A R_primary; A R_key]
  | R_ColumnSetting_unique => A R_unique
  | R_ColumnSetting_notNull => ESeq [A R_not; A R_null]
  | R_ColumnSetting_null => A R_null
  | R_ColumnSetting_increment => A R_increment
  | R_ColumnSetting_identityAlways => ESeq [A R_generated; A R_always; A R_as; A R_identity]
  | R_ColumnSetting_identityByDefault =>
      ESeq [A R_generated; A R_by; A R_default; A R_as; A R_identity]
  | R_ColumnSetting_generatedStored =>
      ESeq [A R_generated; A R_always; A R_as; A R_backtickString; A R_stored]
  | R_ColumnSetting_check => ESeq [A R_check; A R_backtickString]
  | R_ColumnDefault => ESeq [A R_default; T ":"; A R_DefaultValue]
  | R_ColumnNote => ESeq [A R_note; T ":"; A R_Value]
  | R_ColumnRef => ESeq [A R_ref; T ":"; A R_RefType; A R_RefEndpoint]
  | R_DefaultValue => EAlt [A R_DefaultValue_expression; A R_DefaultValue_literal]
  | R_DefaultValue_expression => A R_backtickString
  | R_DefaultValue_literal => A R_Value
  (* ===== Indexes ===== *)
  | R_Indexes => ESeq [A R_indexes; T "{"; EStar (A R_Index); T "}"]
  | R_Index => EAlt [A R_Index_composite; A R_Index_single]
  | R_Index_composite => ESeq [T "("; EListOf (A R_IndexColumn) (T ","); T ")"; EOpt (A R_IndexSettings)]
  | R_Index_single => ESeq [ident; EOpt (A R_IndexSettings)]
  | R_IndexColumn => ESeq [ident; EOpt (A R_SortOrder)]
  | R_SortOrder => EAlt [A R_SortOrder_asc; A R_SortOrder_desc]
  | R_SortOrder_asc => A R_asc
  | R_SortOrder_desc => A R_desc
  | R_IndexSettings => ESeq [T "["; EListOf (A R_IndexSetting) (T ","); T "]"]
  | R_IndexSetting => EAlt [A R_IndexType; A R_IndexName; A R_IndexWhere; A R_IndexSetting_pk;
                            A R_IndexSetting_unique]
  | R_IndexSetting_pk => A R_pk
  | R_IndexSetting_unique => A R_unique
  | R_IndexType => ESeq [A R_type; T ":"; A R_IndexTypeName]
  | R_IndexName => ESeq [A R_name; T ":"; A R_Value]
  | R_IndexWhere => ESeq [A R_where; T ":"; A R_Value]
  | R_IndexTypeName => EAlt [A R_IndexTypeName_btree; A R_IndexTypeName_hash; A R_IndexTypeName_gin;
                             A R_IndexTypeName_gist; A R_IndexTypeName_spgist;
                             A R_IndexTypeName_brin; A R_IndexTypeName_custom]
  | R_IndexTypeName_btree => A R_btree
  | R_IndexTypeName_hash => A R_hash
  | R_IndexTypeName_gin => A R_gin
  | R_IndexTypeName_gist => A R_gist
  | R_IndexTypeName_spgist => A R_spgist
  | R_IndexTypeName_brin => A R_brin
  | R_IndexTypeName_custom => ident
  (* ===== Constraints ===== *)
  | R_Constraints => ESeq [A R_constraints; T "{"; EStar (A R_Constraint); T "}"]
  | R_Constraint => ESeq [EOpt (A R_ConstraintName); A R_ConstraintType; EOpt (A R_ConstraintSettings)]
  | R_ConstraintName => ESeq [A R_constraint; ident]
  | R_ConstraintType => EAlt [A R_ConstraintType_check; A R_ConstraintType_unique;
                              A R_ConstraintType_primaryKey; A R_ConstraintType_exclude]
  | R_ConstraintType_check => ESeq [A R_check; A R_backtickString]
  | R_ConstraintType_unique => ESeq [A R_unique; T "("; EListOf ident (T ","); T ")"]
  | R_ConstraintType_primaryKey => ESeq [A R_primary; A R_key; T "("; EListOf ident (T ","); T ")"]
  | R_ConstraintType_exclude =>
      ESeq [A R_exclude; A R_using; ident; T "("; ident; A R_with; A R_ExcludeOperator; T ")"]
  | R_ExcludeOperator => EAlt [T "&&"; T "="; T "<>"; T "@>"; T "<@"; T "||"; T "-|-"; T "~";
                               EPlus (A R_any)]
  | R_ConstraintSettings => ESeq [T "["; EListOf (A R_ConstraintSetting) (T ","); T "]"]
  | R_ConstraintSetting => EAlt [A R_ConstraintSetting_deferrable; A R_ConstraintSetting_notDeferrable;
                                 A R_ConstraintSetting_initiallyDeferred;
                                 A R_ConstraintSetting_initiallyImmediate]
  | R_ConstraintSetting_deferrable => A R_deferrable
  | R_ConstraintSetting_notDeferrable => ESeq [A R_not; A R_deferrable]
  | R_ConstraintSetting_initiallyDeferred => ESeq [A R_initially; A R_deferred]
  | R_ConstraintSetting_initiallyImmediate => ESeq [A R_initially; A R_immediate]
  (* ===== References ===== *)
  | R_Ref => ESeq [A R_ref; EOpt (A R_RefName); T ":"; A R_RefEndpoint; A R_RefType; A R_RefEndpoint;
                   EOpt (A R_RefSettings)]
  | R_RefName => ident
  | R_RefEndpoint => EAlt [A R_RefEndpoint_compositeQualified; A R_RefEndpoint_composite;
                           A R_RefEndpoint_simpleQualified; A R_RefEndpoint_simple]
  | R_RefEndpoint_compositeQualified =>
      ESeq [ident; T "."; ident; T "."; T "("; EListOf ident (T ","); T ")"]
  | R_RefEndpoint_composite => ESeq [ident; T "."; T "("; EListOf ident (T ","); T ")"]
  | R_RefEndpoint_simpleQualified => ESeq [ident; T "."; ident; T "."; ident]
  | R_RefEndpoint_simple => ESeq [ident; T "."; ident]
  | R_RefType => EAlt [A R_RefType_many; A R_RefType_to; A R_RefType_from; A R_RefType_one]
  | R_RefType_many => T "<>"
  | R_RefType_to => T ">"
  | R_RefType_from => T "<"
  | R_RefType_one => T "-"
  | R_RefSettings => ESeq [T "["; EListOf (A R_RefSetting) (T ","); T "]"]
  | R_RefSetting => EAlt [A R_RefSetting_delete; A R_RefSetting_update]
  | R_RefSetting_delete => A R_RefOnDelete
  | R_RefSetting_update => A R_RefOnUpdate
  | R_RefOnDelete => ESeq [A R_delete; T ":"; A R_RefAction]
  | R_RefOnUpdate => ESeq [A R_update; T ":"; A R_RefAction]
  | R_RefAction => EAlt [A R_RefAction_cascade; A R_RefAction_restrict; A R_RefAction_setNull;
                         A R_RefAction_setDefault; A R_RefAction_noAction]
  | R_RefAction_cascade => A R_cascade
  | R_RefAction_restrict => A R_restrict
  | R_RefAction_setNull => ESeq [A R_set; A R_null]
  | R_RefAction_setDefault => ESeq [A R_set; A R_default]
  | R_RefAction_noAction => ESeq [A R_no; A R_action]
  (* ===== Enums, Table Groups, Notes ===== *)
  | R_Enum => ESeq [A R_enum; ident; T "{"; EStar (A R_EnumValue); T "}"]
  | R_EnumValue => ESeq [ident; EOpt (A R_EnumValueNote)]
  | R_EnumValueNote => ESeq [T "["; A R_note; T ":"; A R_Value; T "]"]
  | R_TableGroup => ESeq [A R_tablegroup; ident; T "{"; EStar ident; T "}"]
  | R_Note => ESeq [A R_note; T ":"; A R_Value]
  | R_HeaderColor => ESeq [A R_headercolor; T ":"; EAlt [A R_HexColor; A R_Value]]
  | R_HexColor => ESeq [T "#"; A R_hexDigit; A R_hexDigit; A R_hexDigit; A R_hexDigit; A R_hexDigit;
                        A R_hexDigit]
  (* ===== Values ===== *)
  | R_Value => EAlt [A R_tripleString; A R_doubleString; A R_singleString; A R_number; A R_boolean; ident]
  | R_tripleString => ESeq [T "'''"; EStar (ESeq [ENot (T "'''"); A R_any]); T "'''"]
  | R_doubleString => ESeq [T (str1 c_dq); EStar (A R_doubleStringChar); T (str1 c_dq)]
  | R_singleString => ESeq [T (str1 c_sq); EStar (A R_singleStringChar); T (str1 c_sq)]
  | R_doubleStringChar => EAlt [A R_doubleStringChar_escape; A R_doubleStringChar_normal]
  | R_doubleStringChar_escape => ESeq [T (str1 c_bs); A R_any]
  | R_doubleStringChar_normal => ESeq [ENot (EAlt [T (str1 c_dq); T (str1 c_bs)]); A R_any]
  | R_singleStringChar => EAlt [A R_singleStringChar_escape; A R_singleStringChar_normal]
  | R_singleStringChar_escape => ESeq [T (str1 c_bs); A R_any]
  | R_singleStringChar_normal => ESeq [ENot (EAlt [T (str1 c_sq); T (str1 c_bs)]); A R_any]
  | R_backtickString => ESeq [T (str1 c_bt); EStar (ESeq [ENot (T (str1 c_bt)); A R_any]); T (str1 c_bt)]
  | R_number => ESeq [EOpt (T "-"); EPlus (A R_digit); EOpt (ESeq [T "."; EPlus (A R_digit)])]
  | R_boolean => EAlt [A R_boolean_true; A R_boolean_false]
  | R_boolean_true => A R_true
  | R_boolean_false => A R_false
  (* ===== Identifiers and Keywords ===== *)
  | R_identifier => EAlt [A R_quotedIdentifier; A R_identifierName]
  | R_quotedIdentifier => ESeq [T (str1 c_dq); EStar (ESeq [ENot (T (str1 c_dq)); A R_any]); T (str1 c_dq)]
  | R_identifierName => ESeq [ENot (A R_reservedWord); EAlt [A R_letter; T "_"]; EStar identChar]
  | R_reservedWord => ESeq [EAlt [A R_project; A R_table; A R_tablepartial; A R_ref; A R_enum;
                                  A R_tablegroup; A R_indexes; A R_constraints];
                            ENot identChar]
  (* ===== Whitespace and Comments ===== *)
  | R_comment => EAlt [ESeq [T "//"; EStar (ESeq [ENot (A R_newline); A R_any]); EOpt (A R_newline)];
                       ESeq [T "/*"; EStar (ESeq [ENot (T "*/"); A R_any]); T "*/"]]
  | R_newline => EAlt [A R_newline_lf; A R_newline_cr; A R_newline_crlf]
  | R_newline_lf => T (str1 c_nl)
  | R_newline_cr => T (str1 c_cr)
  | R_newline_crlf => T (String c_cr (str1 c_nl))
  (* ===== Built-in rules ([space += comment] puts [comment] first) ===== *)
  | R_space => EAlt [A R_comment; ERange (chr 0) " "%char]
  | R_spaces => EStar (A R_space)
  | R_any => EClass CAny
  | R_letter => EClass CLetter
  | R_digit => ERange "0"%char "9"%char
  | R_hexDigit => EClass CHexDigit
  | R_ListOf => ESeq []
  (* keyword rules: caseInsensitive<"k"> *)
  | _ => match keyword_of r with Some k => ECI k | None => ESeq [] end
  end.

(** The bound on rule nesting used by the parser (the grammar's depth is
    far below it). *)
Definition DEPTH : nat := 100.

(** [grammar.match(input, startRule)]: the start rule followed by [end],
    evaluated in a syntactic context when the start rule is syntactic. *)
Inductive match_result : Type :=
| MatchOk (root : cst)
| MatchFail (pos : nat) (expected : list string)
| MatchAbort.

Definition grammar_match (s : string) (start : rule) : match_result :=
  match eval rule_body s DEPTH (is_syntactic start) (ESeq [EApp start; EEnd]) 0 (0, []) with
  | Ok [root] _ _ => MatchOk root
  | Ok _ _ _ => MatchAbort
  | Fail (p, ds) => MatchFail p ds
  | Abort => MatchAbort
  end.

(** ** The semantic action [toAST] (semantics.ts) *)

(** Only the Column objects built by the Table action are shared (each is
    pushed to both [columns] and [elements], and [parse] later mutates it
    through [columns]); they live on the heap, threaded by a state monad.
    Every other value is built fresh and kept by value.  Object properties
    are kept in insertion order. *)
Definition St (A : Type) : Type := heap -> A * heap.
Definition st_ret {A : Type} (a : A) : St A := fun h => (a, h).
Definition st_bind {A B : Type} (m : St A) (k : A -> St B) : St B :=
  fun h => let (a, h') := m h in k a h'.
Notation "'let*' x := m 'in' k" := (st_bind m (fun x => k))
  (at level 200, x name, m at level 100, k at level 200).

(** [new] object on the heap: its reference. *)
Definition alloc (v : jv) : St jv := fun h => (JRef (length h), (h ++ [v])%list).

Fixpoint st_map {A B : Type} (f : A -> St B) (xs : list A) : St (list B) :=
  match xs with
  | [] => st_ret []
  | x :: xs' => let* y := f x in let* ys := st_map f xs' in st_ret (y :: ys)
  end.

Fixpoint st_fold {A B : Type} (f : B -> A -> St B) (xs : list A) (acc : B) : St B :=
  match xs with
  | [] => st_ret acc
  | x :: xs' => let* acc' := f acc x in st_fold f xs' acc'
  end.

Definition JS (s : string) : jv := JStr s.
Definition jstr_is (v : jv) (t : string) : bool :=
  match v with JStr s => String.eqb s t | _ => false end.

(** [x.startsWith('#')] *)
Definition starts_with_hash (x : string) : bool :=
  match x with String c _ => Ascii.eqb c "#"%char | EmptyString => false end.

(** [const { type: _, dataType, ...rest } = element] : [rest] *)
Definition rest_props (element : jv) : jv :=
  match element with JObj ps => JObj (pdel (pdel ps "type") "dataType") | _ => JObj [] end.

(** [for (const s of settings.asIteration().children) Object.assign(result, s.toAST())] *)
Definition assign_all (vs : list jv) : jv := fold_left assign vs (JObj []).

(** The Schema action: one element of [elements.children]. *)
Definition schema_step (schema ast : jv) : jv :=
  match ast with
  | JObj ps =>
      if phas ps "type" then
        let ty := pget ps "type" in
        if jstr_is ty "project" then set (set schema "project" ast) "name" (get ast "name")
        else if jstr_is ty "table" then push schema "tables" ast
        else if jstr_is ty "tablePartial" then
          let schema := if truthy (get schema "partials") then schema
                        else set schema "partials" (JArr []) in
          push schema "partials" ast
        else if jstr_is ty "ref" then push schema "refs" ast
        else if jstr_is ty "enum" then push schema "enums" ast
        else if jstr_is ty "tableGroup" then push schema "tableGroups" ast
        else schema
      else schema
  | _ => schema
  end.

Definition schema_init : jv :=
  JObj [("name", JS "database"); ("tables", JArr []); ("refs", JArr []); ("enums", JArr []);
        ("tableGroups", JArr []); ("project", JUndef); ("partials", JArr [])].

(** The Column object built from a column element of a table body. *)
Definition column_of (element : jv) : jv :=
  assign (JObj [("name", nullish (get element "name") (JS EmptyString));
                ("type", nullish (get element "dataType") (JS EmptyString))])
         (rest_props element).

(** The Table action: one element of [bodyElements]. *)
Definition table_step (result element : jv) : St jv :=
  if negb (truthy element) then st_ret result else
  let ty := get element "type" in
  if jstr_is ty "column" then
    let* col := alloc (column_of element) in
    st_ret (push (push result "columns" col) "elements" (JObj [("type", JS "column"); ("column", col)]))
  else if jstr_is ty "indexes" then st_ret (set result "indexes" (nullish (get element "indexes") (JArr [])))
  else if jstr_is ty "constraints" then st_ret (set result "constraints" (get element "constraints"))
  else if jstr_is ty "note" then st_ret (set result "note" (get element "value"))
  else if jstr_is ty "headerColor" then st_ret (set result "headerColor" (get element "value"))
  else if jstr_is ty "partialReference" then
    st_ret (push result "elements"
                 (JObj [("type", JS "partialRef");
                        ("ref", JObj [("name", nullish (get element "name") (JS EmptyString))])]))
  else st_ret result.

Definition table_init (nameInfo : jv) : jv :=
  let result := JObj [("type", JS "table");
                      ("name", match nameInfo with JStr _ => nameInfo | _ => get nameInfo "name" end);
                      ("columns", JArr []); ("indexes", JArr []); ("elements", JArr [])] in
  match nameInfo with
  | JObj ps => if phas ps "schema" then set result "schema" (pget ps "schema") else result
  | _ => result
  end.

(** The Table action, given [name.toAST()], [alias.toAST()] when the
    alias is present, and [body.toAST()]. *)
Definition Table_action (nameInfo : jv) (aliasInfo : option jv) (bodyElements : jv) : St jv :=
  let result := table_init nameInfo in
  let result := match aliasInfo with Some a => set result "alias" (idx0 a) | None => result end in
  match bodyElements with
  | JArr es => st_fold table_step es result
  | _ => st_ret result
  end.

(** The TablePartial action: one element of the body. *)
Definition partial_step (result element : jv) : jv :=
  let ty := get element "type" in
  if jstr_is ty "column" then push result "columns" (column_of element)
  else if jstr_is ty "indexes" then set result "indexes" (nullish (get element "indexes") (JArr []))
  else if jstr_is ty "constraints" then set result "constraints" (get element "constraints")
  else if jstr_is ty "note" then set result "note" (get element "value")
  else result.

(** [props[key] = value] on a plain object: assigning a primitive to
    [__proto__] goes to the prototype setter and is ignored. *)
Definition project_body_step (props prop : jv) : jv :=
  match get prop "key" with
  | JStr k => if String.eqb k "__proto__" then props else set props k (get prop "value")
  | _ => props
  end.

(** [{ type: "project", name, ...props }] *)
Definition project_of (name props : jv) : jv :=
  assign (JObj [("type", JS "project"); ("name", name)]) props.

(** The two escape actions [doubleStringChar_escape] and
    [singleStringChar_escape], [q] being the string's quote. *)
Definition unescape (q : ascii) (c : string) : string :=
  if String.eqb c (str1 q) then str1 q
  else if String.eqb c (str1 c_bs) then str1 c_bs
  else if String.eqb c "n" then str1 c_nl
  else if String.eqb c "r" then str1 c_cr
  else if String.eqb c "t" then str1 c_tab
  else c.

(** [arr.length > 0] for an iteration node ([x?]) *)
Definition present (n : cst) : bool :=
  match n with CIter _ _ (_ :: _) => true | _ => false end.

Definition obj (ps : list (string * jv)) : St jv := st_ret (JObj ps).

(** [semantics(match).toAST()]: the actions of [createSemantics], with
    [_terminal] (the source string), [_iter] (the children's values) and
    Ohm's default action for a node of one child (that child's value). *)
Fixpoint toAST (s : string) (n : cst) {struct n} : St jv :=
  let src := source_string s in
  (* [x.children.map(c => c.toAST())] *)
  let values := st_map (toAST s) in
  (* [for (const c of xs) Object.assign(result, c.toAST())] *)
  let assign_each (xs : list cst) :=
    st_fold (fun acc x => let* v := toAST s x in st_ret (assign acc v)) xs (JObj []) in
  match n with
  | CTerm _ _ => st_ret (JS (src n))
  | CIter _ _ kids => let* xs := values kids in st_ret (JArr xs)
  | CNode r _ _ kids =>
    match r, kids with
    (* ===== Top Level ===== *)
    | R_Schema, [CIter _ _ elements] =>
        st_fold (fun schema element => let* ast := toAST s element in st_ret (schema_step schema ast))
                elements schema_init
    (* ===== Project ===== *)
    | R_Project, [_; name; _; body; _] =>
        let* props := toAST s body in
        let* nm := toAST s name in
        st_ret (project_of nm props)
    | R_ProjectBody, [CIter _ _ properties] =>
        st_fold (fun props prop => let* p := toAST s prop in st_ret (project_body_step props p))
                properties (JObj [])
    | R_ProjectProperty, [key; _; value] =>
        let* k := toAST s key in let* v := toAST s value in obj [("key", k); ("value", v)]
    (* ===== Table ===== *)
    | R_Table, [_; name; alias; _; body; _] =>
        let* nameInfo := toAST s name in
        let* aliasInfo := if present alias
                          then let* a := toAST s alias in st_ret (Some a)
                          else st_ret None in
        let* bodyElements := toAST s body in
        Table_action nameInfo aliasInfo bodyElements
    | R_QualifiedIdentifier_qualified, [schema; _; name] =>
        let* sc := toAST s schema in let* nm := toAST s name in obj [("schema", sc); ("name", nm)]
    | R_QualifiedIdentifier_simple, [name] => toAST s name
    | R_TableAlias, [_; name] => toAST s name
    | R_TableBody, [CIter _ _ elements] => let* xs := values elements in st_ret (JArr xs)
    (* ===== TablePartial ===== *)
    | R_TablePartial, [_; name; _; body; _] =>
        let* nm := toAST s name in
        let result := JObj [("type", JS "tablePartial"); ("name", nm); ("columns", JArr []);
                            ("indexes", JArr [])] in
        let* elements := toAST s body in
        match elements with
        | JArr es => st_ret (fold_left partial_step es result)
        | _ => st_ret result
        end
    | R_TablePartialBody, [CIter _ _ elements] => let* xs := values elements in st_ret (JArr xs)
    | R_PartialReference, [_; name] =>
        let* nm := toAST s name in obj [("type", JS "partialReference"); ("name", nm)]
    (* ===== Column ===== *)
    | R_Column, [name; dataType; settings] =>
        let* nm := toAST s name in
        let* dt := toAST s dataType in
        let result := JObj [("type", JS "column"); ("name", nm); ("dataType", dt)] in
        if present settings
        then let* cs := toAST s settings in st_ret (assign result (idx0 cs))
        else st_ret result
    | R_DataType_array, [type; _] => let* t := toAST s type in st_ret (js_strcat t "[]")
    | R_DataType_parameterized, [type; _; params; _] =>
        let* t := toAST s type in st_ret (js_strcat t ("(" ++ src params ++ ")"))
    | R_DataType_simple, [type] => toAST s type
    | R_ColumnSettings, [_; CNode R_ListOf _ _ settings; _] => assign_each settings
    | R_ColumnSetting_pk, _ => obj [("pk", JBool true)]
    | R_ColumnSetting_primaryKey, _ => obj [("pk", JBool true)]
    | R_ColumnSetting_unique, _ => obj [("unique", JBool true)]
    | R_ColumnSetting_notNull, _ => obj [("notNull", JBool true)]
    | R_ColumnSetting_null, _ => obj [("notNull", JBool false)]
    | R_ColumnSetting_increment, _ => obj [("increment", JBool true)]
    | R_ColumnSetting_identityAlways, _ => obj [("identityGeneration", JS "always")]
    | R_ColumnSetting_identityByDefault, _ => obj [("identityGeneration", JS "by default")]
    | R_ColumnSetting_generatedStored, [_; _; _; expr; _] =>
        obj [("generatedExpression", JS (slice1m1 (src expr))); ("generatedStored", JBool true)]
    | R_ColumnSetting_check, [_; expr] => obj [("check", JS (slice1m1 (src expr)))]
    | R_ColumnDefault, [_; _; value] => let* v := toAST s value in obj [("default", v)]
    | R_ColumnNote, [_; _; value] => let* v := toAST s value in obj [("note", v)]
    | R_ColumnRef, [_; _; type; endpoint] =>
        let* t := toAST s type in let* e := toAST s endpoint in
        obj [("ref", JObj [("type", t); ("to", e)])]
    | R_DefaultValue_expression, [expr] =>
        obj [("type", JS "expression"); ("value", JS (slice1m1 (src expr)))]
    | R_DefaultValue_literal, [value] => toAST s value
    (* ===== Indexes ===== *)
    | R_Indexes, [_; _; CIter _ _ indexes; _] =>
        let* xs := values indexes in obj [("type", JS "indexes"); ("indexes", JArr xs)]
    | R_Index_composite, [_; CNode R_ListOf _ _ columns; _; settings] =>
        let* cs := values columns in
        let index := JObj [("columns", JArr cs)] in
        if present settings
        then let* st := toAST s settings in st_ret (assign index (idx0 st))
        else st_ret index
    | R_Index_single, [column; settings] =>
        let* c := toAST s column in
        let index := JObj [("columns", JArr [JObj [("name", c)]])] in
        if present settings
        then let* st := toAST s settings in st_ret (assign index (idx0 st))
        else st_ret index
    | R_IndexColumn, [name; sortOrder] =>
        let* nm := toAST s name in
        let column := JObj [("name", nm)] in
        if present sortOrder
        then let* so := toAST s sortOrder in st_ret (set column "sort" (idx0 so))
        else st_ret column
    | R_SortOrder_asc, _ => st_ret (JS "asc")
    | R_SortOrder_desc, _ => st_ret (JS "desc")
    | R_IndexSettings, [_; CNode R_ListOf _ _ settings; _] => assign_each settings
    | R_IndexType, [_; _; typeName] => let* t := toAST s typeName in obj [("type", t)]
    | R_IndexName, [_; _; value] => let* v := toAST s value in obj [("name", v)]
    | R_IndexWhere, [_; _; value] => let* v := toAST s value in obj [("where", v)]
    | R_IndexSetting_pk, _ => obj [("pk", JBool true)]
    | R_IndexSetting_unique, _ => obj [("unique", JBool true)]
    | R_IndexTypeName_btree, _ => st_ret (JS "btree")
    | R_IndexTypeName_hash, _ => st_ret (JS "hash")
    | R_IndexTypeName_gin, _ => st_ret (JS "gin")
    | R_IndexTypeName_gist, _ => st_ret (JS "gist")
    | R_IndexTypeName_spgist, _ => st_ret (JS "spgist")
    | R_IndexTypeName_brin, _ => st_ret (JS "brin")
    | R_IndexTypeName_custom, [type] => st_ret (JS (str_map low (src type)))
    (* ===== Constraints ===== *)
    | R_Constraints, [_; _; CIter _ _ constraints; _] =>
        let* xs := values constraints in obj [("type", JS "constraints"); ("constraints", JArr xs)]
    | R_Constraint, [name; type; settings] =>
        let* constraint := toAST s type in
        let* constraint := if present name
                           then let* nm := toAST s name in st_ret (set constraint "name" (idx0 nm))
                           else st_ret constraint in
        if present settings
        then let* st := toAST s settings in st_ret (assign constraint (idx0 st))
        else st_ret constraint
    | R_ConstraintName, [_; name] => toAST s name
    | R_ConstraintType_check, [_; expr] =>
        obj [("type", JS "check"); ("expression", JS (slice1m1 (src expr)))]
    | R_ConstraintType_unique, [_; _; CNode R_ListOf _ _ columns; _] =>
        let* cs := values columns in obj [("type", JS "unique"); ("columns", JArr cs)]
    | R_ConstraintType_primaryKey, [_; _; _; CNode R_ListOf _ _ columns; _] =>
        let* cs := values columns in obj [("type", JS "primary_key"); ("columns", JArr cs)]
    | R_ConstraintType_exclude, [_; _; method; _; column; _; operator; _] =>
        let* m := toAST s method in let* c := toAST s column in
        obj [("type", JS "exclude"); ("using", m); ("columns", JArr [c]);
             ("withOperator", JS (src operator))]
    | R_ExcludeOperator, [op] => st_ret (JS (src op))
    | R_ConstraintSettings, [_; CNode R_ListOf _ _ settings; _] => assign_each settings
    | R_ConstraintSetting_deferrable, _ => obj [("deferrable", JBool true)]
    | R_ConstraintSetting_notDeferrable, _ => obj [("deferrable", JBool false)]
    | R_ConstraintSetting_initiallyDeferred, _ => obj [("initiallyDeferred", JBool true)]
    | R_ConstraintSetting_initiallyImmediate, _ => obj [("initiallyDeferred", JBool false)]
    (* ===== References ===== *)
    | R_Ref, [_; name; _; from; refType; to; settings] =>
        let* f := toAST s from in let* t := toAST s to in let* rt := toAST s refType in
        let result := JObj [("type", JS "ref"); ("from", f); ("to", t); ("refType", rt)] in
        let* result := if present name
                       then let* nm := toAST s name in st_ret (set result "name" (idx0 nm))
                       else st_ret result in
        if present settings
        then let* st := toAST s settings in st_ret (assign result (idx0 st))
        else st_ret result
    | R_RefEndpoint_compositeQualified, [schema; _; table; _; _; CNode R_ListOf _ _ columns; _] =>
        let* sc := toAST s schema in let* tb := toAST s table in let* cs := values columns in
        obj [("schema", sc); ("table", tb); ("columns", JArr cs)]
    | R_RefEndpoint_composite, [table; _; _; CNode R_ListOf _ _ columns; _] =>
        let* tb := toAST s table in let* cs := values columns in
        obj [("table", tb); ("columns", JArr cs)]
    | R_RefEndpoint_simpleQualified, [schema; _; table; _; column] =>
        let* sc := toAST s schema in let* tb := toAST s table in let* c := toAST s column in
        obj [("schema", sc); ("table", tb); ("column", c)]
    | R_RefEndpoint_simple, [table; _; column] =>
        let* tb := toAST s table in let* c := toAST s column in obj [("table", tb); ("column", c)]
    | R_RefType_many, _ => st_ret (JS "<>")
    | R_RefType_to, _ => st_ret (JS ">")
    | R_RefType_from, _ => st_ret (JS "<")
    | R_RefType_one, _ => st_ret (JS "-")
    | R_RefSettings, [_; CNode R_ListOf _ _ settings; _] => assign_each settings
    | R_RefSetting_delete, [setting] => toAST s setting
    | R_RefSetting_update, [setting] => toAST s setting
    | R_RefOnDelete, [_; _; action] => let* a := toAST s action in obj [("onDelete", a)]
    | R_RefOnUpdate, [_; _; action] => let* a := toAST s action in obj [("onUpdate", a)]
    | R_RefAction_cascade, _ => st_ret (JS "cascade")
    | R_RefAction_restrict, _ => st_ret (JS "restrict")
    | R_RefAction_setNull, _ => st_ret (JS "set null")
    | R_RefAction_setDefault, _ => st_ret (JS "set default")
    | R_RefAction_noAction, _ => st_ret (JS "no action")
    (* ===== Enums, Table Groups, Notes ===== *)
    | R_Enum, [_; name; _; CIter _ _ vals; _] =>
        let* nm := toAST s name in let* vs := values vals in
        obj [("type", JS "enum"); ("name", nm); ("values", JArr vs)]
    | R_EnumValue, [name; note] =>
        let* nm := toAST s name in
        let value := JObj [("name", nm)] in
        if present note
        then let* nt := toAST s note in st_ret (set value "note" (idx0 nt))
        else st_ret value
    | R_EnumValueNote, [_; _; _; value; _] => toAST s value
    | R_TableGroup, [_; name; _; CIter _ _ tables; _] =>
        let* nm := toAST s name in let* ts := values tables in
        obj [("type", JS "tableGroup"); ("name", nm); ("tables", JArr ts)]
    | R_Note, [_; _; value] => let* v := toAST s value in obj [("type", JS "note"); ("value", v)]
    | R_HeaderColor, [_; _; value] =>
        let* v := if starts_with_hash (src value) then st_ret (JS (src value)) else toAST s value in
        obj [("type", JS "headerColor"); ("value", v)]
    | R_HexColor, _ => st_ret (JS (src n))
    (* ===== Values ===== *)
    | R_tripleString, [_; chars; _] => st_ret (JS (src chars))
    | R_doubleString, [_; CIter _ _ chars; _] => let* xs := values chars in st_ret (JS (join_strs xs))
    | R_doubleStringChar_escape, [_; char] => st_ret (JS (unescape c_dq (src char)))
    | R_doubleStringChar_normal, [char] => st_ret (JS (src char))
    | R_singleString, [_; CIter _ _ chars; _] => let* xs := values chars in st_ret (JS (join_strs xs))
    | R_singleStringChar_escape, [_; char] => st_ret (JS (unescape c_sq (src char)))
    | R_singleStringChar_normal, [char] => st_ret (JS (src char))
    | R_backtickString, [_; chars; _] => st_ret (JS (src chars))
    | R_number, _ => st_ret (JNum (src n))
    | R_boolean_true, _ => st_ret (JBool true)
    | R_boolean_false, _ => st_ret (JBool false)
    | R_identifier, [name] => toAST s name
    | R_quotedIdentifier, [_; chars; _] => st_ret (JS (src chars))
    | R_identifierName, _ => st_ret (JS (src n))
    | R_newline_lf, _ => st_ret (JS (str1 c_nl))
    | R_newline_cr, _ => st_ret (JS (str1 c_cr))
    | R_newline_crlf, _ => st_ret (JS (String c_cr (str1 c_nl)))
    (* Ohm's default action: a node of one child is that child *)
    | _, [child] => toAST s child
    (* a rule of several children with no action has none: Ohm throws
       "Missing semantic action"; no such node is ever built here *)
    | _, _ => st_ret JUndef
    end
  end.

(** ** Parser and ParseError (parser.ts) *)

(** The properties of [Object.prototype], seen by a lookup [o[k]] on a
    plain object [o] that has no own property [k]. *)
Definition object_prototype_names : list string :=
  ["constructor"; "__defineGetter__"; "__defineSetter__"; "hasOwnProperty";
   "__lookupGetter__"; "__lookupSetter__"; "isPrototypeOf"; "propertyIsEnumerable";
   "toString"; "valueOf"; "toLocaleString"].

(** [o[k]] on a plain object with own properties [ps]. *)
Definition plain_lookup (ps : list (string * jv)) (k : string) : jv :=
  if phas ps k then pget ps k
  else if String.eqb k "__proto__" then JNative "Object.prototype"
  else if existsb (String.eqb k) object_prototype_names then JNative k
  else JUndef.

(** The [Parser] instance: its [typeMappings] object. *)
Record Parser : Type := { typeMappings : list (string * jv) }.

(** [new Parser({ typeMappings })]: the defaults overlaid by the caller's
    entries. *)
Definition new_Parser (user : list (string * string)) : Parser :=
  {| typeMappings :=
       passign [("kinstant", JS "timestamp with time zone"); ("kjson", JS "jsonb")]
               (map (fun kv => (fst kv, JS (snd kv))) user) |}.

(** [String(v)]: the property key of a computed member access [o[v]]. *)
Definition to_key (v : jv) : string :=
  match v with
  | JStr s => s
  | JUndef => "undefined"
  | JNull => "null"
  | JBool b => if b then "true" else "false"
  | JNum lit => lit
  | _ => "[object Object]"
  end.

(** [mapType(type) { return this.typeMappings[type] || type; }] *)
Definition mapType (P : Parser) (type : jv) : jv :=
  jor (plain_lookup (typeMappings P) (to_key type)) type.

(** The rightmost failure of a failed match and Ohm's [match.message]. *)
Record ohm_failure : Type := { fail_input : string; fail_pos : nat; fail_expected : list string }.

Fixpoint join_sep (sep : string) (xs : list string) : string :=
  match xs with
  | [] => EmptyString
  | [x] => x
  | x :: xs' => x ++ sep ++ join_sep sep xs'
  end.

Definition ohm_message (m : ohm_failure) : string :=
  "Expected " ++ join_sep ", " (fail_expected m).

(** [source.split("\n")] *)
Fixpoint split_nl (s : string) : list string :=
  match s with
  | EmptyString => [EmptyString]
  | String c s' =>
      if Ascii.eqb c c_nl then EmptyString :: split_nl s'
      else match split_nl s' with
           | l :: ls => String c l :: ls
           | [] => [str1 c]
           end
  end.

(** [source.slice(0, k)] *)
Definition slice0 (k : nat) (s : string) : string := substring 0 k s.

(** The fields of a [ParseError]. [expected] is [match.expected || []]:
    Ohm's MatchResult has no [expected] property. *)
Record ParseError : Type := {
  pe_message : string;
  pe_input : string;
  pe_line : nat;
  pe_column : nat;
  pe_expected : list string
}.

Definition new_ParseError (m : ohm_failure) : ParseError :=
  let lines := split_nl (slice0 (fail_pos m) (fail_input m)) in
  {| pe_message := ohm_message m;
     pe_input := fail_input m;
     pe_line := length lines;
     pe_column := String.length (last lines EmptyString) + 1;
     pe_expected := [] |}.

(** Decimal rendering of a number in a template literal. *)
Fixpoint digits_aux (fuel n : nat) (acc : string) : string :=
  match fuel with
  | 0 => acc
  | S fuel' =>
      let acc' := String (ascii_of_nat (48 + n mod 10)) acc in
      if n <? 10 then acc' else digits_aux fuel' (n / 10) acc'
  end.
Definition nat_to_string (n : nat) : string := digits_aux (S n) n EmptyString.

Fixpoint repeat_str (t : string) (k : nat) : string :=
  match k with 0 => EmptyString | S k' => t ++ repeat_str t k' end.

(** [getFormattedMessage()] *)
Definition getFormattedMessage (e : ParseError) : string :=
  let lines := split_nl (pe_input e) in
  let errorLine := match nth_error lines (pe_line e - 1) with
                   | Some l => l | None => "undefined" end in
  let pointer := repeat_str " " (pe_column e - 1) ++ "^" in
  pe_message e ++ str1 c_nl ++ str1 c_nl ++ "Line " ++ nat_to_string (pe_line e) ++ ", column "
    ++ nat_to_string (pe_column e) ++ ":" ++ str1 c_nl ++ errorLine ++ str1 c_nl ++ pointer.

(** [grammar.match(dbml, startRule)] with Ohm's default start rule, the
    grammar's first rule [Schema]. *)
Definition ohm_match (dbml : string) (startRule : option rule) : match_result :=
  grammar_match dbml (match startRule with Some r => r | None => R_Schema end).

(** What a call of [parse] does: return the document (with the heap of
    the shared column objects), throw the [ParseError], or throw a
    [TypeError] of the runtime.  [PAbort] is the engine running out of
    its depth bound. *)
Inductive parse_outcome : Type :=
| PDoc (doc : jv) (h : heap)
| PParseError (e : ParseError)
| PTypeError
| PAbort.

Definition heap_update (h : heap) (l : nat) (v : jv) : heap :=
  (firstn l h ++ v :: skipn (S l) h)%list.

(** One [column] of [for (const column of table.columns)]:
    [column.type = this.mapType(column.dataType || column.type);
     delete column.dataType;]. [None] is a thrown TypeError (a property
    assignment on a primitive, or a property read of undefined). *)
Definition map_column (P : Parser) (h : heap) (column : jv) : option heap :=
  match column with
  | JRef l =>
      match nth_error h l with
      | Some (JObj ps) =>
          let t := mapType P (jor (pget ps "dataType") (pget ps "type")) in
          Some (heap_update h l (JObj (pdel (pset ps "type" t) "dataType")))
      | _ => Some h
      end
  | JUndef | JNull | JBool _ | JNum _ | JStr _ => None
  | _ => Some h
  end.

(** [for (const x of v)]: the iterated values, or [None] if [v] is not
    iterable (only arrays and strings are). *)
Definition js_iter (v : jv) : option (list jv) :=
  match v with
  | JArr xs => Some xs
  | JStr s => Some (map (fun c => JS (str1 c)) (list_ascii_of_string s))
  | _ => None
  end.

Fixpoint map_columns (P : Parser) (h : heap) (cols : list jv) : option heap :=
  match cols with
  | [] => Some h
  | c :: cs => match map_column P h c with Some h' => map_columns P h' cs | None => None end
  end.

(** [table.columns] for an element of [ast.tables]: a read of a property
    of [undefined] or [null] throws. *)
Definition table_columns (table : jv) : option jv :=
  match table with
  | JUndef | JNull => None
  | _ => Some (get table "columns")
  end.

Fixpoint map_tables (P : Parser) (h : heap) (tables : list jv) : option heap :=
  match tables with
  | [] => Some h
  | t :: ts =>
      match table_columns t with
      | Some cv =>
          match js_iter cv with
          | Some cols => match map_columns P h cols with
                         | Some h' => map_tables P h' ts
                         | None => None
                         end
          | None => None
          end
      | None => None
      end
  end.

(** [parse(dbml, options)] *)
Definition parse (P : Parser) (dbml : string) (startRule : option rule) : parse_outcome :=
  match ohm_match dbml startRule with
  | MatchAbort => PAbort
  | MatchFail pos expected =>
      PParseError (new_ParseError {| fail_input := dbml; fail_pos := pos; fail_expected := expected |})
  | MatchOk root =>
      let (ast, h) := toAST dbml root [] in
      if truthy (get ast "tables") then
        match js_iter (get ast "tables") with
        | Some tables => match map_tables P h tables with
                         | Some h' => PDoc ast h'
                         | None => PTypeError
                         end
        | None => PTypeError
        end
      else PDoc ast h
  end.

(** [validate(dbml)]: [VAbort] stands for the engine running out of its
    depth bound. *)
Inductive validate_result : Type :=
| Valid
| Invalid (error : string)
| VAbort.

Definition validate (P : Parser) (dbml : string) : validate_result :=
  match grammar_match dbml R_Schema with
  | MatchOk _ => Valid
  | MatchFail pos expected =>
      Invalid (ohm_message {| fail_input := dbml; fail_pos := pos; fail_expected := expected |})
  | MatchAbort => VAbort
  end.

(** ** Views used to state the properties *)

(** The value a reference points to. *)
Definition deref (h : heap) (v : jv) : jv :=
  match v with JRef l => nth l h JUndef | _ => v end.

(** A table body element that is a column, resp. a partial reference. *)
Definition is_column_element (e : jv) : bool := truthy e && jstr_is (get e "type") "column".
Definition is_partial_element (e : jv) : bool :=
  truthy e && negb (jstr_is (get e "type") "column") && jstr_is (get e "type") "partialReference".

(** An entry of a Table's [elements] tagged Column. *)
Definition is_column_entry (x : jv) : bool := jstr_is (get x "type") "column".

(** [x] is the entry of [elements] for the body element [e]. *)
Definition entry_for (h : heap) (x e : jv) : Prop :=
  (is_column_element e = true /\ get x "type" = JS "column" /\ deref h (get x "column") = column_of e)
  \/ (is_partial_element e = true /\ get x "type" = JS "partialRef"
      /\ get (get x "ref") "name" = nullish (get e "name") (JS EmptyString)).

(** Successful matches, as a relation: [fitsP s syn e pos bs p] says that
    [e] can match [s] from [pos] to [p] with bindings [bs] (every rule
    application inside matching its rule's body).  [skips syn pos q]: the
    spaces skipped before a token, none in a lexical context. *)
Definition skips (syn : bool) (pos q : nat) : Prop := if syn then pos <= q else q = pos.

Inductive fitsP (s : string) : bool -> expr -> nat -> list cst -> nat -> Prop :=
| F_term syn t pos q :
    skips syn pos q -> match_at false t s q = true ->
    fitsP s syn (ETerm t) pos [CTerm q (String.length t)] (q + String.length t)
| F_ci syn t pos q :
    skips syn pos q -> match_at true t s q = true ->
    fitsP s syn (ECI t) pos [CTerm q (String.length t)] (q + String.length t)
| F_range syn lo hi pos q :
    skips syn pos q -> char_test (in_rng (nat_of_ascii lo) (nat_of_ascii hi)) s q = true ->
    fitsP s syn (ERange lo hi) pos [CTerm q 1] (S q)
| F_class syn k pos q :
    skips syn pos q -> char_test (cls_test k) s q = true ->
    fitsP s syn (EClass k) pos [CTerm q 1] (S q)
| F_end syn pos q :
    skips syn pos q -> q = String.length s -> fitsP s syn EEnd pos [] q
| F_app syn r pos q bs p :
    skips syn pos q -> fitsP s (is_syntactic r) (rule_body r) q bs p ->
    fitsP s syn (EApp r) pos [CNode r q (p - q) bs] p
| F_seq_nil syn pos : fitsP s syn (ESeq []) pos [] pos
| F_seq_cons syn e es pos bs p1 bss p :
    fitsP s syn e pos bs p1 -> fitsP s syn (ESeq es) p1 bss p ->
    fitsP s syn (ESeq (e :: es)) pos (bs ++ bss)%list p
| F_alt syn e es pos bs p :
    In e es -> fitsP s syn e pos bs p -> fitsP s syn (EAlt es) pos bs p
| F_star syn e pos rows q :
    rows_fit s syn e pos rows q ->
    fitsP s syn (EStar e) pos (iter_nodes (arity e) pos (q - pos) rows) q
| F_plus syn e pos rows q :
    rows <> [] -> rows_fit s syn e pos rows q ->
    fitsP s syn (EPlus e) pos (iter_nodes (arity e) pos (q - pos) rows) q
| F_opt_some syn e pos bs p :
    fitsP s syn e pos bs p -> fitsP s syn (EOpt e) pos (iter_nodes (arity e) pos (p - pos) [bs]) p
| F_opt_none syn e pos : fitsP s syn (EOpt e) pos (iter_nodes (arity e) pos 0 []) pos
| F_not syn e pos : fitsP s syn (ENot e) pos [] pos
| F_list syn e sep pos q bs1 p1 els r :
    skips syn pos q -> fitsP s true e q bs1 p1 -> list_fit s e sep p1 els r ->
    fitsP s syn (EListOf e sep) pos [CNode R_ListOf q (r - q) (bs1 ++ els)%list] r
| F_list_empty syn e sep pos q :
    skips syn pos q -> fitsP s syn (EListOf e sep) pos [CNode R_ListOf q 0 []] q
with rows_fit (s : string) : bool -> expr -> nat -> list (list cst) -> nat -> Prop :=
| FR_nil syn e pos : rows_fit s syn e pos [] pos
| FR_cons syn e pos bs p rows q :
    fitsP s syn e pos bs p -> rows_fit s syn e p rows q -> rows_fit s syn e pos (bs :: rows) q
with list_fit (s : string) : expr -> expr -> nat -> list cst -> nat -> Prop :=
| FL_nil e sep p : list_fit s e sep p [] p
| FL_cons e sep p sb ps bs p' els r :
    fitsP s true sep p sb ps -> fitsP s true e ps bs p' -> list_fit s e sep p' els r ->
    list_fit s e sep p (bs ++ els)%list r.

(** [n] is a node of the tree [t]. *)
Inductive node_of (n : cst) : cst -> Prop :=
| NO_self : node_of n n
| NO_node r st ln kids k : In k kids -> node_of n k -> node_of n (CNode r st ln kids)
| NO_iter st ln kids k : In k kids -> node_of n k -> node_of n (CIter st ln kids).

Definition node_ok (s : string) (n : cst) : Prop :=
  match n with
  | CNode r q ln kids => r = R_ListOf \/ fitsP s (is_syntactic r) (rule_body r) q kids (q + ln)
  | _ => True
  end.

Definition jhas (o : jv) (k : string) : bool :=
  match o with JObj ps => phas ps k | _ => false end.

(** A node applying rule [r] whose children match the body of [r]. *)
Definition app_node (s : string) (r : rule) (x : cst) : Prop :=
  exists q ln kids, x = CNode r q ln kids /\ fitsP s (is_syntactic r) (rule_body r) q kids (q + ln).

Definition last_setting_value (k : string) (vs : list jv) : jv :=
  fold_left (fun acc v => if jhas v k then get v k else acc) vs JUndef.

Definition not_null_setting (n : cst) : option bool :=
  match n with
  | CNode R_ColumnSetting _ _ [CNode R_ColumnSetting_notNull _ _ _] => Some true
  | CNode R_ColumnSetting _ _ [CNode R_ColumnSetting_null _ _ _] => Some false
  | _ => None
  end.

Definition spec_not_null (items : list cst) : option bool :=
  fold_left (fun acc it => match not_null_setting it with Some b => Some b | None => acc end) items None.

Definition nodup_obj (v : jv) : Prop := exists ps, v = JObj ps /\ NoDup (map fst ps).

Definition doc_column (o : parse_outcome) (i j : nat) : jv :=
  match o with
  | PDoc d h =>
      match get d "tables" with
      | JArr ts =>
          match nth_error ts i with
          | Some t => match get t "columns" with
                      | JArr cs => match nth_error cs j with Some c => deref h c | None => JUndef end
                      | _ => JUndef
                      end
          | None => JUndef
          end
      | _ => JUndef
      end
  | _ => JUndef
  end.

Definition is_literal (d : jv) : Prop :=
  match d with JStr _ | JNum _ | JBool _ => True | _ => False end.

Definition escape_spec (quote c : ascii) : string :=
  if Ascii.eqb c quote then str1 quote
  else if Ascii.eqb c c_bs then str1 c_bs
  else if Ascii.eqb c "n"%char then str1 c_nl
  else if Ascii.eqb c "r"%char then str1 c_cr
  else if Ascii.eqb c "t"%char then str1 c_tab
  else str1 c.

Definition col_cell (v : jv) : Prop := exists ps, v = JObj ps /\ phas ps "dataType" = false.

Definition preserves {A : Type} (m : St A) : Prop :=
  forall h, Forall col_cell h -> Forall col_cell (snd (m h)).

Definition table_col_ref (d : jv) (l : nat) : Prop :=
  exists ts t cols, js_iter (get d "tables") = Some ts /\ In t ts /\
    js_iter (get t "columns") = Some cols /\ In (JRef l) cols.

Definition cell_rel (R : nat -> Prop) (h h' : heap) : Prop :=
  length h' = length h /\
  forall l, nth_error h' l = nth_error h l \/
            (R l /\ exists ps t, nth_error h l = Some (JObj ps) /\
                                 nth_error h' l = Some (JObj (pset ps "type" t))).

Fixpoint ref_free (v : jv) : bool :=
  match v with
  | JRef _ => false
  | JArr xs => (fix all (xs : list jv) : bool :=
                  match xs with [] => true | x :: xs' => ref_free x && all xs' end) xs
  | JObj ps => (fix allp (ps : list (string * jv)) : bool :=
                  match ps with [] => true | (_, x) :: ps' => ref_free x && allp ps' end) ps
  | _ => true
  end.

Class RFree (A : Type) := rfree : A -> Prop.

#[local] Instance rfree_jv : RFree jv := fun v => ref_free v = true.
#[local] Instance rfree_list : RFree (list jv) := fun xs => Forall (fun v => ref_free v = true) xs.
#[local] Instance rfree_opt : RFree (option jv) :=
  fun o => match o with Some v => ref_free v = true | None => True end.

Definition pure_st {A : Type} `{RFree A} (m : St A) : Prop :=
  forall h, snd (m h) = h /\ rfree (fst (m h)).

Definition not_table (n : cst) : Prop :=
  match n with CNode R_Table _ _ _ => False | _ => True end.

(** No node of the tree is a [Table] node. *)
Definition table_free (n : cst) : Prop := forall m, node_of m n -> not_table m.

(** The rules an expression applies. *)
Fixpoint rules_of (e : expr) : list rule :=
  match e with
  | EApp r => [r]
  | ESeq es | EAlt es => (fix go (es : list expr) : list rule :=
                            match es with [] => [] | e1 :: es' => (rules_of e1 ++ go es')%list end) es
  | EStar e1 | EPlus e1 | EOpt e1 | ENot e1 => rules_of e1
  | EListOf e1 sep => (rules_of e1 ++ rules_of sep)%list
  | _ => []
  end.

(** The rules below the top level: neither [Schema], [Element] nor [Table]. *)
Definition rule_ok (r : rule) : bool :=
  match r with R_Schema | R_Element | R_Table | R_ListOf => false | _ => true end.

#[warnings="-register-all"]
Inductive ok_tree : cst -> Prop :=
| OT_term st ln : ok_tree (CTerm st ln)
| OT_iter st ln kids : Forall ok_tree kids -> ok_tree (CIter st ln kids)
| OT_list st ln kids : Forall ok_tree kids -> ok_tree (CNode R_ListOf st ln kids)
| OT_node r st ln kids : rule_ok r = true -> ok_tree (CNode r st ln kids).

(** What the Schema action may put into [partials]. *)
Definition partial_candidate (a : jv) : Prop :=
  jstr_is (get a "type") "tablePartial" = true -> ref_free a = true.

Definition partials_ok (sc : jv) : Prop :=
  forall ps, get sc "partials" = JArr ps -> Forall (fun p => ref_free p = true) ps.

Fixpoint newline_count (s : string) : nat :=
  match s with
  | EmptyString => 0
  | String c s' => (if Ascii.eqb c c_nl then 1 else 0) + newline_count s'
  end.

(** ** Nodes of a concrete parse tree *)

(** The nodes of a tree, in pre-order. *)
Fixpoint subtrees (t : cst) : list cst :=
  t :: match t with
       | CTerm _ _ => []
       | CNode _ _ _ kids | CIter _ _ kids => flat_map subtrees kids
       end.

Definition cst_kids (t : cst) : list cst :=
  match t with CTerm _ _ => [] | CNode _ _ _ kids | CIter _ _ kids => kids end.

(** The tree [Schema] matches on [s], and its [i]-th node. *)
Definition w_root (s : string) : cst :=
  match grammar_match s R_Schema with MatchOk r => r | _ => CTerm 0 0 end.
Definition w_node (s : string) (i : nat) : cst := nth i (subtrees (w_root s)) (CTerm 0 0).

(** A document with settings, notes in the three quoted forms and a default. *)
Definition w_src : string :=
  "Table t { a text [note: 'x\ny', null, not null] b text [note: " ++ str1 c_dq ++ "p\q" ++ str1 c_dq
  ++ ", default: `now()`] c text [note: '''z'''] }".

(** ** Views used to state properties of the code *)

(** The keys a Table body element can write: every other key of the
    result is fixed before the body is read. *)
Definition table_body_key (k : string) : bool :=
  existsb (String.eqb k) ["columns"; "elements"; "indexes"; "constraints"; "note"; "headerColor"].

(** The value of the last element of [es] whose [type] is [ty], read
    with [f]; [d] when there is none. *)
Definition last_of (ty : string) (f : jv -> jv) (es : list jv) (d : jv) : jv :=
  fold_left (fun acc e => if jstr_is (get e "type") ty then f e else acc) es d.

(** What the Table and TablePartial actions store for a body element of
    type [indexes], [constraints], [note] or [headerColor]. *)
Definition setting_value (ty : string) (e : jv) : jv :=
  if String.eqb ty "indexes" then nullish (get e "indexes") (JArr [])
  else if String.eqb ty "constraints" then get e "constraints"
  else get e "value".

(** The value of the last project property whose key is [k]; [d] when
    there is none. *)
Definition last_prop (k : string) (props : list jv) (d : jv) : jv :=
  fold_left (fun acc p => if jstr_is (get p "key") k then get p "value" else acc) props d.

(** An element AST whose [type] is the string [t]. *)
Definition ast_type_is (t : string) (a : jv) : bool :=
  match a with JObj ps => jstr_is (pget ps "type") t | _ => false end.

(** The object the Schema action builds, by its seven fields. *)
Definition schema_obj (nm : jv) (tables refs enums groups : list jv) (project : jv) (partials : list jv) : jv :=
  JObj [("name", nm); ("tables", JArr tables); ("refs", JArr refs); ("enums", JArr enums);
        ("tableGroups", JArr groups); ("project", project); ("partials", JArr partials)].

(** The last project among [asts]; [d] when there is none. *)
Definition last_project (asts : list jv) (d : jv) : jv :=
  fold_left (fun acc a => if ast_type_is "project" a then a else acc) asts d.


(** The keys a column's settings may not override. *)
Definition column_key (k : string) : Prop := In k ["type"; "name"; "dataType"].

(** An outcome of the engine whose positions lie within an input of
    length [L]. *)
Definition out_bound (L : nat) (o : outcome) : Prop :=
  match o with
  | Ok _ p f => p <= L /\ fst f <= L
  | Fail f => fst f <= L
  | Abort => True
  end.

Definition gen_bound (L : nat) (g : nat -> finfo -> outcome) : Prop :=
  forall p f, p <= L -> fst f <= L -> out_bound L (g p f).

(** The heap cells a table's [columns] refer to, and those of all the
    document's tables. *)
Definition refidx (v : jv) : list nat := match v with JRef l => [l] | _ => [] end.

Definition cols_of (t : jv) : list jv := match js_iter (get t "columns") with Some c => c | None => [] end.

Definition col_refs (t : jv) : list nat := flat_map refidx (cols_of t).

Definition table_col_refs (d : jv) : list nat :=
  match js_iter (get d "tables") with Some ts => flat_map col_refs ts | None => [] end.

(** [h1] extends [h], and the columns of [a] are distinct cells
    allocated between the two. *)
Definition alloc_ok (h : heap) (a : jv) (h1 : heap) : Prop :=
  (exists ext, h1 = (h ++ ext)%list) /\ NoDup (col_refs a) /\
  forall l, In l (col_refs a) -> length h <= l < length h1.

(** * Proofs *)

Lemma cst_ind' (P : cst -> Prop)
  (Ht : forall st ln, P (CTerm st ln))
  (Hn : forall r st ln kids, Forall P kids -> P (CNode r st ln kids))
  (Hi : forall st ln kids, Forall P kids -> P (CIter st ln kids)) : forall n, P n.
Proof.
  fix IH 1. intros [st ln|r st ln kids|st ln kids].
  - apply Ht.
  - apply Hn. revert kids. fix IHl 1. intros [|k kids]; constructor; [apply IH | apply IHl].
  - apply Hi. revert kids. fix IHl 1. intros [|k kids]; constructor; [apply IH | apply IHl].
Qed.

Lemma subtrees_node_of t i n : nth_error (subtrees t) i = Some n -> node_of n t.
Proof.
  intros H. apply nth_error_In in H. revert H.
  induction t as [st ln|r st ln kids IH|st ln kids IH] using cst_ind'; simpl; intros [<-|H];
    try apply NO_self.
  - destruct H.
  - apply in_flat_map in H as [k [Hk Hn]]. rewrite Forall_forall in IH.
    exact (NO_node n r st ln kids k Hk (IH k Hk Hn)).
  - apply in_flat_map in H as [k [Hk Hn]]. rewrite Forall_forall in IH.
    exact (NO_iter n st ln kids k Hk (IH k Hk Hn)).
Qed.

(** ** Objects *)

Lemma pget_pset ps k v k' :
  pget (pset ps k v) k' = if String.eqb k' k then v else pget ps k'.
Proof.
  induction ps as [|[k0 v0] ps IH]; simpl.
  - destruct (String.eqb k' k); reflexivity.
  - destruct (String.eqb_spec k k0) as [E|Hne]; simpl.
    + subst k0. destruct (String.eqb k' k); reflexivity.
    + rewrite IH. destruct (String.eqb_spec k' k) as [E|]; [|reflexivity].
      subst k'. destruct (String.eqb_spec k k0); [contradiction|reflexivity].
Qed.

Lemma get_set o k v k' :
  (exists ps, o = JObj ps) ->
  get (set o k v) k' = if String.eqb k' k then v else get o k'.
Proof. intros [ps ->]. simpl. apply pget_pset. Qed.

Lemma get_push o k v xs k' :
  get o k = JArr xs ->
  get (push o k v) k' = if String.eqb k' k then JArr (xs ++ [v]) else get o k'.
Proof.
  intros H. unfold push. rewrite H. destruct o; try discriminate. apply (get_set (JObj props)). eauto.
Qed.

Lemma set_is_obj o k v : (exists ps, o = JObj ps) -> exists ps, set o k v = JObj ps.
Proof. intros [ps ->]. simpl. eauto. Qed.

Lemma push_is_obj o k v : (exists ps, o = JObj ps) -> exists ps, push o k v = JObj ps.
Proof.
  intros [ps ->]. unfold push. destruct (get (JObj ps) k); simpl; eauto.
Qed.

Lemma jstr_is_eq v t : jstr_is v t = true -> v = JS t.
Proof. destruct v; simpl; try discriminate. intros H. apply String.eqb_eq in H. now subst. Qed.

Lemma jstr_is_JS t u : jstr_is (JS t) u = String.eqb t u.
Proof. reflexivity. Qed.

Ltac jstr_excl :=
  repeat match goal with
  | H : jstr_is ?v _ = true |- _ => apply jstr_is_eq in H; subst v
  end; simpl in *; try reflexivity; try discriminate.

(** ** The heap only grows *)

Lemma st_fold_table_step_heap es r h v h' :
  st_fold table_step es r h = (v, h') -> exists ext, h' = (h ++ ext)%list.
Proof.
  revert r h. induction es as [|e es IH]; intros r h E; simpl in E.
  - inversion E. exists []. now rewrite app_nil_r.
  - unfold st_bind in E.
    destruct (table_step r e h) as [r1 h1] eqn:E1.
    apply IH in E. destruct E as [ext2 ->].
    assert (exists ext1, h1 = (h ++ ext1)%list) as [ext1 ->].
    { unfold table_step in E1.
      destruct (negb (truthy e)); [inversion E1; exists []; now rewrite app_nil_r|].
      repeat match type of E1 with
             | (if ?c then _ else _) _ = _ => destruct c
             end;
        unfold st_ret, st_bind, alloc in E1; inversion E1; subst;
        first [exists [column_of e]; reflexivity | exists []; now rewrite app_nil_r]. }
    exists (ext1 ++ ext2)%list. now rewrite app_assoc.
Qed.

(** ** The Table action *)

Lemma column_of_obj e : exists ps, column_of e = JObj ps.
Proof. unfold column_of, rest_props. destruct e; simpl; eauto. Qed.

Lemma entry_for_ext h ext x e : entry_for h x e -> entry_for (h ++ ext)%list x e.
Proof.
  intros [(H1 & H2 & H3)|H]; [left|right; exact H].
  split; [exact H1|split; [exact H2|]].
  destruct (get x "column") as [| | | | | | |l|] eqn:Ec; simpl in *; try exact H3.
  destruct (column_of_obj e) as [ps Eps].
  destruct (Nat.lt_ge_cases l (length h)) as [Hl|Hl].
  - rewrite app_nth1 by exact Hl. exact H3.
  - rewrite nth_overflow in H3 by exact Hl. congruence.
Qed.

Lemma Forall2_entry_for_ext h ext els pre :
  Forall2 (entry_for h) els pre -> Forall2 (entry_for (h ++ ext)%list) els pre.
Proof. intros H. induction H; constructor; auto using entry_for_ext. Qed.

Lemma table_fold_inv es : forall r h v h' els0 pre,
  st_fold table_step es r h = (v, h') ->
  (exists ps, r = JObj ps) ->
  get r "elements" = JArr els0 ->
  get r "columns" = JArr (map (fun x => get x "column") (filter is_column_entry els0)) ->
  Forall2 (entry_for h) els0 pre ->
  exists els, get v "elements" = JArr els
    /\ get v "columns" = JArr (map (fun x => get x "column") (filter is_column_entry els))
    /\ Forall2 (entry_for h') els
               (pre ++ filter (fun e => is_column_element e || is_partial_element e) es)%list.
Proof.
  induction es as [|e es IH]; intros r h v h' els0 pre E Hobj Hel Hcol Hf.
  - simpl in E. inversion E; subst. exists els0. rewrite app_nil_r. auto.
  - set (f := fun e => is_column_element e || is_partial_element e).
    replace (pre ++ filter f (e :: es))%list with ((pre ++ filter f [e]) ++ filter f es)%list
      by (simpl; destruct (f e); simpl; rewrite <- app_assoc; reflexivity).
    simpl in E. unfold st_bind in E.
    destruct (table_step r e h) as [r1 h1] eqn:E1.
    unfold table_step in E1.
    destruct (truthy e) eqn:Et; simpl in E1.
    2:{ inversion E1; subst. eapply IH; eauto. simpl. subst f.
        unfold is_column_element, is_partial_element. rewrite Et. simpl.
        rewrite app_nil_r. exact Hf. }
    destruct (jstr_is (get e "type") "column") eqn:Ecol.
    { (* a column: one new heap cell, pushed to [columns] and [elements] *)
      unfold st_bind, alloc, st_ret in E1. inversion E1; subst r1 h1. clear E1.
      set (col := JRef (length h)) in *.
      set (entry := JObj [("type", JS "column"); ("column", col)]) in *.
      assert (Hcol' : get (push r "columns" col) "columns"
                      = JArr (map (fun x => get x "column") (filter is_column_entry els0) ++ [col])%list).
      { erewrite get_push by exact Hcol. reflexivity. }
      assert (Hel' : get (push r "columns" col) "elements" = JArr els0).
      { erewrite get_push by exact Hcol.
        replace (String.eqb "elements" "columns") with false by reflexivity. exact Hel. }
      eapply IH with (els0 := (els0 ++ [entry])%list); [exact E| | | |].
      - apply push_is_obj, push_is_obj, Hobj.
      - erewrite get_push by exact Hel'. reflexivity.
      - erewrite get_push by exact Hel'.
        replace (String.eqb "columns" "elements") with false by reflexivity. rewrite Hcol'.
        rewrite filter_app, map_app. reflexivity.
      - subst f. simpl. unfold is_column_element at 1. rewrite Et, Ecol. simpl.
        apply Forall2_app.
        + apply Forall2_entry_for_ext. exact Hf.
        + constructor; [|constructor]. left. split; [unfold is_column_element; now rewrite Et, Ecol|].
          split; [reflexivity|]. simpl. rewrite app_nth2 by lia. rewrite Nat.sub_diag. reflexivity. }
    assert (Hfe : f e = jstr_is (get e "type") "partialReference").
    { subst f. unfold is_column_element, is_partial_element. now rewrite Et, Ecol. }
    assert (Hkeep : forall k v0, k <> "elements" -> k <> "columns" ->
              exists els, get (set r k v0) "elements" = JArr els
                /\ get (set r k v0) "columns"
                     = JArr (map (fun x => get x "column") (filter is_column_entry els))
                /\ Forall2 (entry_for h) els pre /\ exists ps, set r k v0 = JObj ps).
    { intros k v0 Hk1 Hk2. exists els0.
      rewrite !get_set by exact Hobj.
      destruct (String.eqb_spec "elements" k); [congruence|].
      destruct (String.eqb_spec "columns" k); [congruence|].
      split; [exact Hel|split; [exact Hcol|split; [exact Hf|apply set_is_obj, Hobj]]]. }
    simpl. rewrite Hfe.
    destruct (get e "type") as [| | | | t | | | |] eqn:Ety; simpl in E1, Ecol |- *;
      try (inversion E1; subst r1 h1; rewrite app_nil_r; eapply IH; eauto; fail).
    repeat match type of E1 with
           | (if ?c then _ else _) _ = _ => destruct c eqn:?
           end; unfold st_ret in E1; inversion E1; subst r1 h1; clear E1;
      repeat match goal with H : String.eqb _ _ = true |- _ => apply String.eqb_eq in H; subst t end;
      simpl in *; try discriminate.
    all: try (rewrite app_nil_r;
              match type of E with
              | context [set ?r0 ?k ?v0] =>
                  destruct (Hkeep k v0 ltac:(discriminate) ltac:(discriminate)) as (els1 & He1 & Hc1 & Hf1 & Ho1)
              end;
              eapply IH; eauto; fail).
    + (* a partial reference: pushed to [elements] only *)
      set (entry := JObj [("type", JS "partialRef");
                          ("ref", JObj [("name", nullish (get e "name") (JS EmptyString))])]) in *.
      eapply IH with (els0 := (els0 ++ [entry])%list); [exact E| | | |].
      * apply push_is_obj, Hobj.
      * erewrite get_push by exact Hel. reflexivity.
      * erewrite get_push by exact Hel.
        replace (String.eqb "columns" "elements") with false by reflexivity. rewrite Hcol.
        rewrite filter_app, map_app. simpl. rewrite app_nil_r. reflexivity.
      * apply Forall2_app; [exact Hf|].
        constructor; [|constructor]. right. split; [|split; reflexivity].
        unfold is_partial_element. rewrite Et, Ety. reflexivity.
    + rewrite app_nil_r. eapply IH; eauto.
Qed.

Lemma table_init_shape nameInfo aliasInfo :
  let r := match aliasInfo with
           | Some a => set (table_init nameInfo) "alias" (idx0 a)
           | None => table_init nameInfo end in
  (exists ps, r = JObj ps) /\ get r "elements" = JArr [] /\ get r "columns" = JArr [].
Proof.
  assert (H0 : (exists ps, table_init nameInfo = JObj ps)
               /\ get (table_init nameInfo) "elements" = JArr []
               /\ get (table_init nameInfo) "columns" = JArr []).
  { unfold table_init.
    destruct nameInfo; try (split; [eauto|split; reflexivity]).
    destruct (phas props "schema"); [|split; [eauto|split; reflexivity]].
    split; [apply set_is_obj; eauto|].
    rewrite !get_set by eauto. split; reflexivity. }
  destruct H0 as (Ho & He & Hc).
  destruct aliasInfo; simpl; [|auto].
  rewrite !get_set by exact Ho. split; [apply set_is_obj, Ho|split; assumption].
Qed.

(** C1: every Table built by the Table action has an [elements] list with
    exactly one tagged entry per column element and per partial reference
    [~name] of its body, in body order (a Column entry refers to the very
    object built for that column, a partialRef entry carries the referenced
    name), and its [columns] list is the sub-sequence of [elements] tagged
    Column: the same objects, in the same order.  The body
    [a col1 ~p b col2 ~q c col3] gives the five entries
    column a, partialRef p, column b, partialRef q, column c and the
    columns a, b, c. *)
Theorem Table_elements_columns :
  (forall nameInfo aliasInfo es h v h',
     Table_action nameInfo aliasInfo (JArr es) h = (v, h') ->
     exists els, get v "elements" = JArr els
       /\ get v "columns" = JArr (map (fun x => get x "column") (filter is_column_entry els))
       /\ Forall2 (entry_for h') els
                  (filter (fun e => is_column_element e || is_partial_element e) es))
  /\ parse (new_Parser []) "Table t { a col1 ~p b col2 ~q c col3 }" None
     = PDoc (JObj [("name", JS "database");
                   ("tables",
                    JArr [JObj [("type", JS "table"); ("name", JS "t");
                                ("columns", JArr [JRef 0; JRef 1; JRef 2]);
                                ("indexes", JArr []);
                                ("elements",
                                 JArr [JObj [("type", JS "column"); ("column", JRef 0)];
                                       JObj [("type", JS "partialRef"); ("ref", JObj [("name", JS "p")])];
                                       JObj [("type", JS "column"); ("column", JRef 1)];
                                       JObj [("type", JS "partialRef"); ("ref", JObj [("name", JS "q")])];
                                       JObj [("type", JS "column"); ("column", JRef 2)]])]]);
                   ("refs", JArr []); ("enums", JArr []); ("tableGroups", JArr []);
                   ("project", JUndef); ("partials", JArr [])])
            [JObj [("name", JS "a"); ("type", JS "col1")];
             JObj [("name", JS "b"); ("type", JS "col2")];
             JObj [("name", JS "c"); ("type", JS "col3")]].
Proof.
  split; [|vm_compute; reflexivity].
  intros nameInfo aliasInfo es h v h' E.
  unfold Table_action in E.
  destruct (table_init_shape nameInfo aliasInfo) as (Ho & He & Hc).
  eapply (table_fold_inv es _ h v h' [] []) in E; eauto.
Qed.

Lemma Table_elements_columns_witness :
  let nameInfo := JS "t" in let aliasInfo := @None jv in
  let es := [JObj [("type", JS "column"); ("name", JS "a"); ("dataType", JS "col1")];
             JObj [("type", JS "partialReference"); ("name", JS "p")];
             JObj [("type", JS "column"); ("name", JS "b"); ("dataType", JS "col2")]] in
  let h : heap := [] in
  let v := fst (Table_action nameInfo aliasInfo (JArr es) h) in
  let h' := snd (Table_action nameInfo aliasInfo (JArr es) h) in
  Table_action nameInfo aliasInfo (JArr es) h = (v, h') /\
  exists els, get v "elements" = JArr els
    /\ get v "columns" = JArr (map (fun x => get x "column") (filter is_column_entry els))
    /\ Forall2 (entry_for h') els
               (filter (fun e => is_column_element e || is_partial_element e) es).
Proof.
  intros nameInfo aliasInfo es h v h'.
  assert (H1 : Table_action nameInfo aliasInfo (JArr es) h = (v, h')) by apply surjective_pairing.
  split; [exact H1|].
  exact (proj1 Table_elements_columns nameInfo aliasInfo es h v h' H1).
Defined.

(** The text of C1's example, with [;] between the body's entries, is not
    DBML: the grammar has no [;] separator and the parse fails at the
    first [;]. *)
Lemma Table_semicolon_body_rejected :
  exists e, parse (new_Parser []) "Table t { a col1; ~p; b col2; ~q; c col3 }" None = PParseError e
            /\ pe_line e = 1 /\ pe_column e = 17.
Proof. eexists. vm_compute. split; [reflexivity|split; reflexivity]. Qed.

Scheme fitsP_mut := Induction for fitsP Sort Prop
with rows_fit_mut := Induction for rows_fit Sort Prop
with list_fit_mut := Induction for list_fit Sort Prop.

Lemma expr_ind' (P : expr -> Prop)
  (Hterm : forall t, P (ETerm t)) (Hci : forall t, P (ECI t))
  (Hrange : forall lo hi, P (ERange lo hi)) (Hclass : forall k, P (EClass k))
  (Hseq : forall es, Forall P es -> P (ESeq es)) (Halt : forall es, Forall P es -> P (EAlt es))
  (Hstar : forall e, P e -> P (EStar e)) (Hplus : forall e, P e -> P (EPlus e))
  (Hopt : forall e, P e -> P (EOpt e)) (Hnot : forall e, P e -> P (ENot e))
  (Happ : forall r, P (EApp r)) (Hlist : forall e sep, P e -> P sep -> P (EListOf e sep))
  (Hend : P EEnd) : forall e, P e.
Proof.
  fix IH 1. intros [t|t|lo hi|k|es|es|e|e|e|e|r|e sep|].
  - apply Hterm.
  - apply Hci.
  - apply Hrange.
  - apply Hclass.
  - apply Hseq. revert es. fix IHl 1. intros [|e es]; constructor; [apply IH | apply IHl].
  - apply Halt. revert es. fix IHl 1. intros [|e es]; constructor; [apply IH | apply IHl].
  - apply Hstar, IH.
  - apply Hplus, IH.
  - apply Hopt, IH.
  - apply Hnot, IH.
  - apply Happ.
  - apply Hlist; apply IH.
  - apply Hend.
Qed.

Section Soundness.
Variable s : string.

Lemma seq_eval_sound syn g es :
  Forall (fun e => forall pos f bs p f', g e pos f = Ok bs p f' -> fitsP s syn e pos bs p) es ->
  forall pos acc f bs p f', seq_eval g es pos acc f = Ok bs p f' ->
  exists bs2, bs = (acc ++ bs2)%list /\ fitsP s syn (ESeq es) pos bs2 p.
Proof.
  induction 1 as [|e es He Hes IH]; intros pos acc f bs p f' E; simpl in E.
  - injection E as <- <- _. exists []. rewrite app_nil_r. split; [reflexivity | constructor].
  - destruct (g e pos f) as [|f1|bs1 p1 f1] eqn:G; try discriminate.
    destruct (IH _ _ _ _ _ _ E) as [bs2 [-> Hf]]. exists (bs1 ++ bs2)%list.
    split; [now rewrite app_assoc | econstructor; eauto].
Qed.

Lemma alt_eval_sound syn g es :
  Forall (fun e => forall pos f bs p f', g e pos f = Ok bs p f' -> fitsP s syn e pos bs p) es ->
  forall pos f bs p f', alt_eval g es pos f = Ok bs p f' ->
  exists e, In e es /\ fitsP s syn e pos bs p.
Proof.
  induction 1 as [|e es He Hes IH]; intros pos f bs p f' E; simpl in E; [discriminate|].
  destruct (g e pos f) as [|f1|bs1 p1 f1] eqn:G; try discriminate.
  - destruct (IH _ _ _ _ _ E) as [e' [Hin Hf]]. exists e'. split; [right|]; assumption.
  - injection E as <- <- _. exists e. split; [left; reflexivity | eauto].
Qed.

Lemma star_loop_sound syn e g1 :
  (forall pos f bs p f', g1 pos f = Ok bs p f' -> fitsP s syn e pos bs p) ->
  forall k p f rows q f', star_loop g1 k p f = Some (rows, q, f') -> rows_fit s syn e p rows q.
Proof.
  intros Hg k. induction k as [|k IH]; intros p f rows q f' E; simpl in E; [discriminate|].
  destruct (g1 p f) as [|f1|bs p1 f1] eqn:G; try discriminate.
  - injection E as <- <- _. constructor.
  - destruct (p <? p1).
    + destruct (star_loop g1 k p1 f1) as [[[rows' q'] f'']|] eqn:E'; [|discriminate].
      injection E as <- <- _. econstructor; eauto.
    + injection E as <- <- _. constructor.
Qed.

Lemma list_loop_sound e sep gsep gel :
  (forall pos f bs p f', gsep pos f = Ok bs p f' -> fitsP s true sep pos bs p) ->
  (forall pos f bs p f', gel pos f = Ok bs p f' -> fitsP s true e pos bs p) ->
  forall k p f els r f', list_loop gsep gel k p f = Some (els, r, f') -> list_fit s e sep p els r.
Proof.
  intros Hs He k. induction k as [|k IH]; intros p f els r f' E; simpl in E; [discriminate|].
  destruct (gsep p f) as [|f1|sb ps fs] eqn:G; try discriminate.
  - injection E as <- <- _. constructor.
  - destruct (gel ps fs) as [|f2|bs p' f2] eqn:G2; try discriminate.
    + injection E as <- <- _. constructor.
    + destruct (p <? p').
      * destruct (list_loop gsep gel k p' f2) as [[[els' r'] f'']|] eqn:E'; [|discriminate].
        injection E as <- <- _. econstructor; eauto.
      * injection E as <- <- _. constructor.
Qed.

Lemma go_sound app skip :
  (forall r q f bs p f', app r q f = Ok bs p f' -> fitsP s (is_syntactic r) (rule_body r) q bs p) ->
  (forall syn p q, skip syn p = Some q -> skips syn p q) ->
  forall e syn pos f bs p f', go s app skip syn e pos f = Ok bs p f' -> fitsP s syn e pos bs p.
Proof.
  intros Happ Hskip e. induction e as [t|t|lo hi|k|es IH|es IH|e IH|e IH|e IH|e IH|r|e sep IH IHs|]
    using expr_ind'; intros syn pos f bs p f' E; cbn [go] in E.
  - destruct (skip syn pos) as [q|] eqn:Sk; [|discriminate].
    destruct (match_at false t s q) eqn:M; [|discriminate].
    injection E as <- <- _. constructor; auto.
  - destruct (skip syn pos) as [q|] eqn:Sk; [|discriminate].
    destruct (match_at true t s q) eqn:M; [|discriminate].
    injection E as <- <- _. constructor; auto.
  - destruct (skip syn pos) as [q|] eqn:Sk; [|discriminate].
    destruct (char_test _ s q) eqn:M; [|discriminate].
    injection E as <- <- _. constructor; auto.
  - destruct (skip syn pos) as [q|] eqn:Sk; [|discriminate].
    destruct (char_test _ s q) eqn:M; [|discriminate].
    injection E as <- <- _. constructor; auto.
  - assert (HF : Forall (fun e => forall pos f bs p f', go s app skip syn e pos f = Ok bs p f' ->
                                  fitsP s syn e pos bs p) es)
      by (eapply Forall_impl; [|exact IH]; intros e He; simpl; intros; eapply He; eauto).
    destruct (seq_eval_sound syn _ es HF _ _ _ _ _ _ E) as [bs2 [-> Hf]]. exact Hf.
  - assert (HF : Forall (fun e => forall pos f bs p f', go s app skip syn e pos f = Ok bs p f' ->
                                  fitsP s syn e pos bs p) es)
      by (eapply Forall_impl; [|exact IH]; intros e He; simpl; intros; eapply He; eauto).
    destruct (alt_eval_sound syn _ es HF _ _ _ _ _ E) as [e [Hin Hf]].
    econstructor; eauto.
  - destruct (star_loop _ _ pos f) as [[[rows q] f1]|] eqn:SL; [|discriminate].
    injection E as <- <- _. constructor. eapply star_loop_sound; [|exact SL]. intros; eauto.
  - destruct (star_loop _ _ pos f) as [[[rows q] f1]|] eqn:SL; [|discriminate].
    destruct rows as [|row rows]; [discriminate|].
    injection E as <- <- _. constructor; [discriminate|].
    eapply star_loop_sound; [|exact SL]. intros; eauto.
  - destruct (go s app skip syn e pos f) as [|f1|bs1 p1 f1] eqn:G; try discriminate.
    + injection E as <- <- _. apply F_opt_none.
    + injection E as <- <- _. apply F_opt_some. eauto.
  - destruct (go s app skip syn e pos (0, [])) as [|f1|bs1 p1 f1]; try discriminate.
    injection E as <- <- _. constructor.
  - destruct (skip syn pos) as [q|] eqn:Sk; [|discriminate].
    destruct (app r q f) as [|f1|bs1 p1 f1] eqn:A; try discriminate.
    injection E as <- <- _. constructor; eauto.
  - destruct (skip syn pos) as [q|] eqn:Sk; [|discriminate].
    destruct (go s app skip true e q f) as [|f1|bs1 p1 f1] eqn:G; try discriminate.
    + injection E as <- <- _. constructor; auto.
    + destruct (list_loop _ _ _ p1 f1) as [[[els r] f2]|] eqn:LL; [|discriminate].
      injection E as <- <- _. econstructor; eauto.
      eapply list_loop_sound; [| |exact LL]; intros; eauto.
  - destruct (skip syn pos) as [q|] eqn:Sk; [|discriminate].
    destruct (q =? String.length s) eqn:M; [|discriminate].
    injection E as <- <- _. constructor; auto. now apply Nat.eqb_eq.
Qed.

Lemma fitsP_mono syn e pos bs p : fitsP s syn e pos bs p -> pos <= p.
Proof.
  intros H.
  induction H using fitsP_mut with
    (P0 := fun syn e pos rows q _ => pos <= q)
    (P1 := fun e sep p els r _ => p <= r);
    repeat match goal with H : skips ?b _ _ |- _ => destruct b; simpl in H end; lia.
Qed.

Lemma eval_sound n : forall syn e pos f bs p f',
  eval rule_body s n syn e pos f = Ok bs p f' -> fitsP s syn e pos bs p.
Proof.
  induction n as [|n IH]; intros syn e pos f bs p f' E; simpl in E; [discriminate|].
  eapply go_sound; [| |exact E].
  - intros r q f1 bs1 p1 f2 E1. eapply IH; exact E1.
  - intros [|] p0 q Sk; cbv beta iota in Sk; unfold skips.
    + destruct (eval rule_body s n false _ p0 (0, [])) as [|f1|bs1 p1 f1] eqn:Sp;
        try discriminate.
      * injection Sk as <-. lia.
      * injection Sk as <-. eapply fitsP_mono, IH, Sp.
    + injection Sk as <-. reflexivity.
Qed.

End Soundness.

Section Nodes.
Variable s : string.
Definition all_ok (t : cst) : Prop := forall n, node_of n t -> node_ok s n.

Lemma all_ok_term st ln : all_ok (CTerm st ln).
Proof. intros n H. inversion H; subst. exact I. Qed.

Lemma all_ok_iter st ln kids : Forall all_ok kids -> all_ok (CIter st ln kids).
Proof.
  intros Hk n H. inversion H; subst; [exact I|].
  rewrite Forall_forall in Hk. eapply Hk; eauto.
Qed.

Lemma all_ok_node r st ln kids :
  Forall all_ok kids -> node_ok s (CNode r st ln kids) -> all_ok (CNode r st ln kids).
Proof.
  intros Hk Hs n H. inversion H; subst; [exact Hs|].
  rewrite Forall_forall in Hk. eapply Hk; eauto.
Qed.

Lemma iter_nodes_ok ar st ln rows :
  Forall (Forall all_ok) rows -> Forall all_ok (iter_nodes ar st ln rows).
Proof.
  intros Hr. unfold iter_nodes. apply Forall_forall. intros x Hx.
  apply in_map_iff in Hx as [i [<- _]]. apply all_ok_iter.
  apply Forall_forall. intros k Hk. apply in_flat_map in Hk as [row [Hrow Hk]].
  rewrite Forall_forall in Hr. specialize (Hr row Hrow). rewrite Forall_forall in Hr.
  destruct (nth_error row i) eqn:N; [|contradiction].
  destruct Hk as [<-|[]]. apply Hr. eapply nth_error_In; eauto.
Qed.

Lemma fitsP_nodes syn e pos bs p : fitsP s syn e pos bs p -> Forall all_ok bs.
Proof.
  intros H.
  induction H using fitsP_mut with
    (P0 := fun syn e pos rows q _ => Forall (Forall all_ok) rows)
    (P1 := fun e sep p els r _ => Forall all_ok els);
    repeat constructor; try apply all_ok_term; auto using Forall_app, iter_nodes_ok.
  - apply all_ok_node; auto. right. replace (q + (p - q)) with p; [assumption|].
    pose proof (fitsP_mono s _ _ _ _ _ H). destruct syn; simpl in s0; lia.
  - apply Forall_app; auto.
  - apply all_ok_node; [apply Forall_app; auto|]. left; reflexivity.
  - apply all_ok_node; [constructor|]. left; reflexivity.
  - apply Forall_app; auto.
Qed.
End Nodes.

Ltac finv :=
  unfold G.A, G.T, G.ident in *;
  repeat match goal with
  | H : fitsP _ _ (ESeq _) _ _ _ |- _ => inversion H; subst; clear H
  | H : fitsP _ _ (ETerm _) _ _ _ |- _ => inversion H; subst; clear H
  | H : fitsP _ _ (ECI _) _ _ _ |- _ => inversion H; subst; clear H
  | H : fitsP _ _ (EStar _) _ _ _ |- _ => inversion H; subst; clear H
  | H : fitsP _ _ (EPlus _) _ _ _ |- _ => inversion H; subst; clear H
  | H : fitsP _ _ (EOpt _) _ _ _ |- _ => inversion H; subst; clear H
  | H : fitsP _ _ (ENot _) _ _ _ |- _ => inversion H; subst; clear H
  end; simpl in * |-.

Ltac finv_app :=
  repeat match goal with
  | H : fitsP _ _ (EApp _) _ _ _ |- _ => inversion H; subst; clear H
  end; simpl in * |-.

Lemma st_fold_map {A B C : Type} (f : A -> St C) (g : B -> C -> B) xs acc h :
  st_fold (fun acc x => let* v := f x in st_ret (g acc v)) xs acc h =
  (fold_left g (fst (st_map f xs h)) acc, snd (st_map f xs h)).
Proof.
  revert acc h. induction xs as [|x xs IH]; intros acc h; [reflexivity|].
  simpl. unfold st_bind, st_ret. destruct (f x h) as [v h1]. rewrite IH.
  destruct (st_map f xs h1) as [vs h2]. reflexivity.
Qed.

Lemma st_map_Forall2 {A B : Type} (f : A -> St B) (P : A -> Prop) (Q : A -> B -> Prop) :
  (forall x h, P x -> exists v h', f x h = (v, h') /\ Q x v) ->
  forall xs h vs h', Forall P xs -> st_map f xs h = (vs, h') -> Forall2 Q xs vs.
Proof.
  intros Hf xs. induction xs as [|x xs IH]; intros h vs h' HP E.
  - injection E as <- _. constructor.
  - inversion HP; subst. simpl in E. unfold st_bind, st_ret in E.
    destruct (Hf x h H1) as [v [h1 [Ex Hq]]]. rewrite Ex in E.
    destruct (st_map f xs h1) as [vs1 h2] eqn:E1. injection E as <- _.
    constructor; eauto.
Qed.

Lemma phas_in ps k : phas ps k = true <-> In k (map fst ps).
Proof.
  induction ps as [|[k0 v0] ps IH]; simpl; [split; [discriminate|contradiction]|].
  rewrite Bool.orb_true_iff, IH, String.eqb_eq. split; intros [H|H]; auto.
Qed.

Lemma pget_passign ps qs k :
  NoDup (map fst qs) ->
  pget (passign ps qs) k = if phas qs k then pget qs k else pget ps k.
Proof.
  revert ps. induction qs as [|[k0 v0] qs IH]; intros ps Hnd; [reflexivity|].
  inversion Hnd; subst. unfold passign in *. simpl. rewrite IH by assumption.
  rewrite pget_pset. destruct (String.eqb k k0) eqn:Ek; simpl.
  - apply String.eqb_eq in Ek. subst. destruct (phas qs k0) eqn:Hq; [|reflexivity].
    apply phas_in in Hq. contradiction.
  - reflexivity.
Qed.

Lemma phas_passign ps qs k : phas (passign ps qs) k = phas ps k || phas qs k.
Proof.
  revert ps. induction qs as [|[k0 v0] qs IH]; intros ps; simpl; [now rewrite orb_false_r|].
  unfold passign in *. simpl. rewrite IH.
  assert (phas (pset ps k0 v0) k = String.eqb k k0 || phas ps k) as ->.
  { clear. induction ps as [|[k1 v1] ps IH]; simpl; [now rewrite orb_false_r|].
    destruct (String.eqb k0 k1) eqn:E; simpl.
    - apply String.eqb_eq in E; subst. destruct (String.eqb k k1); reflexivity.
    - rewrite IH. destruct (String.eqb k k0), (String.eqb k k1); reflexivity. }
  destruct (String.eqb k k0), (phas ps k); reflexivity.
Qed.

Lemma fold_assign_get vs acc k :
  Forall nodup_obj vs ->
  get (fold_left assign vs (JObj acc)) k =
  fold_left (fun a v => if jhas v k then get v k else a) vs (pget acc k).
Proof.
  revert acc. induction vs as [|v vs IH]; intros acc Hvs; [reflexivity|].
  inversion Hvs as [|? ? [ps [-> Hnd]] Hvs']; subst. simpl.
  rewrite IH by assumption. rewrite pget_passign by assumption. reflexivity.
Qed.

Lemma fold_assign_has vs acc k :
  Forall nodup_obj vs ->
  jhas (fold_left assign vs (JObj acc)) k = phas acc k || existsb (fun v => jhas v k) vs.
Proof.
  revert acc. induction vs as [|v vs IH]; intros acc Hvs; simpl; [now rewrite orb_false_r|].
  inversion Hvs as [|? ? [ps [-> Hnd]] Hvs']; subst. simpl.
  rewrite IH by assumption. rewrite phas_passign. symmetry; apply orb_assoc.
Qed.

Ltac alt_inv H :=
  let Hin := fresh "Hin" in let He := fresh "He" in
  inversion H as [| | | | | | | |? ? ? ? ? ? Hin He| | | | | | |]; subst; clear H;
  simpl in Hin; unfold G.A, G.ident in Hin;
  repeat destruct Hin as [<-|Hin]; try contradiction; unfold G.A, G.ident, G.T in *.

Ltac get_chars :=
  repeat match goal with
  | H : match String.get ?q ?s with Some c' => (c' =? ?c)%char && true | None => false end = true |- _ =>
      let E := fresh "E" in
      destruct (String.get q s) eqn:E; [rewrite andb_true_r in H; apply Ascii.eqb_eq in H; subst | discriminate]
  end.

Lemma get_lt (s : string) q c : String.get q s = Some c -> q < String.length s.
Proof.
  revert q. induction s as [|c0 s IH]; intros [|q] H; simpl in *; try discriminate; [lia|].
  apply IH in H. lia.
Qed.

Lemma match_at_char (s : string) q c :
  match_at false (String c EmptyString) s q = true -> String.get q s = Some c.
Proof.
  simpl. destruct (String.get q s) as [c'|]; [|discriminate].
  rewrite andb_true_r. intros H. apply Ascii.eqb_eq in H. now subst.
Qed.

Lemma substring_length (s : string) q n :
  q + n <= String.length s -> String.length (substring q n s) = n.
Proof.
  revert q n. induction s as [|c s IH]; intros q n H; simpl in *.
  - destruct q, n; simpl in *; lia.
  - destruct q as [|q].
    + destruct n as [|n]; simpl; [reflexivity|]. rewrite IH; lia.
    + apply IH. lia.
Qed.

Lemma substring_substring (s : string) q n m k :
  m + k <= n -> substring m k (substring q n s) = substring (q + m) k s.
Proof.
  revert q n m k. induction s as [|c s IH]; intros q n m k H.
  - destruct q, n, m, k; reflexivity.
  - destruct q as [|q]; simpl.
    + destruct n as [|n]; simpl.
      * assert (m = 0) by lia. assert (k = 0) by lia. subst. reflexivity.
      * destruct m as [|m]; simpl.
        -- destruct k as [|k]; [reflexivity|]. simpl. f_equal.
           specialize (IH 0 n 0 k ltac:(lia)). simpl in IH. exact IH.
        -- specialize (IH 0 n m k ltac:(lia)). simpl in IH. exact IH.
    + apply IH. assumption.
Qed.

Lemma toAST_ColumnDefault s q ln a b c :
  toAST s (CNode R_ColumnDefault q ln [a; b; c]) = (let* v := toAST s c in obj [("default", v)]).
Proof. reflexivity. Qed.

Lemma toAST_DefaultValue s q ln c : toAST s (CNode R_DefaultValue q ln [c]) = toAST s c.
Proof. reflexivity. Qed.

Lemma toAST_DefaultValue_literal s q ln c : toAST s (CNode R_DefaultValue_literal q ln [c]) = toAST s c.
Proof. reflexivity. Qed.

Lemma match_at_substring (s : string) t q :
  match_at false t s q = true -> substring q (String.length t) s = t.
Proof.
  revert q. induction t as [|c t IH]; intros q H; simpl in *.
  - clear H. revert q. induction s as [|c s IHs]; intros [|q]; simpl; auto.
  - destruct (String.get q s) as [c'|] eqn:G; [|discriminate].
    apply andb_prop in H as [Hc Ht]. apply Ascii.eqb_eq in Hc. subst c'.
    specialize (IH _ Ht). clear Ht.
    revert q G IH. induction s as [|c0 s IHs]; intros [|q] G IH; simpl in *; try discriminate.
    + injection G as ->. f_equal. exact IH.
    + apply IHs; assumption.
Qed.

Lemma unescape_spec q c : unescape q (str1 c) = escape_spec q c.
Proof.
  unfold unescape, escape_spec, str1. simpl.
  destruct (Ascii.eqb c q); [reflexivity|].
  destruct (Ascii.eqb c c_bs); [reflexivity|].
  destruct (Ascii.eqb c "n"%char); [reflexivity|].
  destruct (Ascii.eqb c "r"%char); [reflexivity|].
  destruct (Ascii.eqb c "t"%char); reflexivity.
Qed.

Section Parsed.
Variable s : string.

Lemma grammar_match_fits start root :
  grammar_match s start = MatchOk root -> all_ok s root.
Proof.
  unfold grammar_match.
  destruct (eval rule_body s DEPTH _ _ 0 (0, [])) as [|[p ds]|bs p f] eqn:E; try discriminate.
  destruct bs as [|root' [|]]; try discriminate. intros H; injection H as <-.
  apply eval_sound in E. apply fitsP_nodes in E. inversion E; assumption.
Qed.

Lemma parsed_node_ok start root n :
  grammar_match s start = MatchOk root -> node_of n root -> node_ok s n.
Proof. intros H. apply grammar_match_fits in H. apply H. Qed.

Lemma fits_app_node syn r pos bs p : fitsP s syn (EApp r) pos bs p -> Forall (app_node s r) bs.
Proof.
  intros H. inversion H as [| | | | |? ? ? q ? ? Hsk Hb| | | | | | | | | |]; subst.
  constructor; [|constructor].
  eexists q, (p - q), _. split; [reflexivity|].
  pose proof (fitsP_mono s _ _ _ _ _ Hb). replace (q + (p - q)) with p by lia. assumption.
Qed.

Lemma list_fit_app_node r sep p els r' : list_fit s (EApp r) sep p els r' -> Forall (app_node s r) els.
Proof.
  intros H. remember (EApp r) as e eqn:Ee. induction H; subst; [constructor|].
  apply Forall_app; split; [eapply fits_app_node; eassumption | auto].
Qed.

Lemma column_settings_inv q kids p :
  fitsP s true (rule_body R_ColumnSettings) q kids p ->
  exists a c q' ln' items, kids = [a; CNode R_ListOf q' ln' items; c] /\
                           Forall (app_node s R_ColumnSetting) items.
Proof.
  intros H. simpl in H. finv.
  match goal with H : fitsP _ _ (EListOf _ _) _ _ _ |- _ => inversion H; subst; clear H end.
  - do 5 eexists. split; [reflexivity|].
    apply Forall_app. split; [eapply fits_app_node; eassumption|].
    eapply list_fit_app_node; eassumption.
  - do 5 eexists. split; [reflexivity|constructor].
Qed.

Lemma column_setting_inv x :
  app_node s R_ColumnSetting x ->
  exists q ln r q' ln' kids', x = CNode R_ColumnSetting q ln [CNode r q' ln' kids'] /\
    In r [R_ColumnSetting_pk; R_ColumnSetting_primaryKey; R_ColumnSetting_unique;
          R_ColumnSetting_notNull; R_ColumnSetting_null; R_ColumnSetting_increment;
          R_ColumnSetting_identityAlways; R_ColumnSetting_identityByDefault;
          R_ColumnSetting_generatedStored; R_ColumnSetting_check;
          R_ColumnDefault; R_ColumnNote; R_ColumnRef] /\
    fitsP s true (rule_body r) q' kids' (q' + ln').
Proof.
  intros [q [ln [kids [-> H]]]]. simpl in H. unfold G.A in H.
  inversion H as [| | | | | | | |? e ? ? ? ? Hin He| | | | | | |]; subst; clear H.
  simpl in Hin.
  repeat destruct Hin as [<-|Hin]; try contradiction;
    (inversion He as [| | | | |? ? ? q' ? ? Hsk Hb| | | | | | | | | |]; subst; clear He;
     pose proof (fitsP_mono s _ _ _ _ _ Hb); simpl in Hsk;
     do 6 eexists; split; [reflexivity|]; split; [simpl; tauto|];
     replace (q' + (q + ln - q')) with (q + ln) by lia; exact Hb).
Qed.

Lemma column_setting_value x h :
  app_node s R_ColumnSetting x ->
  exists ps h', toAST s x h = (JObj ps, h') /\ NoDup (map fst ps) /\
    phas ps "notNull" = (if not_null_setting x then true else false) /\
    (forall b, not_null_setting x = Some b -> pget ps "notNull" = JBool b).
Proof.
  intros Hx. destruct (column_setting_inv x Hx) as (q & ln & r & q' & ln' & kids' & -> & Hin & Hb).
  simpl in Hin. repeat destruct Hin as [<-|Hin]; try contradiction; try (simpl in Hb; finv; finv_app);
    simpl; unfold st_bind, st_ret, obj;
    repeat (match goal with |- context [match ?m with (_, _) => _ end] => destruct m end);
    do 2 eexists; (split; [reflexivity|]); simpl;
    (split; [repeat constructor; simpl; intuition discriminate|]);
    split; try reflexivity; intros b Hb'; try discriminate; injection Hb' as <-; reflexivity.
Qed.

Lemma settings_not_null items vs :
  Forall2 (fun it v => exists ps, v = JObj ps /\ NoDup (map fst ps) /\
             phas ps "notNull" = (if not_null_setting it then true else false) /\
             (forall b, not_null_setting it = Some b -> pget ps "notNull" = JBool b)) items vs ->
  forall acc0 acc1,
  (match acc0 with Some b => acc1 = JBool b | None => acc1 = JUndef end) ->
  match fold_left (fun acc it => match not_null_setting it with Some b => Some b | None => acc end)
                  items acc0 with
  | Some b => fold_left (fun a v => if jhas v "notNull" then get v "notNull" else a) vs acc1 = JBool b
  | None => acc0 = None /\ existsb (fun v => jhas v "notNull") vs = false
  end.
Proof.
  induction 1 as [|it v items vs [ps [-> [_ [Hh Hg]]]] _ IH]; intros acc0 acc1 Hacc.
  - destruct acc0; simpl; auto.
  - simpl. rewrite Hh. destruct (not_null_setting it) as [b|] eqn:N.
    + specialize (IH (Some b) (JBool b) eq_refl). rewrite (Hg b eq_refl).
      destruct (fold_left _ items (Some b)); [exact IH | destruct IH; discriminate].
    + specialize (IH acc0 acc1 Hacc). exact IH.
Qed.

Lemma value_literal w h :
  app_node s R_Value w -> exists d h', toAST s w h = (d, h') /\ is_literal d.
Proof.
  intros [q [ln [kids [-> H]]]]. simpl in H. unfold G.A, G.ident in H.
  alt_inv H; inversion He as [| | | | |? ? ? q' ? ? Hsk Hb| | | | | | | | | |]; subst; clear He;
    try (simpl in Hb; finv);
    try (match goal with H : fitsP _ _ (EAlt _) _ _ _ |- _ => alt_inv H end; finv_app; finv);
    simpl; unfold st_bind, st_ret, obj;
    repeat (match goal with |- context [match ?m with (_, _) => _ end] => destruct m end);
    do 2 eexists; split; try reflexivity; simpl; exact I.
Qed.

Lemma backtick_inv b kids e :
  fitsP s false (rule_body R_backtickString) b kids e ->
  exists ks, kids = [CTerm b 1; CIter (b + 1) (e - b - 2) ks; CTerm (e - 1) 1] /\
    String.get b s = Some c_bt /\ String.get (e - 1) s = Some c_bt /\ b + 2 <= e /\
    e <= String.length s.
Proof.
  intros H. simpl in H. finv. unfold skips in *. subst.
  match goal with H : rows_fit _ _ _ _ _ _ |- _ => pose proof (fitsP_mono s _ _ _ _ _ (F_star _ _ _ _ _ _ H)) end.
  get_chars. simpl.
  replace (p0 + 1 - 1) with p0 by lia. replace (p0 + 1 - b - 2) with (p0 - (b + 1)) by lia.
  eexists. split; [reflexivity|].
  split; [first [reflexivity|assumption]|]. split; [first [reflexivity|assumption]|]. split; [lia|].
  match goal with H : String.get p0 s = Some _ |- _ => apply get_lt in H end. lia.
Qed.

Lemma escape_kids q kids e :
  fitsP s false (ESeq [ETerm (str1 c_bs); EApp R_any]) q kids e ->
  exists c, kids = [CTerm q 1; CNode R_any (q + 1) 1 [CTerm (q + 1) 1]] /\
    String.get q s = Some c_bs /\ String.get (q + 1) s = Some c /\ e = q + 2.
Proof.
  intros H. finv. finv_app. unfold skips in *; subst.
  match goal with H : fitsP _ _ (EClass _) _ _ _ |- _ => inversion H; subst; clear H end.
  unfold skips, char_test in *; subst. get_chars.
  match goal with H : match String.get ?i s with _ => _ end = true |- _ =>
    destruct (String.get i s) as [c|] eqn:G; [|discriminate] end.
  match goal with H : (if is_syntactic R_any then _ else _) |- _ => simpl in H end. subst.
  exists c. replace (S (q + 1) - (q + 1)) with 1 by lia. split; [reflexivity|].
  split; [first [reflexivity|assumption]|]. split; [first [reflexivity|assumption]|]. lia.
Qed.

Lemma substring_one (s0 : string) i c : String.get i s0 = Some c -> substring i 1 s0 = str1 c.
Proof.
  revert i. induction s0 as [|c0 s0 IH]; intros [|i] G; simpl in *; try discriminate.
  - injection G as ->. destruct s0; reflexivity.
  - apply IH. exact G.
Qed.

Lemma triple_kids b kids e :
  fitsP s false (rule_body R_tripleString) b kids e ->
  exists ks, kids = [CTerm b 3; CIter (b + 3) (e - b - 6) ks; CTerm (e - 3) 3] /\
    substring b 3 s = "'''" /\ substring (e - 3) 3 s = "'''" /\ b + 6 <= e.
Proof.
  intros H. simpl in H. finv. unfold skips in *. subst.
  match goal with H : rows_fit _ _ _ _ _ _ |- _ => pose proof (fitsP_mono s _ _ _ _ _ (F_star _ _ _ _ _ _ H)) end.
  match goal with H : match String.get b s with _ => _ end = true |- _ =>
    assert (Hb1 : match_at false "'''" s b = true) by exact H end.
  match goal with H : match String.get p0 s with _ => _ end = true |- _ =>
    assert (Hb2 : match_at false "'''" s p0 = true) by exact H end.
  apply match_at_substring in Hb1, Hb2. simpl in Hb1, Hb2. cbn [String.length app].
  replace (p0 + 3 - 3) with p0 by lia. replace (p0 + 3 - b - 6) with (p0 - (b + 3)) by lia.
  eexists. split; [reflexivity|]. split; [assumption|]. split; [assumption|]. lia.
Qed.

End Parsed.

(** C3: the ColumnSettings action folds the values of its settings, in
    written order, with [Object.assign] onto a fresh object: for every key,
    the value is the one of the last setting that has the key.  The
    not-null key is tri-state: [not null] sets it to true, [null] to false,
    the last of them wins, and with neither the key is absent.  So
    [id int [null, not null]] gives true, [id int [not null, null]] gives
    false, and [id int [pk]] and [id int] leave the key out. *)
Theorem Column_settings_last_wins :
  (forall s start root q ln kids h v h',
    grammar_match s start = MatchOk root ->
    node_of (CNode R_ColumnSettings q ln kids) root ->
    toAST s (CNode R_ColumnSettings q ln kids) h = (v, h') ->
    exists items vs,
      (exists a c q' ln', kids = [a; CNode R_ListOf q' ln' items; c]) /\
      st_map (toAST s) items h = (vs, h') /\
      v = fold_left assign vs (JObj []) /\
      (forall k, get v k = last_setting_value k vs) /\
      match spec_not_null items with
      | Some b => get v "notNull" = JBool b
      | None => jhas v "notNull" = false
      end) /\
  get (doc_column (parse (new_Parser []) "Table t { id int [null, not null] }" None) 0 0) "notNull"
    = JBool true /\
  get (doc_column (parse (new_Parser []) "Table t { id int [not null, null] }" None) 0 0) "notNull"
    = JBool false /\
  jhas (doc_column (parse (new_Parser []) "Table t { id int [pk] }" None) 0 0) "notNull" = false /\
  jhas (doc_column (parse (new_Parser []) "Table t { id int }" None) 0 0) "notNull" = false.
Proof.
  split; [|repeat split; vm_compute; reflexivity].
  intros s start root q ln kids h v h' Hm Hn E.
  destruct (parsed_node_ok s start root _ Hm Hn) as [Hr|Hb]; [discriminate|].
  destruct (column_settings_inv s _ _ _ Hb) as (a & c & q' & ln' & items & -> & Hitems).
  simpl in E. rewrite st_fold_map in E.
  destruct (st_map (toAST s) items h) as [vs h1] eqn:Em. simpl in E. injection E as <- <-.
  assert (H2 : Forall2 (fun it v => exists ps, v = JObj ps /\ NoDup (map fst ps) /\
             phas ps "notNull" = (if not_null_setting it then true else false) /\
             (forall b, not_null_setting it = Some b -> pget ps "notNull" = JBool b)) items vs).
  { eapply st_map_Forall2; [|exact Hitems|exact Em].
    intros x h0 Hx. destruct (column_setting_value s x h0 Hx) as (ps & h2 & Ex & Hp).
    exists (JObj ps), h2. split; [exact Ex|]. exists ps; auto. }
  exists items, vs. split; [eauto 10|]. split; [exact Em|]. split; [reflexivity|].
  assert (Hobj : Forall nodup_obj vs).
  { clear -H2. induction H2 as [|? ? ? ? [ps [-> [Hnd _]]]]; constructor; eauto. exists ps; auto. }
  split; [intros k; apply (fold_assign_get vs [] k Hobj)|].
  pose proof (settings_not_null items vs H2 None JUndef eq_refl) as Hs.
  unfold spec_not_null. destruct (fold_left _ items None) as [b|].
  - rewrite (fold_assign_get vs [] _ Hobj). exact Hs.
  - rewrite (fold_assign_has vs [] _ Hobj). simpl. apply Hs.
Qed.

Lemma Column_settings_last_wins_witness :
  let s := w_src in let start := R_Schema in let root := w_root s in
  let n := w_node s 38 in let q := cst_start n in let ln := cst_len n in let kids := cst_kids n in
  let h : heap := [] in
  let v := fst (toAST s (CNode R_ColumnSettings q ln kids) h) in
  let h' := snd (toAST s (CNode R_ColumnSettings q ln kids) h) in
  (grammar_match s start = MatchOk root /\
   node_of (CNode R_ColumnSettings q ln kids) root /\
   toAST s (CNode R_ColumnSettings q ln kids) h = (v, h')) /\
  exists items vs,
    (exists a c q' ln', kids = [a; CNode R_ListOf q' ln' items; c]) /\
    st_map (toAST s) items h = (vs, h') /\
    v = fold_left assign vs (JObj []) /\
    (forall k, get v k = last_setting_value k vs) /\
    match spec_not_null items with
    | Some b => get v "notNull" = JBool b
    | None => jhas v "notNull" = false
    end.
Proof.
  intros s start root n q ln kids h v h'.
  assert (H1 : grammar_match s start = MatchOk root) by (vm_compute; reflexivity).
  assert (H2 : node_of (CNode R_ColumnSettings q ln kids) root)
    by (apply (subtrees_node_of root 38); vm_compute; reflexivity).
  assert (H3 : toAST s (CNode R_ColumnSettings q ln kids) h = (v, h')) by apply surjective_pairing.
  split; [auto|].
  exact (proj1 Column_settings_last_wins s start root q ln kids h v h' H1 H2 H3).
Defined.

(** C4: a column's [default:] setting gives [{default: d}] where, for a
    backtick-quoted default, [d] is [{type: expression, value: text}] with
    the text between the backticks taken as is, and for any other value [d]
    is the literal the Value action built (a string, a number, a boolean,
    null or an identifier's name), not wrapped.  [default: `now()`] gives
    the expression now(), [default: 'active'] the string active and
    [default: true] the boolean true. *)
Theorem Column_default_value :
  (forall s start root q ln kids h v h',
    grammar_match s start = MatchOk root ->
    node_of (CNode R_ColumnDefault q ln kids) root ->
    toAST s (CNode R_ColumnDefault q ln kids) h = (v, h') ->
    exists d, v = JObj [("default", d)] /\
      ((exists b e bk a c q1 ln1 q2 ln2,
          kids = [a; c; CNode R_DefaultValue q1 ln1
                          [CNode R_DefaultValue_expression q2 ln2 [CNode R_backtickString b (e - b) bk]]] /\
          String.get b s = Some c_bt /\ String.get (e - 1) s = Some c_bt /\ b + 2 <= e /\
          d = JObj [("type", JS "expression"); ("value", JS (substring (b + 1) (e - b - 2) s))])
       \/
       (exists w a c q1 ln1 q2 ln2,
          kids = [a; c; CNode R_DefaultValue q1 ln1 [CNode R_DefaultValue_literal q2 ln2 [w]]] /\
          app_node s R_Value w /\ toAST s w h = (d, h') /\ is_literal d))) /\
  get (doc_column (parse (new_Parser []) "Table t { s text [default: `now()`] }" None) 0 0) "default"
    = JObj [("type", JS "expression"); ("value", JS "now()")] /\
  get (doc_column (parse (new_Parser []) "Table t { s text [default: 'active'] }" None) 0 0) "default"
    = JS "active" /\
  get (doc_column (parse (new_Parser []) "Table t { b bool [default: true] }" None) 0 0) "default"
    = JBool true.
Proof.
  split; [|repeat split; vm_compute; reflexivity].
  intros s start root q ln kids h v h' Hm Hn E.
  destruct (parsed_node_ok s start root _ Hm Hn) as [Hr|Hb]; [discriminate|].
  revert E. simpl in Hb. finv. finv_app.
  match goal with H : fitsP _ _ (EAlt _) _ _ _ |- _ => alt_inv H end;
    match goal with H : fitsP _ _ (EApp _) _ _ _ |- _ =>
      inversion H as [| | | | |? ? ? qa ? ? Hsk2 Hb2| | | | | | | | | |]; subst; clear H end;
    simpl in Hb2; unfold G.A in Hb2;
    inversion Hb2 as [| | | | |? ? ? qb ? ? Hsk3 Hb3| | | | | | | | | |]; subst; clear Hb2; intros E.
  - destruct (backtick_inv s _ _ _ Hb3) as (mid & -> & G1 & G2 & Hle & Hlen).
    simpl in E. unfold st_bind, st_ret, obj in E. simpl in E. injection E as <- <-.
    eexists. split; [reflexivity|]. left.
    do 9 eexists. split; [reflexivity|]. split; [exact G1|]. split; [exact G2|]. split; [lia|].
    unfold slice1m1, source_string. simpl.
    rewrite substring_length by lia. rewrite substring_substring by lia. reflexivity.
  - cbn [app] in E. rewrite toAST_ColumnDefault, toAST_DefaultValue, toAST_DefaultValue_literal in E.
    unfold st_bind, st_ret, obj in E.
    destruct (value_literal s (CNode R_Value qb (q + ln - qb) bs0) h) as (d & h2 & Ev & Hl).
    { pose proof (fitsP_mono s _ _ _ _ _ Hb3).
      do 3 eexists. split; [reflexivity|]. replace (qb + (q + ln - qb)) with (q + ln) by lia. exact Hb3. }
    rewrite Ev in E. injection E as <- <-.
    eexists. split; [reflexivity|]. right.
    do 7 eexists. split; [reflexivity|]. split.
    + do 3 eexists. split; [reflexivity|].
      replace (qb + (q + ln - qb)) with (q + ln) by (pose proof (fitsP_mono s _ _ _ _ _ Hb3); lia).
      exact Hb3.
    + split; [exact Ev|exact Hl].
Qed.

Lemma Column_default_value_witness :
  let s := w_src in let start := R_Schema in let root := w_root s in
  let n := w_node s 119 in let q := cst_start n in let ln := cst_len n in let kids := cst_kids n in
  let h : heap := [] in
  let v := fst (toAST s (CNode R_ColumnDefault q ln kids) h) in
  let h' := snd (toAST s (CNode R_ColumnDefault q ln kids) h) in
  (grammar_match s start = MatchOk root /\
   node_of (CNode R_ColumnDefault q ln kids) root /\
   toAST s (CNode R_ColumnDefault q ln kids) h = (v, h')) /\
  exists d, v = JObj [("default", d)] /\
    ((exists b e bk a c q1 ln1 q2 ln2,
        kids = [a; c; CNode R_DefaultValue q1 ln1
                        [CNode R_DefaultValue_expression q2 ln2 [CNode R_backtickString b (e - b) bk]]] /\
        String.get b s = Some c_bt /\ String.get (e - 1) s = Some c_bt /\ b + 2 <= e /\
        d = JObj [("type", JS "expression"); ("value", JS (substring (b + 1) (e - b - 2) s))])
     \/
     (exists w a c q1 ln1 q2 ln2,
        kids = [a; c; CNode R_DefaultValue q1 ln1 [CNode R_DefaultValue_literal q2 ln2 [w]]] /\
        app_node s R_Value w /\ toAST s w h = (d, h') /\ is_literal d)).
Proof.
  intros s start root n q ln kids h v h'.
  assert (H1 : grammar_match s start = MatchOk root) by (vm_compute; reflexivity).
  assert (H2 : node_of (CNode R_ColumnDefault q ln kids) root)
    by (apply (subtrees_node_of root 119); vm_compute; reflexivity).
  assert (H3 : toAST s (CNode R_ColumnDefault q ln kids) h = (v, h')) by apply surjective_pairing.
  split; [auto|].
  exact (proj1 Column_default_value s start root q ln kids h v h' H1 H2 H3).
Defined.

(** C9: an escape [\c] in a double- or single-quoted string stands for the
    quote itself, a backslash, newline, carriage return or tab for the
    quote, [\], [n], [r] and [t], and for [c] itself for any other
    character, with no error; a triple-quoted or backtick-quoted string is
    its content between the delimiters, copied without interpretation. *)
Theorem String_unescape :
  (forall s start root q ln kids h v h',
    grammar_match s start = MatchOk root ->
    node_of (CNode R_doubleStringChar_escape q ln kids) root ->
    toAST s (CNode R_doubleStringChar_escape q ln kids) h = (v, h') ->
    exists c, String.get q s = Some c_bs /\ String.get (q + 1) s = Some c /\ ln = 2 /\
              v = JS (escape_spec c_dq c) /\ h' = h) /\
  (forall s start root q ln kids h v h',
    grammar_match s start = MatchOk root ->
    node_of (CNode R_singleStringChar_escape q ln kids) root ->
    toAST s (CNode R_singleStringChar_escape q ln kids) h = (v, h') ->
    exists c, String.get q s = Some c_bs /\ String.get (q + 1) s = Some c /\ ln = 2 /\
              v = JS (escape_spec c_sq c) /\ h' = h) /\
  (forall s start root q ln kids h v h',
    grammar_match s start = MatchOk root ->
    node_of (CNode R_tripleString q ln kids) root ->
    toAST s (CNode R_tripleString q ln kids) h = (v, h') ->
    substring q 3 s = "'''" /\ substring (q + ln - 3) 3 s = "'''" /\ 6 <= ln /\
    v = JS (substring (q + 3) (ln - 6) s) /\ h' = h) /\
  (forall s start root q ln kids h v h',
    grammar_match s start = MatchOk root ->
    node_of (CNode R_backtickString q ln kids) root ->
    toAST s (CNode R_backtickString q ln kids) h = (v, h') ->
    String.get q s = Some c_bt /\ String.get (q + ln - 1) s = Some c_bt /\ 2 <= ln /\
    v = JS (substring (q + 1) (ln - 2) s) /\ h' = h) /\
  get (doc_column (parse (new_Parser []) "Table t { c text [note: 'a\'b\\c\nd\qe'] }" None) 0 0) "note"
    = JS ("a'b" ++ str1 c_bs ++ "c" ++ str1 c_nl ++ "dqe") /\
  get (doc_column (parse (new_Parser [])
         ("Table t { c text [note: " ++ str1 c_dq ++ "p\" ++ str1 c_dq ++ "q\tr\'" ++ str1 c_dq ++ "] }")
         None) 0 0) "note"
    = JS ("p" ++ str1 c_dq ++ "q" ++ str1 c_tab ++ "r'") /\
  get (doc_column (parse (new_Parser []) "Table t { c text [note: '''x\n'y'''] }" None) 0 0) "note"
    = JS ("x" ++ str1 c_bs ++ "n'y").
Proof.
  split; [|split; [|split; [|split; [|repeat split; vm_compute; reflexivity]]]].
  - intros s start root q ln kids h v h' Hm Hn E.
    destruct (parsed_node_ok s start root _ Hm Hn) as [Hr|Hb]; [discriminate|].
    change (fitsP s false (ESeq [ETerm (str1 c_bs); EApp R_any]) q kids (q + ln)) in Hb.
    destruct (escape_kids s _ _ _ Hb) as (c & -> & G1 & G2 & Hl).
    exists c. split; [exact G1|]. split; [exact G2|]. split; [lia|].
    simpl in E. unfold source_string in E. simpl in E. rewrite (substring_one s _ _ G2) in E.
    rewrite unescape_spec in E. injection E as <- <-. split; reflexivity.
  - intros s start root q ln kids h v h' Hm Hn E.
    destruct (parsed_node_ok s start root _ Hm Hn) as [Hr|Hb]; [discriminate|].
    change (fitsP s false (ESeq [ETerm (str1 c_bs); EApp R_any]) q kids (q + ln)) in Hb.
    destruct (escape_kids s _ _ _ Hb) as (c & -> & G1 & G2 & Hl).
    exists c. split; [exact G1|]. split; [exact G2|]. split; [lia|].
    simpl in E. unfold source_string in E. simpl in E. rewrite (substring_one s _ _ G2) in E.
    rewrite unescape_spec in E. injection E as <- <-. split; reflexivity.
  - intros s start root q ln kids h v h' Hm Hn E.
    destruct (parsed_node_ok s start root _ Hm Hn) as [Hr|Hb]; [discriminate|].
    destruct (triple_kids s _ _ _ Hb) as (ks & -> & G1 & G2 & Hl).
    simpl in E. unfold source_string in E. simpl in E. injection E as <- <-.
    replace (q + ln - 3) with (q + ln - 3) in G2 by reflexivity.
    split; [exact G1|]. split; [exact G2|]. split; [lia|].
    split; [|reflexivity]. do 2 f_equal. lia.
  - intros s start root q ln kids h v h' Hm Hn E.
    destruct (parsed_node_ok s start root _ Hm Hn) as [Hr|Hb]; [discriminate|].
    destruct (backtick_inv s _ _ _ Hb) as (ks & -> & G1 & G2 & Hl & _).
    simpl in E. unfold source_string in E. simpl in E. injection E as <- <-.
    split; [exact G1|]. split; [exact G2|]. split; [lia|].
    split; [|reflexivity]. do 2 f_equal. lia.
Qed.

Lemma String_unescape_witness :
  let s := w_src in let start := R_Schema in let root := w_root s in let h : heap := [] in
  let n1 := w_node s 113 in let n2 := w_node s 55 in let n3 := w_node s 170 in let n4 := w_node s 125 in
  let t1 := CNode R_doubleStringChar_escape (cst_start n1) (cst_len n1) (cst_kids n1) in
  let t2 := CNode R_singleStringChar_escape (cst_start n2) (cst_len n2) (cst_kids n2) in
  let t3 := CNode R_tripleString (cst_start n3) (cst_len n3) (cst_kids n3) in
  let t4 := CNode R_backtickString (cst_start n4) (cst_len n4) (cst_kids n4) in
  grammar_match s start = MatchOk root /\
  (node_of t1 root /\ toAST s t1 h = (fst (toAST s t1 h), snd (toAST s t1 h)) /\
   exists c, String.get (cst_start n1) s = Some c_bs /\ String.get (cst_start n1 + 1) s = Some c /\
             cst_len n1 = 2 /\ fst (toAST s t1 h) = JS (escape_spec c_dq c) /\ snd (toAST s t1 h) = h) /\
  (node_of t2 root /\ toAST s t2 h = (fst (toAST s t2 h), snd (toAST s t2 h)) /\
   exists c, String.get (cst_start n2) s = Some c_bs /\ String.get (cst_start n2 + 1) s = Some c /\
             cst_len n2 = 2 /\ fst (toAST s t2 h) = JS (escape_spec c_sq c) /\ snd (toAST s t2 h) = h) /\
  (node_of t3 root /\ toAST s t3 h = (fst (toAST s t3 h), snd (toAST s t3 h)) /\
   substring (cst_start n3) 3 s = "'''" /\ substring (cst_start n3 + cst_len n3 - 3) 3 s = "'''" /\
   6 <= cst_len n3 /\ fst (toAST s t3 h) = JS (substring (cst_start n3 + 3) (cst_len n3 - 6) s) /\
   snd (toAST s t3 h) = h) /\
  (node_of t4 root /\ toAST s t4 h = (fst (toAST s t4 h), snd (toAST s t4 h)) /\
   String.get (cst_start n4) s = Some c_bt /\ String.get (cst_start n4 + cst_len n4 - 1) s = Some c_bt /\
   2 <= cst_len n4 /\ fst (toAST s t4 h) = JS (substring (cst_start n4 + 1) (cst_len n4 - 2) s) /\
   snd (toAST s t4 h) = h).
Proof.
  intros s start root h n1 n2 n3 n4 t1 t2 t3 t4.
  assert (H1 : grammar_match s start = MatchOk root) by (vm_compute; reflexivity).
  assert (N1 : node_of t1 root) by (apply (subtrees_node_of root 113); vm_compute; reflexivity).
  assert (N2 : node_of t2 root) by (apply (subtrees_node_of root 55); vm_compute; reflexivity).
  assert (N3 : node_of t3 root) by (apply (subtrees_node_of root 170); vm_compute; reflexivity).
  assert (N4 : node_of t4 root) by (apply (subtrees_node_of root 125); vm_compute; reflexivity).
  pose proof (surjective_pairing (toAST s t1 h)) as E1.
  pose proof (surjective_pairing (toAST s t2 h)) as E2.
  pose proof (surjective_pairing (toAST s t3 h)) as E3.
  pose proof (surjective_pairing (toAST s t4 h)) as E4.
  destruct String_unescape as [P1 [P2 [P3 [P4 _]]]].
  split; [exact H1|].
  split; [split; [exact N1|split; [exact E1|exact (P1 s start root _ _ _ h _ _ H1 N1 E1)]]|].
  split; [split; [exact N2|split; [exact E2|exact (P2 s start root _ _ _ h _ _ H1 N2 E2)]]|].
  split; [split; [exact N3|split; [exact E3|exact (P3 s start root _ _ _ h _ _ H1 N3 E3)]]|].
  split; [exact N4|split; [exact E4|exact (P4 s start root _ _ _ h _ _ H1 N4 E4)]].
Defined.


Lemma pres_ret {A} (a : A) : preserves (st_ret a).
Proof. intros h H. exact H. Qed.

Lemma pres_bind {A B} (m : St A) (k : A -> St B) :
  preserves m -> (forall a, preserves (k a)) -> preserves (st_bind m k).
Proof.
  intros Hm Hk h H. unfold st_bind. specialize (Hm h H).
  destruct (m h) as [a h1]. apply Hk. exact Hm.
Qed.

Lemma pres_map {A B} (f : A -> St B) xs :
  (forall x, In x xs -> preserves (f x)) -> preserves (st_map f xs).
Proof.
  induction xs as [|x xs IH]; intros Hf; simpl; [apply pres_ret|].
  apply pres_bind; [apply Hf; left; reflexivity|intros y].
  apply pres_bind; [apply IH; intros; apply Hf; right; assumption|intros; apply pres_ret].
Qed.

Lemma pres_fold {A B} (f : B -> A -> St B) xs acc :
  (forall x acc, In x xs -> preserves (f acc x)) -> preserves (st_fold f xs acc).
Proof.
  revert acc. induction xs as [|x xs IH]; intros acc Hf; simpl; [apply pres_ret|].
  apply pres_bind; [apply Hf; left; reflexivity|intros acc'].
  apply IH. intros; apply Hf; right; assumption.
Qed.

Lemma column_of_no_dataType e : col_cell (column_of e).
Proof.
  unfold column_of, rest_props, assign.
  destruct e as [| | | | | |ps| |]; simpl; eexists; split; try reflexivity.
  rewrite phas_passign. simpl.
  assert (forall qs k, phas (pdel qs k) k = false) as Hd.
  { clear. intros qs k. induction qs as [|[k0 v0] qs IH]; simpl; [reflexivity|].
    destruct (String.eqb k k0) eqn:E; simpl; [exact IH|]. rewrite E. exact IH. }
  rewrite Hd. reflexivity.
Qed.

Lemma pres_table_step acc e : preserves (table_step acc e).
Proof.
  unfold table_step.
  destruct (negb (truthy e)); [apply pres_ret|].
  destruct (jstr_is (get e "type") "column").
  - apply pres_bind; [|intros; apply pres_ret].
    intros h H. simpl. apply Forall_app. split; [exact H|]. constructor; [|constructor].
    apply column_of_no_dataType.
  - repeat match goal with |- preserves (if ?b then _ else _) => destruct b end; apply pres_ret.
Qed.

Lemma pres_Table_action a b c : preserves (Table_action a b c).
Proof.
  unfold Table_action. destruct c; try apply pres_ret.
  apply pres_fold. intros; apply pres_table_step.
Qed.

Ltac pres_step IH :=
  first
  [ apply pres_ret
  | apply pres_Table_action
  | apply pres_bind; [|intros]
  | apply pres_map; intros
  | apply pres_fold; intros
  | match goal with
    | |- preserves (toAST _ ?x) =>
        first
        [ apply (IH x); [solve [assumption | simpl; repeat (first [left; reflexivity | right])] | apply NO_self]
        | match goal with Hx : In x ?els |- _ =>
            eapply (IH (CIter _ _ els));
            [solve [simpl; repeat (first [left; reflexivity | right])] | eapply NO_iter; [exact Hx | apply NO_self]]
          end
        | match goal with Hx : In x ?els |- _ =>
            eapply (IH (CNode _ _ _ els));
            [solve [simpl; repeat (first [left; reflexivity | right])] | eapply NO_node; [exact Hx | apply NO_self]]
          end ]
    end
  | match goal with |- preserves (if ?b then _ else _) => destruct b end
  | match goal with |- preserves (match ?x with _ => _ end) => destruct x end
  | match goal with |- preserves (let (_, _) := ?p in _) => destruct p end ].

Lemma pres_toAST_all s n : forall m, node_of m n -> preserves (toAST s m).
Proof.
  induction n as [st ln|r st ln kids IH|st ln kids IH] using cst_ind'; intros m Hm.
  - inversion Hm; subst. apply pres_ret.
  - rewrite Forall_forall in IH.
    inversion Hm as [|? ? ? ? k Hk Hmk|]; subst; [|eapply IH; eassumption].
    simpl. destruct r; repeat pres_step IH.
  - rewrite Forall_forall in IH.
    inversion Hm as [| |? ? ? k Hk Hmk]; subst; [|eapply IH; eassumption].
    simpl. repeat pres_step IH.
Qed.

Lemma pset_pset ps k v w : pset (pset ps k v) k w = pset ps k w.
Proof.
  induction ps as [|[k' v'] ps IH]; simpl.
  - rewrite String.eqb_refl. reflexivity.
  - destruct (String.eqb k k') eqn:E; simpl; rewrite E; [reflexivity|]. rewrite IH. reflexivity.
Qed.

Lemma phas_pset ps k v k' : phas (pset ps k v) k' = String.eqb k' k || phas ps k'.
Proof.
  induction ps as [|[k0 v0] ps IH]; simpl.
  - destruct (String.eqb k' k); reflexivity.
  - destruct (String.eqb k k0) eqn:E; simpl.
    + apply String.eqb_eq in E; subst. destruct (String.eqb k' k0); reflexivity.
    + rewrite IH. destruct (String.eqb k' k0), (String.eqb k' k); reflexivity.
Qed.

Lemma pdel_absent ps k : phas ps k = false -> pdel ps k = ps.
Proof.
  induction ps as [|[k0 v0] ps IH]; simpl; [reflexivity|].
  intros H. apply orb_false_iff in H as [H1 H2]. rewrite H1, IH by assumption. reflexivity.
Qed.

Lemma nth_error_heap_update h l v l' :
  l < length h ->
  nth_error (heap_update h l v) l' = if Nat.eqb l' l then Some v else nth_error h l'.
Proof.
  intros Hl. unfold heap_update.
  assert (Lf : length (firstn l h) = l) by (rewrite length_firstn; lia).
  destruct (Nat.compare_spec l' l) as [->|Hlt|Hgt].
  - rewrite Nat.eqb_refl, nth_error_app2 by lia. rewrite Lf, Nat.sub_diag. reflexivity.
  - replace (Nat.eqb l' l) with false by (symmetry; apply Nat.eqb_neq; lia).
    rewrite nth_error_app1 by lia. rewrite nth_error_firstn.
    destruct (Nat.ltb_spec l' l); [reflexivity|lia].
  - replace (Nat.eqb l' l) with false by (symmetry; apply Nat.eqb_neq; lia).
    rewrite nth_error_app2 by lia. rewrite Lf.
    destruct (l' - l) as [|k] eqn:K; [lia|]. cbn [nth_error]. rewrite nth_error_skipn.
    f_equal; lia.
Qed.

Lemma length_heap_update h l v : l < length h -> length (heap_update h l v) = length h.
Proof.
  intros Hl. unfold heap_update. rewrite length_app. cbn [length]. rewrite length_firstn, length_skipn. lia.
Qed.

Lemma Forall_nth {A} (P : A -> Prop) xs l x : Forall P xs -> nth_error xs l = Some x -> P x.
Proof. intros H E. rewrite Forall_forall in H. apply H. eapply nth_error_In; eassumption. Qed.

Lemma cell_rel_refl R h : cell_rel R h h.
Proof. split; [reflexivity|]. intros l. left. reflexivity. Qed.

Lemma cell_rel_trans R h1 h2 h3 : cell_rel R h1 h2 -> cell_rel R h2 h3 -> cell_rel R h1 h3.
Proof.
  intros [L1 C1] [L2 C2]. split; [congruence|]. intros l.
  destruct (C1 l) as [E1|[R1 [ps [t [E1 F1]]]]]; destruct (C2 l) as [E2|[R2 [ps' [t' [E2 F2]]]]].
  - left. congruence.
  - right. split; [assumption|]. rewrite <- E1. eauto.
  - right. split; [assumption|]. rewrite E2. eauto.
  - right. split; [assumption|]. rewrite F1 in E2. injection E2 as <-.
    exists ps, t'. rewrite pset_pset in F2. auto.
Qed.

Lemma cell_rel_mono (R R' : nat -> Prop) h h' : (forall l, R l -> R' l) -> cell_rel R h h' -> cell_rel R' h h'.
Proof.
  intros HR [L C]. split; [assumption|]. intros l.
  destruct (C l) as [E|[Rl X]]; [left; assumption | right; auto].
Qed.

Lemma cells_pres_rel R h h' : Forall col_cell h -> cell_rel R h h' -> Forall col_cell h'.
Proof.
  intros Hc [L C]. apply Forall_forall. intros x Hx. apply In_nth_error in Hx as [l Hx].
  destruct (C l) as [E|[_ [ps [t [E F]]]]].
  - rewrite E in Hx. eapply Forall_nth; eassumption.
  - rewrite F in Hx. injection Hx as <-.
    eapply Forall_nth in Hc; [|eassumption]. destruct Hc as [ps0 [Hp Hd]].
    injection Hp as <-. exists (pset ps "type" t). split; [reflexivity|].
    rewrite phas_pset. rewrite Hd. reflexivity.
Qed.

Lemma map_column_rel P h c h' :
  Forall col_cell h -> map_column P h c = Some h' ->
  cell_rel (fun l => c = JRef l) h h'.
Proof.
  intros Hc H. destruct c as [| | | | | | |l|]; simpl in H; try discriminate;
    try (injection H as <-; apply cell_rel_refl).
  destruct (nth_error h l) as [[| | | | | |ps| |]|] eqn:N; injection H as <-; try apply cell_rel_refl.
  assert (Hl : l < length h) by (apply nth_error_Some; congruence).
  eapply Forall_nth in Hc; [|eassumption]. destruct Hc as [ps0 [Hp Hd]]. injection Hp as <-.
  rewrite pdel_absent by (rewrite phas_pset; exact Hd).
  split; [apply length_heap_update; assumption|]. intros l'.
  rewrite nth_error_heap_update by assumption.
  destruct (Nat.eqb_spec l' l) as [->|Hne]; [|left; reflexivity].
  right. split; [reflexivity|]. eauto.
Qed.

Lemma map_columns_rel P cols : forall h h',
  Forall col_cell h -> map_columns P h cols = Some h' ->
  cell_rel (fun l => In (JRef l) cols) h h'.
Proof.
  induction cols as [|c cs IH]; simpl; intros h h' Hc H.
  - injection H as <-. apply cell_rel_refl.
  - destruct (map_column P h c) as [h1|] eqn:E; [|discriminate].
    pose proof (map_column_rel _ _ _ _ Hc E) as R1.
    eapply cell_rel_trans.
    + eapply cell_rel_mono; [|exact R1]. simpl. intros l ->. left. reflexivity.
    + eapply cell_rel_mono; [|eapply IH; [eapply cells_pres_rel; eassumption | exact H]].
      simpl. auto.
Qed.

Lemma map_tables_rel P ts : forall h h',
  Forall col_cell h -> map_tables P h ts = Some h' ->
  cell_rel (fun l => exists t cols, In t ts /\ js_iter (get t "columns") = Some cols /\ In (JRef l) cols) h h'.
Proof.
  induction ts as [|t ts IH]; simpl; intros h h' Hc H.
  - injection H as <-. apply cell_rel_refl.
  - destruct (table_columns t) as [cv|] eqn:Tc; [|discriminate].
    destruct (js_iter cv) as [cols|] eqn:Ji; [|discriminate].
    destruct (map_columns P h cols) as [h1|] eqn:E; [|discriminate].
    assert (cv = get t "columns") as ->.
    { destruct t; simpl in Tc; try discriminate; injection Tc as <-; reflexivity. }
    pose proof (map_columns_rel _ _ _ _ Hc E) as R1.
    eapply cell_rel_trans.
    + eapply cell_rel_mono; [|exact R1]. simpl. intros l Hl. exists t, cols. auto.
    + eapply cell_rel_mono; [|eapply IH; [eapply cells_pres_rel; eassumption | exact H]].
      simpl. intros l [t' [cols' [? ?]]]. exists t', cols'. auto.
Qed.

Lemma rf_arr xs : ref_free (JArr xs) = forallb ref_free xs.
Proof. induction xs as [|x xs IH]; simpl; [reflexivity|]. simpl in IH. rewrite IH. reflexivity. Qed.

Lemma rf_obj ps : ref_free (JObj ps) = forallb (fun kv => ref_free (snd kv)) ps.
Proof. induction ps as [|[k x] ps IH]; simpl; [reflexivity|]. simpl in IH. rewrite IH. reflexivity. Qed.

Lemma rf_arr_Forall xs : Forall (fun v => ref_free v = true) xs -> ref_free (JArr xs) = true.
Proof. rewrite rf_arr, forallb_forall, Forall_forall. auto. Qed.

Lemma rf_arr_inv xs x : ref_free (JArr xs) = true -> In x xs -> ref_free x = true.
Proof. rewrite rf_arr, forallb_forall. auto. Qed.

Lemma rf_obj_cons k v ps : ref_free v = true -> ref_free (JObj ps) = true -> ref_free (JObj ((k, v) :: ps)) = true.
Proof. intros H1 H2. simpl. rewrite H1. exact H2. Qed.

Lemma rf_pget ps k : ref_free (JObj ps) = true -> ref_free (pget ps k) = true.
Proof.
  induction ps as [|[k' x] ps IH]; simpl; [reflexivity|].
  intros H. apply andb_true_iff in H as [H1 H2]. destruct (String.eqb k k'); auto.
Qed.

Lemma rf_get o k : ref_free o = true -> ref_free (get o k) = true.
Proof. destruct o; cbn [get]; auto using rf_pget. Qed.

Lemma rf_pset ps k v : ref_free (JObj ps) = true -> ref_free v = true -> ref_free (JObj (pset ps k v)) = true.
Proof.
  induction ps as [|[k' x] ps IH]; simpl; intros H Hv; [rewrite Hv; reflexivity|].
  apply andb_true_iff in H as [H1 H2]. destruct (String.eqb k k'); simpl.
  - rewrite Hv. exact H2.
  - rewrite H1. apply IH; assumption.
Qed.

Lemma rf_set o k v : ref_free o = true -> ref_free v = true -> ref_free (set o k v) = true.
Proof. destruct o; cbn [set]; auto using rf_pset. Qed.

Lemma rf_pdel ps k : ref_free (JObj ps) = true -> ref_free (JObj (pdel ps k)) = true.
Proof.
  induction ps as [|[k' x] ps IH]; simpl; intros H; [reflexivity|].
  apply andb_true_iff in H as [H1 H2]. destruct (String.eqb k k'); simpl; auto.
  rewrite H1. auto.
Qed.

Lemma rf_passign ps qs : ref_free (JObj ps) = true -> ref_free (JObj qs) = true ->
  ref_free (JObj (passign ps qs)) = true.
Proof.
  unfold passign. revert ps. induction qs as [|[k x] qs IH]; simpl; intros ps H1 H2; [exact H1|].
  apply andb_true_iff in H2 as [H2 H3]. apply IH; [apply rf_pset|]; assumption.
Qed.

Lemma rf_assign o v : ref_free o = true -> ref_free v = true -> ref_free (assign o v) = true.
Proof. destruct o, v; cbn [assign]; auto; apply rf_passign. Qed.

Lemma rf_push o k v : ref_free o = true -> ref_free v = true -> ref_free (push o k v) = true.
Proof.
  intros H1 H2. unfold push. destruct (get o k) eqn:E; auto.
  apply rf_set; [assumption|]. rewrite rf_arr, forallb_app. simpl. rewrite H2.
  pose proof (rf_get o k H1) as G. rewrite E, rf_arr in G. rewrite G. reflexivity.
Qed.

Lemma rf_idx0 v : ref_free v = true -> ref_free (idx0 v) = true.
Proof. destruct v as [| | | | |[|x xs]| | |]; simpl; auto. intros H. apply andb_true_iff in H as [H _]. exact H. Qed.

Lemma rf_js_strcat v t : ref_free (js_strcat v t) = true.
Proof. destruct v; reflexivity. Qed.

Lemma rf_nullish a b : ref_free a = true -> ref_free b = true -> ref_free (nullish a b) = true.
Proof. destruct a; cbn [nullish]; auto. Qed.

Lemma rf_rest_props e : ref_free e = true -> ref_free (rest_props e) = true.
Proof. destruct e; cbn [rest_props]; auto. intros H. apply rf_pdel, rf_pdel, H. Qed.

Lemma rf_assign_obj ps v : ref_free (JObj ps) = true -> ref_free v = true ->
  ref_free (match v with JObj qs => JObj (passign ps qs) | _ => JObj ps end) = true.
Proof. intros H1 H2. exact (rf_assign (JObj ps) v H1 H2). Qed.

Ltac rf_base :=
  first [ assumption | reflexivity | apply Forall_nil | apply Forall_cons | apply rf_assign_obj
        | apply rf_assign | apply rf_obj_cons | apply rf_arr_Forall | apply rf_get | apply rf_set
        | apply rf_push | apply rf_idx0 | apply rf_js_strcat | apply rf_nullish | apply rf_rest_props ].

Lemma rf_column_of e : ref_free e = true -> ref_free (column_of e) = true.
Proof. intros H. unfold column_of. repeat rf_base. Qed.

Lemma rf_partial_step r e : ref_free r = true -> ref_free e = true -> ref_free (partial_step r e) = true.
Proof.
  intros H1 H2. unfold partial_step.
  repeat match goal with |- ref_free (if ?b then _ else _) = true => destruct b end;
    repeat (rf_base || apply rf_column_of).
Qed.

Lemma rf_fold_partial es r : ref_free (JArr es) = true -> ref_free r = true ->
  ref_free (fold_left partial_step es r) = true.
Proof.
  revert r. induction es as [|e es IH]; simpl; intros r H1 H2; [exact H2|].
  apply andb_true_iff in H1 as [H1 H3]. apply IH; [exact H3|]. apply rf_partial_step; assumption.
Qed.

Lemma rf_project_body_step p x : ref_free p = true -> ref_free x = true ->
  ref_free (project_body_step p x) = true.
Proof.
  intros H1 H2. unfold project_body_step. destruct (get x "key"); auto.
  destruct (String.eqb _ _); repeat rf_base.
Qed.

Lemma rf_project_of n p : ref_free n = true -> ref_free p = true -> ref_free (project_of n p) = true.
Proof. intros. unfold project_of. repeat rf_base. Qed.

Lemma rf_schema_step sc a : ref_free sc = true -> ref_free a = true -> ref_free (schema_step sc a) = true.
Proof.
  intros H1 H2. unfold schema_step. destruct a; auto. cbv zeta.
  repeat match goal with |- ref_free (if ?b then _ else _) = true => destruct b end;
    repeat (rf_base || match goal with |- ref_free (if ?b then _ else _) = true => destruct b end).
Qed.

Ltac rf_solve :=
  repeat (rf_base || apply rf_column_of || apply rf_partial_step || apply rf_fold_partial
          || apply rf_project_body_step || apply rf_project_of || apply rf_schema_step).

Lemma pure_ret {A} `{RFree A} (a : A) : rfree a -> pure_st (st_ret a).
Proof. intros Ha h. split; [reflexivity|exact Ha]. Qed.

Lemma pure_bind {A B} `{RFree A} `{RFree B} (m : St A) (k : A -> St B) :
  pure_st m -> (forall a, rfree a -> pure_st (k a)) -> pure_st (st_bind m k).
Proof.
  intros Hm Hk h. unfold st_bind. specialize (Hm h).
  destruct (m h) as [a h1]. simpl in Hm. destruct Hm as [-> Ha]. apply Hk. exact Ha.
Qed.

Lemma pure_map (f : cst -> St jv) xs :
  (forall x, In x xs -> pure_st (f x)) -> pure_st (st_map f xs).
Proof.
  induction xs as [|x xs IH]; intros Hf; simpl; [apply pure_ret; constructor|].
  apply pure_bind; [apply Hf; left; reflexivity|intros y Hy].
  apply pure_bind; [apply IH; intros; apply Hf; right; assumption|intros ys Hys].
  apply pure_ret. constructor; assumption.
Qed.

Lemma pure_fold (f : jv -> cst -> St jv) xs acc :
  rfree acc -> (forall x acc, In x xs -> rfree acc -> pure_st (f acc x)) -> pure_st (st_fold f xs acc).
Proof.
  revert acc. induction xs as [|x xs IH]; intros acc Ha Hf; simpl; [apply pure_ret; exact Ha|].
  apply pure_bind; [apply Hf; [left; reflexivity|exact Ha]|intros acc' Ha'].
  apply IH; [exact Ha'|]. intros; apply Hf; [right|]; assumption.
Qed.

Ltac in_solve := solve [assumption | simpl; repeat (first [left; reflexivity | right])].

Ltac pure_step IH Hnt :=
  first
  [ apply pure_ret; unfold rfree, rfree_jv, rfree_list, rfree_opt in *; rf_solve
  | apply pure_bind; [|intros]
  | apply pure_map; intros
  | apply pure_fold; [unfold rfree, rfree_jv in *; rf_solve | intros]
  | match goal with
    | |- pure_st (toAST _ ?x) =>
        first
        [ apply (IH x); [in_solve | apply NO_self
                        | intros ? ?; apply Hnt;
                          first [apply NO_node with (k := x) | apply NO_iter with (k := x)];
                          [in_solve | eassumption]]
        | match goal with Hx : In x ?els |- _ =>
            first
            [ eapply (IH (CIter _ _ els));
              [in_solve | eapply NO_iter; [exact Hx | apply NO_self]
              | intros ? ?; apply Hnt;
                first [eapply NO_node with (k := CIter _ _ els) | eapply NO_iter with (k := CIter _ _ els)];
                [in_solve | eapply NO_iter; [exact Hx | eassumption]]]
            | eapply (IH (CNode _ _ _ els));
              [in_solve | eapply NO_node; [exact Hx | apply NO_self]
              | intros ? ?; apply Hnt;
                first [eapply NO_node with (k := CNode _ _ _ els) | eapply NO_iter with (k := CNode _ _ _ els)];
                [in_solve | eapply NO_node; [exact Hx | eassumption]]] ]
          end ]
    end
  | match goal with |- pure_st (if ?b then _ else _) => destruct b end
  | match goal with |- pure_st (match ?x with _ => _ end) => destruct x end ].

Lemma pure_toAST_all s n : forall m, node_of m n -> table_free m -> pure_st (toAST s m).
Proof.
  induction n as [st ln|r st ln kids IH|st ln kids IH] using cst_ind'; intros m Hm Hnt.
  - inversion Hm; subst. apply pure_ret. reflexivity.
  - rewrite Forall_forall in IH.
    inversion Hm as [|? ? ? ? k Hk Hmk|]; subst; [|eapply IH; eassumption].
    assert (Hr : r <> R_Table) by (intros ->; exact (Hnt _ (NO_self _))).
    simpl. destruct r; try (exfalso; apply Hr; reflexivity); repeat pure_step IH Hnt.
  - rewrite Forall_forall in IH.
    inversion Hm as [| |? ? ? k Hk Hmk]; subst; [|eapply IH; eassumption].
    simpl. repeat pure_step IH Hnt.
Qed.

Lemma rule_ok_closed r : rule_ok r = true -> forallb rule_ok (rules_of (rule_body r)) = true.
Proof. destruct r; try discriminate; reflexivity. Qed.

Lemma rules_of_alt e es : In e es -> forallb rule_ok (rules_of (EAlt es)) = true ->
  forallb rule_ok (rules_of e) = true.
Proof.
  induction es as [|e1 es IH]; simpl; [contradiction|].
  intros [<-|Hin] H; rewrite forallb_app in H; apply andb_true_iff in H as [H1 H2]; auto.
Qed.

Lemma iter_nodes_ok_tree ar st ln rows :
  Forall (Forall ok_tree) rows -> Forall ok_tree (iter_nodes ar st ln rows).
Proof.
  intros Hr. unfold iter_nodes. apply Forall_forall. intros x Hx.
  apply in_map_iff in Hx as [i [<- _]]. constructor.
  apply Forall_forall. intros k Hk. apply in_flat_map in Hk as [row [Hrow Hk]].
  rewrite Forall_forall in Hr. specialize (Hr row Hrow). rewrite Forall_forall in Hr.
  destruct (nth_error row i) eqn:N; [|contradiction].
  destruct Hk as [<-|[]]. apply Hr. eapply nth_error_In; eauto.
Qed.

Lemma fits_ok_tree s syn e pos bs p :
  fitsP s syn e pos bs p -> forallb rule_ok (rules_of e) = true -> Forall ok_tree bs.
Proof.
  intros H.
  induction H using fitsP_mut with
    (P0 := fun syn e pos rows q _ => forallb rule_ok (rules_of e) = true -> Forall (Forall ok_tree) rows)
    (P1 := fun e sep p els r _ => forallb rule_ok (rules_of e) = true -> Forall ok_tree els);
    intros Hr; simpl in Hr.
  all: try (repeat constructor; fail).
  - constructor; [|constructor]. apply OT_node. destruct (rule_ok r); [reflexivity|discriminate].
  - rewrite forallb_app in Hr. apply andb_true_iff in Hr as [H1 H2].
    apply Forall_app. split; auto.
  - apply IHfitsP. eapply rules_of_alt; eassumption.
  - apply iter_nodes_ok_tree. auto.
  - apply iter_nodes_ok_tree. auto.
  - apply iter_nodes_ok_tree. constructor; auto.
  - apply iter_nodes_ok_tree. constructor.
  - rewrite forallb_app in Hr. apply andb_true_iff in Hr as [H1 H2].
    constructor; [|constructor]. apply OT_list. apply Forall_app. split; auto.
  - constructor; auto.
  - apply Forall_app. split; auto.
Qed.

Lemma ok_tree_desc s m c : node_of m c -> all_ok s c -> ok_tree c -> ok_tree m.
Proof.
  intros H. induction H as [|r st ln kids k Hk Hmk IH|st ln kids k Hk Hmk IH]; intros Ha Ho; [exact Ho| |].
  - apply IH; [intros n Hn; apply Ha; eapply NO_node; eassumption|].
    inversion Ho as [| |? ? ? Hf|? ? ? ? Hr]; subst.
    + rewrite Forall_forall in Hf. auto.
    + specialize (Ha _ (NO_self _)). destruct Ha as [->|Hf]; [discriminate|].
      apply fits_ok_tree in Hf; [|apply rule_ok_closed; exact Hr].
      rewrite Forall_forall in Hf. auto.
  - apply IH; [intros n Hn; apply Ha; eapply NO_iter; eassumption|].
    inversion Ho as [|? ? ? Hf| |]; subst. rewrite Forall_forall in Hf. auto.
Qed.

Lemma ok_tree_table_free s c : all_ok s c -> ok_tree c -> table_free c.
Proof.
  intros Ha Ho m Hm. pose proof (ok_tree_desc s m c Hm Ha Ho) as Hm'.
  inversion Hm'; subst; simpl; auto. destruct r; auto; discriminate.
Qed.

Lemma get_set_ne o k v k' : String.eqb k' k = false -> get (set o k v) k' = get o k'.
Proof. intros H. destruct o; try reflexivity. simpl. rewrite pget_pset, H. reflexivity. Qed.

Lemma get_push_ne o k v k' : String.eqb k' k = false -> get (push o k v) k' = get o k'.
Proof. intros H. unfold push. destruct (get o k); try reflexivity. apply get_set_ne, H. Qed.

Lemma table_step_type acc e h :
  get acc "type" = JS "table" -> get (fst (table_step acc e h)) "type" = JS "table".
Proof.
  intros H. unfold table_step.
  destruct (negb (truthy e)); [exact H|].
  destruct (jstr_is (get e "type") "column").
  - simpl. rewrite !get_push_ne by reflexivity. exact H.
  - repeat match goal with |- context [if ?b then _ else _] => destruct b end;
      simpl; rewrite ?get_set_ne, ?get_push_ne by reflexivity; exact H.
Qed.

Lemma Table_action_type a b c h : get (fst (Table_action a b c h)) "type" = JS "table".
Proof.
  unfold Table_action.
  assert (H0 : get (table_init a) "type" = JS "table").
  { unfold table_init. destruct a; try reflexivity.
    destruct (phas props "schema"); [|reflexivity]. rewrite get_set_ne by reflexivity. reflexivity. }
  assert (H1 : get (match b with Some a0 => set (table_init a) "alias" (idx0 a0) | None => table_init a end)
                   "type" = JS "table").
  { destruct b; [rewrite get_set_ne by reflexivity|]; exact H0. }
  revert H1. generalize (match b with Some a0 => set (table_init a) "alias" (idx0 a0) | None => table_init a end).
  intros r Hr. destruct c as [| | | | |es| | |]; try exact Hr.
  revert r h Hr. induction es as [|x xs IH]; intros r h Hr; [exact Hr|].
  simpl. unfold st_bind. pose proof (table_step_type r x h Hr) as Hx.
  destruct (table_step r x h) as [r1 h1]. apply IH. exact Hx.
Qed.

Lemma toAST_Table_type s st ln k1 k2 k3 k4 k5 k6 h :
  get (fst (toAST s (CNode R_Table st ln [k1; k2; k3; k4; k5; k6]) h)) "type" = JS "table".
Proof.
  cbn [toAST]. unfold st_bind.
  destruct (toAST s k2 h) as [n1 h1].
  destruct (if present k3 then _ else _) as [a1 h2].
  destruct (toAST s k5 h2) as [b1 h3].
  apply Table_action_type.
Qed.

Lemma get_push_same o k v ps :
  get (push o k v) k = JArr ps -> exists xs, get o k = JArr xs /\ (ps = (xs ++ [v])%list \/ ps = xs).
Proof.
  unfold push. destruct (get o k) eqn:E; intros H; try (rewrite E in H; discriminate).
  destruct o; simpl in *; try (rewrite E in H; discriminate).
  rewrite pget_pset, String.eqb_refl in H. injection H as <-. eauto.
Qed.

Lemma schema_step_partials sc a : partials_ok sc -> partial_candidate a -> partials_ok (schema_step sc a).
Proof.
  intros Hs Ha. unfold schema_step. destruct a as [| | | | | |ps| |]; try exact Hs.
  destruct (phas ps "type"); [|exact Hs]. cbv zeta.
  destruct (jstr_is (pget ps "type") "project").
  { intros qs Hq. rewrite !get_set_ne in Hq by reflexivity. auto. }
  destruct (jstr_is (pget ps "type") "table").
  { intros qs Hq. rewrite get_push_ne in Hq by reflexivity. auto. }
  destruct (jstr_is (pget ps "type") "tablePartial") eqn:Ep.
  { intros qs Hq. apply get_push_same in Hq as [xs [Hx Hq]].
    assert (Hxs : Forall (fun p => ref_free p = true) xs).
    { destruct (truthy (get sc "partials")); [auto|].
      destruct sc; simpl in Hx; try (apply Hs; exact Hx).
      rewrite pget_pset, String.eqb_refl in Hx. injection Hx as <-. constructor. }
    destruct Hq as [ -> | -> ]; [|exact Hxs].
    apply Forall_app. split; [exact Hxs|]. constructor; [|constructor]. apply Ha. exact Ep. }
  repeat match goal with |- partials_ok (if ?b then _ else _) => destruct b end;
    intros qs Hq; rewrite ?get_push_ne in Hq by reflexivity; auto.
Qed.

Lemma schema_fold_partials asts : Forall partial_candidate asts ->
  forall sc, partials_ok sc -> partials_ok (fold_left schema_step asts sc).
Proof.
  induction 1 as [|a asts Ha Has IH]; intros sc Hs; simpl; [exact Hs|].
  apply IH, schema_step_partials; assumption.
Qed.

Lemma node_of_trans a b c : node_of a b -> node_of b c -> node_of a c.
Proof.
  intros Hab Hbc. induction Hbc; [exact Hab| eapply NO_node | eapply NO_iter]; eauto.
Qed.

Section Tree.
Variable s : string.

Lemma grammar_match_root start root :
  grammar_match s start = MatchOk root -> app_node s start root.
Proof.
  unfold grammar_match.
  destruct (eval rule_body s DEPTH _ _ 0 (0, [])) as [|[p ds]|bs p f] eqn:E; try discriminate.
  destruct bs as [|root' [|]]; try discriminate. intros H; injection H as <-.
  apply eval_sound in E. remember [root'] as L eqn:EL.
  inversion E as [| | | | | | |? ? ? ? bs1 p1 bss ? G1 G2| | | | | | | |]; subst.
  apply fits_app_node in G1.
  inversion G2 as [| | | | | | |? ? ? ? bs2 p2 bss2 ? G3 G4| | | | | | | |]; subst.
  inversion G3; subst. inversion G4; subst.
  match goal with Hl : (bs1 ++ _)%list = [root'] |- _ => simpl in Hl; rewrite app_nil_r in Hl; subst bs1 end.
  inversion G1; assumption.
Qed.

Lemma rows_fit_app syn r pos rows q :
  rows_fit s syn (EApp r) pos rows q -> Forall (fun row => exists x, row = [x] /\ app_node s r x) rows.
Proof.
  intros H. remember (EApp r) as e eqn:Ee. induction H as [|? ? ? bs p rows q Hf Hr IH]; subst; constructor; auto.
  pose proof (fits_app_node _ _ _ _ _ _ Hf) as Ha.
  inversion Hf; subst. inversion Ha; subst. eauto.
Qed.

Lemma star_app_kids syn r pos kids p :
  fitsP s syn (EStar (EApp r)) pos kids p ->
  exists st ln els, kids = [CIter st ln els] /\ Forall (app_node s r) els.
Proof.
  intros H. inversion H as [| | | | | | | | |? ? ? rows q Hr| | | | | |]; subst.
  apply rows_fit_app in Hr. unfold iter_nodes. simpl. do 3 eexists. split; [reflexivity|].
  apply Forall_forall. intros x Hx. apply in_flat_map in Hx as [row [Hrow Hx]].
  rewrite Forall_forall in Hr. destruct (Hr row Hrow) as [y [-> Hy]]. simpl in Hx.
  destruct Hx as [<-|[]]. exact Hy.
Qed.

Lemma table_kids st ln kids :
  fitsP s (is_syntactic R_Table) (rule_body R_Table) st kids (st + ln) ->
  exists k1 k2 k3 k4 k5 k6, kids = [k1; k2; k3; k4; k5; k6].
Proof.
  intros H. simpl in H. finv; finv_app; do 6 eexists; reflexivity.
Qed.

Lemma element_candidate root x h :
  grammar_match s R_Schema = MatchOk root -> node_of x root -> app_node s R_Element x ->
  partial_candidate (fst (toAST s x h)).
Proof.
  intros Hg Hx [q [ln [kids [-> Hf]]]].
  assert (Ha : all_ok s (CNode R_Element q ln kids)).
  { intros n Hn. apply (grammar_match_fits s R_Schema root Hg). eapply node_of_trans; eassumption. }
  simpl in Hf.
  inversion Hf as [| | | | | | | |? ? ? ? ? ? Hin He| | | | | | |]; subst.
  assert (Hc : exists r c, kids = [c] /\ app_node s r c /\ (rule_ok r = true \/ r = R_Table)).
  { simpl in Hin. unfold G.A in Hin.
    repeat destruct Hin as [<-|Hin]; try contradiction;
      pose proof (fits_app_node _ _ _ _ _ _ He) as Hap; inversion He; subst;
      inversion Hap; subst; do 2 eexists; (split; [reflexivity|]); (split; [eassumption|]); auto. }
  destruct Hc as [r [c [-> [[q' [ln' [kids' [-> Hc]]]] Hok]]]].
  change (toAST s (CNode R_Element q ln [CNode r q' ln' kids']) h) with (toAST s (CNode r q' ln' kids') h).
  intros Hp.
  destruct Hok as [Hok| ->].
  - assert (Htf : table_free (CNode r q' ln' kids')).
    { apply (ok_tree_table_free s); [|apply OT_node, Hok].
      intros n Hn. apply Ha. eapply NO_node; [left; reflexivity|exact Hn]. }
    exact (proj2 (pure_toAST_all s _ _ (NO_self _) Htf h)).
  - destruct (table_kids _ _ _ Hc) as (k1 & k2 & k3 & k4 & k5 & k6 & ->).
    rewrite toAST_Table_type in Hp. discriminate.
Qed.

End Tree.

Lemma st_map_candidates s root els h :
  grammar_match s R_Schema = MatchOk root ->
  (forall x, In x els -> node_of x root /\ app_node s R_Element x) ->
  Forall partial_candidate (fst (st_map (toAST s) els h)).
Proof.
  intros Hg. revert h. induction els as [|x els IH]; intros h Hx; simpl; [constructor|].
  unfold st_bind. pose proof (Hx x (or_introl eq_refl)) as [Hn Ha].
  pose proof (element_candidate s root x h Hg Hn Ha) as Hc.
  destruct (toAST s x h) as [v h1].
  assert (IH1 : Forall partial_candidate (fst (st_map (toAST s) els h1))).
  { apply IH. intros y Hy. apply Hx. right. exact Hy. }
  destruct (st_map (toAST s) els h1) as [vs h2]. simpl in *. constructor; assumption.
Qed.

Lemma parse_eq P dbml sr : parse P dbml sr =
  match ohm_match dbml sr with
  | MatchAbort => PAbort
  | MatchFail pos expected =>
      PParseError (new_ParseError {| fail_input := dbml; fail_pos := pos; fail_expected := expected |})
  | MatchOk root =>
      let (ast, h) := toAST dbml root [] in
      if truthy (get ast "tables") then
        match js_iter (get ast "tables") with
        | Some tables => match map_tables P h tables with
                         | Some h' => PDoc ast h'
                         | None => PTypeError
                         end
        | None => PTypeError
        end
      else PDoc ast h
  end.
Proof. reflexivity. Qed.

Lemma parse_doc_rel P dbml d h' :
     parse P dbml None = PDoc d h' ->
     exists root h, ohm_match dbml None = MatchOk root /\ toAST dbml root [] = (d, h) /\
       cell_rel (table_col_ref d) h h'.
Proof.
  intros H. rewrite parse_eq in H.
  destruct (ohm_match dbml None) as [root| |] eqn:Em; try discriminate.
  destruct (toAST dbml root []) as [ast h] eqn:Et.
  assert (Hc : Forall col_cell h).
  { pose proof (pres_toAST_all dbml root root (NO_self _) [] (Forall_nil _)) as Hp.
    rewrite Et in Hp. exact Hp. }
  assert (Hrel : cell_rel (table_col_ref ast) h h').
  { destruct (truthy (get ast "tables")).
    - destruct (js_iter (get ast "tables")) as [ts|] eqn:Ji; [|discriminate].
      destruct (map_tables P h ts) as [h2|] eqn:Mt; [|discriminate].
      injection H as <- <-.
      eapply cell_rel_mono; [|eapply map_tables_rel; eassumption].
      intros l [t [cols [? [? ?]]]]. exists ts, t, cols. auto.
    - injection H as <- <-. apply cell_rel_refl. }
  assert (d = ast) as ->.
  { destruct (truthy (get ast "tables")); [|congruence].
    destruct (js_iter (get ast "tables")); [|discriminate].
    destruct (map_tables P h l); [|discriminate]. congruence. }
  exists root, h. auto.
Qed.

Lemma ohm_match_gen dbml sr :
  ohm_match dbml sr = grammar_match dbml (match sr with Some r => r | None => R_Schema end).
Proof. reflexivity. Qed.

Lemma ohm_match_None dbml : ohm_match dbml None = grammar_match dbml R_Schema.
Proof. exact (ohm_match_gen dbml None). Qed.

Lemma parse_partials_ref_free dbml root d h :
  ohm_match dbml None = MatchOk root -> toAST dbml root [] = (d, h) ->
  forall ps, get d "partials" = JArr ps -> Forall (fun p => ref_free p = true) ps.
Proof.
  intros Em Et.
  rewrite ohm_match_None in Em.
  destruct (grammar_match_root _ _ _ Em) as [q [ln [kids [-> Hf]]]].
  simpl in Hf. destruct (star_app_kids _ _ _ _ _ _ Hf) as [st [ln' [els [-> Hels]]]].
  assert (Hd : toAST dbml (CNode R_Schema q ln [CIter st ln' els]) []
               = st_fold (fun schema element => let* a := toAST dbml element in st_ret (schema_step schema a))
                         els schema_init []) by reflexivity.
  rewrite Hd, (st_fold_map (toAST dbml) schema_step) in Et. injection Et as <- _.
  apply schema_fold_partials.
  - eapply st_map_candidates; [exact Em|]. intros x Hx. split.
    + eapply NO_node; [left; reflexivity|]. eapply NO_iter; [exact Hx|apply NO_self].
    + rewrite Forall_forall in Hels. auto.
  - intros ps Hps. injection Hps as <-. constructor.
Qed.

(** C10: on success, [parse] returns the document built by the semantics
    itself, and the type mapping changes no part of it but the column
    objects referenced from a table's [columns] list; in those, it changes
    only the value of the key [type] (keeping its place).  Every entry of
    the document's [partials] holds no reference to a shared object, so no
    TablePartial column is reached by the mapping: its type stays the one
    the semantics built from the source.  Example: with the mapping
    kinstant -> timestamp with time zone, the partial's column [c kinstant]
    keeps the type kinstant while the table's column [d kinstant] is
    mapped. *)
Theorem TypeMapper_only_table_columns :
  (forall P dbml d h',
     parse P dbml None = PDoc d h' ->
     exists root h,
       ohm_match dbml None = MatchOk root /\ toAST dbml root [] = (d, h) /\
       length h' = length h /\
       (forall l, nth_error h' l = nth_error h l \/
          ((exists ts t cols, js_iter (get d "tables") = Some ts /\ In t ts /\
                              js_iter (get t "columns") = Some cols /\ In (JRef l) cols) /\
           exists ps ty, nth_error h l = Some (JObj ps) /\
                         nth_error h' l = Some (JObj (pset ps "type" ty)))) /\
       (forall ps, get d "partials" = JArr ps -> Forall (fun p => ref_free p = true) ps))
  /\ parse (new_Parser [("kinstant", "timestamp with time zone")])
        "TablePartial p { c kinstant } Table t { ~p d kinstant }" None
     = PDoc (JObj [("name", JS "database");
                   ("tables",
                    JArr [JObj [("type", JS "table"); ("name", JS "t");
                                ("columns", JArr [JRef 0]); ("indexes", JArr []);
                                ("elements",
                                 JArr [JObj [("type", JS "partialRef"); ("ref", JObj [("name", JS "p")])];
                                       JObj [("type", JS "column"); ("column", JRef 0)]])]]);
                   ("refs", JArr []); ("enums", JArr []); ("tableGroups", JArr []);
                   ("project", JUndef);
                   ("partials",
                    JArr [JObj [("type", JS "tablePartial"); ("name", JS "p");
                                ("columns", JArr [JObj [("name", JS "c"); ("type", JS "kinstant")]]);
                                ("indexes", JArr [])]])])
            [JObj [("name", JS "d"); ("type", JS "timestamp with time zone")]].
Proof.
  split; [|vm_compute; reflexivity].
  intros P dbml d h' H.
  destruct (parse_doc_rel _ _ _ _ H) as [root [h [Em [Et [Hl Hrel]]]]].
  exists root, h. split; [exact Em|]. split; [exact Et|]. split; [exact Hl|]. split.
  - exact Hrel.
  - exact (parse_partials_ref_free _ _ _ _ Em Et).

Qed.

Lemma TypeMapper_only_table_columns_witness :
  let P := new_Parser [("kinstant", "timestamp with time zone")] in
  let dbml := "TablePartial p { c kinstant } Table t { ~p d kinstant }" in
  let d := match parse P dbml None with PDoc d _ => d | _ => JUndef end in
  let h' := match parse P dbml None with PDoc _ h => h | _ => [] end in
  parse P dbml None = PDoc d h' /\
  exists root h,
    ohm_match dbml None = MatchOk root /\ toAST dbml root [] = (d, h) /\
    length h' = length h /\
    (forall l, nth_error h' l = nth_error h l \/
       ((exists ts t cols, js_iter (get d "tables") = Some ts /\ In t ts /\
                           js_iter (get t "columns") = Some cols /\ In (JRef l) cols) /\
        exists ps ty, nth_error h l = Some (JObj ps) /\
                      nth_error h' l = Some (JObj (pset ps "type" ty)))) /\
    (forall ps, get d "partials" = JArr ps -> Forall (fun p => ref_free p = true) ps).
Proof.
  intros P dbml d h'.
  assert (H1 : parse P dbml None = PDoc d h') by (vm_compute; reflexivity).
  split; [exact H1|].
  exact (proj1 TypeMapper_only_table_columns P dbml d h' H1).
Defined.

Lemma sappend_assoc (x y z : string) : x ++ y ++ z = (x ++ y) ++ z.
Proof. induction x as [|c x IH]; simpl; [reflexivity|]. rewrite IH. reflexivity. Qed.

Lemma sappend_nil_r (x : string) : x ++ EmptyString = x.
Proof. induction x as [|c x IH]; simpl; [reflexivity|]. rewrite IH. reflexivity. Qed.

Lemma slength_app (x y : string) : String.length (x ++ y) = String.length x + String.length y.
Proof. induction x as [|c x IH]; simpl; [reflexivity|]. rewrite IH. reflexivity. Qed.

Lemma sappend_str1 (x y : string) c : (x ++ str1 c) ++ y = x ++ String c y.
Proof. rewrite <- sappend_assoc. reflexivity. Qed.

Lemma newline_count_app x y : newline_count (x ++ y) = newline_count x + newline_count y.
Proof. induction x as [|c x IH]; simpl; [reflexivity|]. rewrite IH. lia. Qed.

Lemma split_nl_app_nl x y : split_nl (x ++ String c_nl y) = (split_nl x ++ split_nl y)%list.
Proof.
  induction x as [|c x IH]; simpl; [reflexivity|].
  rewrite IH. destruct (Ascii.eqb c c_nl); [reflexivity|].
  destruct (split_nl x) eqn:E; [destruct x; simpl in E; [discriminate|];
    destruct (Ascii.eqb a c_nl); [discriminate|]; destruct (split_nl x); discriminate|].
  reflexivity.
Qed.

Lemma split_nl_nonl x : newline_count x = 0 -> split_nl x = [x].
Proof.
  induction x as [|c x IH]; simpl; [reflexivity|].
  destruct (Ascii.eqb c c_nl); simpl; [discriminate|]. intros H. rewrite IH by exact H. reflexivity.
Qed.

Lemma split_nl_length x : length (split_nl x) = newline_count x + 1.
Proof.
  induction x as [|c x IH]; simpl; [reflexivity|].
  destruct (Ascii.eqb c c_nl); simpl; [rewrite IH; reflexivity|].
  destruct (split_nl x); simpl in *; lia.
Qed.

Lemma last_line_decomp x : exists a l, x = a ++ l /\ newline_count l = 0 /\
  (a = EmptyString \/ exists a', a = a' ++ str1 c_nl).
Proof.
  induction x as [|c x IH].
  - exists EmptyString, EmptyString. auto.
  - destruct IH as [a [l [-> [Hl [-> | [a' ->]]]]]].
    + destruct (Ascii.eqb c c_nl) eqn:E.
      * apply Ascii.eqb_eq in E as ->. exists (str1 c_nl), l. split; [reflexivity|].
        split; [exact Hl|]. right. exists EmptyString. reflexivity.
      * exists EmptyString, (String c l). simpl. rewrite E, Hl. auto.
    + exists (String c a' ++ str1 c_nl), l. split; [|split; [exact Hl|right; eexists; reflexivity]].
      simpl. rewrite <- sappend_assoc. reflexivity.
Qed.

Lemma first_line_decomp x : exists l b, x = l ++ b /\ newline_count l = 0 /\
  (b = EmptyString \/ exists b', b = String c_nl b').
Proof.
  induction x as [|c x IH].
  - exists EmptyString, EmptyString. auto.
  - destruct (Ascii.eqb c c_nl) eqn:E.
    + apply Ascii.eqb_eq in E as ->. exists EmptyString, (String c_nl x). simpl. eauto.
    + destruct IH as [l [b [-> [Hl Hb]]]]. exists (String c l), b. simpl. rewrite E, Hl. auto.
Qed.

Lemma prefix_split (s : string) k : k <= String.length s ->
  exists r, s = substring 0 k s ++ r /\ String.length (substring 0 k s) = k.
Proof.
  revert k. induction s as [|c s IH]; intros k Hk.
  - simpl in Hk. assert (k = 0) as -> by lia. exists EmptyString. auto.
  - destruct k as [|k].
    + exists (String c s). auto.
    + simpl in Hk. destruct (IH k) as [r [Hr Hl]]; [lia|].
      exists r. simpl. rewrite <- Hr. auto.
Qed.

Lemma get_app (x y : string) j :
  String.get j (x ++ y) = if j <? String.length x then String.get j x else String.get (j - String.length x) y.
Proof.
  revert j. induction x as [|c x IH]; intros j; simpl.
  - rewrite Nat.sub_0_r. reflexivity.
  - destruct j; simpl; [reflexivity|]. rewrite IH. reflexivity.
Qed.

Lemma nonl_get l j : newline_count l = 0 -> String.get j l <> Some c_nl.
Proof.
  revert j. induction l as [|c l IH]; intros j H; simpl; [discriminate|].
  simpl in H. destruct (Ascii.eqb c c_nl) eqn:E; [discriminate|].
  destruct j; [|apply IH; exact H].
  intros Hc. injection Hc as ->. rewrite Ascii.eqb_refl in E. discriminate.
Qed.

(** C6: for a match failure at offset [k] of the input, the ParseError's
    line is the number of newlines before [k] plus one, and its column is
    [k + 1] when no newline precedes [k] and otherwise [k - j] for the
    offset [j] of the last newline before [k] (both 1-based).  The
    formatted message shows the message, the line and column, the text of
    the input line holding offset [k] (between the newlines around it) and
    below it a caret after [column - 1] spaces. *)
Theorem ParseError_line_column (m : ohm_failure) :
  fail_pos m <= String.length (fail_input m) ->
  let s := fail_input m in
  let k := fail_pos m in
  let e := new_ParseError m in
  pe_line e = newline_count (substring 0 k s) + 1 /\
  ((forall j, j < k -> String.get j s <> Some c_nl) -> pe_column e = k + 1) /\
  (forall j, j < k -> String.get j s = Some c_nl ->
     (forall i, j < i -> i < k -> String.get i s <> Some c_nl) -> pe_column e = k - j) /\
  exists a line b,
    s = a ++ line ++ b /\ newline_count line = 0 /\
    (a = EmptyString \/ exists a', a = a' ++ str1 c_nl) /\
    (b = EmptyString \/ exists b', b = String c_nl b') /\
    String.length a + (pe_column e - 1) = k /\ k <= String.length a + String.length line /\
    getFormattedMessage e =
      pe_message e ++ str1 c_nl ++ str1 c_nl ++ "Line " ++ nat_to_string (pe_line e)
        ++ ", column " ++ nat_to_string (pe_column e) ++ ":" ++ str1 c_nl
        ++ line ++ str1 c_nl ++ repeat_str " " (pe_column e - 1) ++ "^".
Proof.
  destruct m as [s k ex]. cbn [fail_input fail_pos]. intros Hk. cbv zeta.
  destruct (prefix_split s k Hk) as [r [Hs HP]].
  remember (substring 0 k s) as P eqn:EP.
  destruct (last_line_decomp P) as [a [l1 [HPa [Hl1 Ha]]]].
  destruct (first_line_decomp r) as [l2 [b [Hr [Hl2 Hb]]]].
  assert (Hs' : s = a ++ (l1 ++ l2) ++ b).
  { rewrite Hs, HPa, Hr, !sappend_assoc. reflexivity. }
  assert (Hline : newline_count (l1 ++ l2) = 0) by (rewrite newline_count_app; lia).
  assert (Hk' : k = String.length a + String.length l1) by (rewrite <- HP, HPa, slength_app; reflexivity).
  assert (Hrest : exists T, split_nl ((l1 ++ l2) ++ b) = (l1 ++ l2) :: T).
  { destruct Hb as [-> | [b' ->]].
    - exists []. rewrite sappend_nil_r, split_nl_nonl by exact Hline. reflexivity.
    - exists (split_nl b'). rewrite split_nl_app_nl, split_nl_nonl by exact Hline. reflexivity. }
  destruct Hrest as [T HT].
  assert (Hcase : (a = EmptyString /\ split_nl P = [l1] /\ split_nl s = (l1 ++ l2) :: T /\
                   newline_count P = 0)
               \/ exists a', a = a' ++ str1 c_nl /\ split_nl P = (split_nl a' ++ [l1])%list /\
                   split_nl s = (split_nl a' ++ ((l1 ++ l2)%string :: T))%list /\
                   newline_count P = length (split_nl a')).
  { destruct Ha as [-> | [a' ->]].
    - left. simpl in HPa. rewrite HPa, split_nl_nonl by exact Hl1. simpl in Hs'. rewrite Hs', HT.
      auto.
    - right. exists a'. split; [reflexivity|].
      rewrite HPa, Hs', !sappend_str1, !split_nl_app_nl, (split_nl_nonl l1 Hl1).
      split; [reflexivity|]. split; [rewrite HT; reflexivity|].
      rewrite newline_count_app, split_nl_length. simpl. rewrite Hl1. reflexivity. }
  assert (Hlast : last (split_nl P) EmptyString = l1).
  { destruct Hcase as [[_ [-> _]] | [a' [_ [-> _]]]]; [reflexivity | apply last_last]. }
  assert (Hnth : nth_error (split_nl s) (newline_count P) = Some (l1 ++ l2)).
  { destruct Hcase as [[_ [_ [-> ->]]] | [a' [_ [_ [-> ->]]]]]; [reflexivity|].
    rewrite nth_error_app2, Nat.sub_diag by lia. reflexivity. }
  unfold new_ParseError, slice0, getFormattedMessage. cbn [pe_line pe_column pe_input pe_message fail_input fail_pos].
  rewrite <- EP, Hlast, split_nl_length.
  split; [reflexivity|]. split; [|split].
  - intros Hno. destruct Hcase as [[-> _] | [a' [-> _]]]; [simpl in Hk'; lia|].
    exfalso. apply (Hno (String.length a')).
    + rewrite Hk', slength_app. simpl. lia.
    + rewrite Hs', sappend_str1, get_app, Nat.ltb_irrefl, Nat.sub_diag. reflexivity.
  - intros j Hj Hjn Hbet. destruct Hcase as [[-> _] | [a' [-> _]]].
    + exfalso. simpl in Hk', Hs'. rewrite Hs', <- sappend_assoc, get_app in Hjn.
      destruct (Nat.ltb_spec j (String.length l1)); [|lia].
      exact (nonl_get l1 j Hl1 Hjn).
    + rewrite slength_app in Hk'. simpl in Hk'.
      rewrite Hs', sappend_str1 in Hjn, Hbet.
      destruct (Nat.lt_total j (String.length a')) as [Hlt | [Heq | Hgt]].
      * exfalso. apply (Hbet (String.length a')); [exact Hlt | lia |].
        rewrite get_app, Nat.ltb_irrefl, Nat.sub_diag. reflexivity.
      * lia.
      * exfalso. rewrite get_app in Hjn.
        destruct (Nat.ltb_spec j (String.length a')); [lia|].
        destruct (j - String.length a') as [|j'] eqn:Ej; [lia|]. simpl in Hjn.
        rewrite <- sappend_assoc, get_app in Hjn.
        destruct (Nat.ltb_spec j' (String.length l1)); [|lia].
        exact (nonl_get l1 j' Hl1 Hjn).
  - exists a, (l1 ++ l2), b. split; [exact Hs'|]. split; [exact Hline|].
    split; [destruct Hcase as [[-> _] | [a' [-> _]]]; eauto|]. split; [exact Hb|].
    split; [lia|]. split; [rewrite slength_app; lia|].
    rewrite Nat.add_sub, Hnth. reflexivity.
Qed.

Lemma ParseError_line_column_witness :
  let s := "Table t {" ++ str1 c_nl ++ "  id int;" ++ str1 c_nl ++ "}" in
  let m := {| fail_input := s; fail_pos := 18;
              fail_expected := match ohm_match s None with MatchFail _ ex => ex | _ => [] end |} in
  parse (new_Parser []) s None = PParseError (new_ParseError m) /\
  fail_pos m <= String.length (fail_input m) /\
  pe_line (new_ParseError m) = newline_count (substring 0 18 s) + 1 /\
  pe_line (new_ParseError m) = 2 /\ pe_column (new_ParseError m) = 9.
Proof.
  intros s m.
  assert (Hp : parse (new_Parser []) s None = PParseError (new_ParseError m)) by (vm_compute; reflexivity).
  assert (Hle : fail_pos m <= String.length (fail_input m)) by (vm_compute; lia).
  destruct (ParseError_line_column m Hle) as [Hl _].
  split; [exact Hp|]. split; [exact Hle|]. split; [exact Hl|].
  split; vm_compute; reflexivity.
Defined.

(** C2: the type mapping reads the merged table as a plain JavaScript
    object, so a type named like a property of [Object.prototype] is looked
    up there: the column type [constructor] becomes the [Object] function
    itself, although no mapping has that key.  And a mapping to the empty
    string is not applied, since [mapType] falls back to the type on a
    falsy value: [text[]] mapped to the empty string stays [text[]]. *)
Lemma TypeMapper_lookup_not_exact :
  (exists d, parse (new_Parser []) "Table t { c constructor }" None
             = PDoc d [JObj [("name", JS "c"); ("type", JNative "constructor")]])
  /\ (exists d, parse (new_Parser [("text[]", EmptyString)]) "Table t { c text[] }" None
             = PDoc d [JObj [("name", JS "c"); ("type", JS "text[]")]]).
Proof. split; eexists; vm_compute; reflexivity. Qed.

(** C5: [parse] can fail with neither a Document nor a syntax error: a
    Project with a setting [type: 'table'] is routed by the Schema action to
    [tables], which then holds the Project object, and the type mapping
    loop fails on it with a TypeError. *)
Lemma parse_project_type_table_TypeError :
  parse (new_Parser []) "Project p { type: 'table' }" None = PTypeError.
Proof. vm_compute. reflexivity. Qed.

(** C7: [reservedWord] is an ordered choice followed by a lookahead; on
    [tablepartial] and [tablegroup] the choice takes [table] and the
    lookahead then fails on the next letter, so neither word is reserved
    and both are accepted as identifiers, here a table name and a column
    name. *)
Lemma reserved_tablepartial_tablegroup_identifiers :
  exists d, parse (new_Parser []) "Table tablepartial { tablegroup int }" None
            = PDoc d [JObj [("name", JS "tablegroup"); ("type", JS "int")]]
         /\ js_iter (get d "tables") = Some [JObj [("type", JS "table"); ("name", JS "tablepartial");
                    ("columns", JArr [JRef 0]); ("indexes", JArr []);
                    ("elements", JArr [JObj [("type", JS "column"); ("column", JRef 0)]])]].
Proof. eexists. split; vm_compute; reflexivity. Qed.

(** ** Further properties of the code *)

(** X1: [validate] and [parse] agree on every input, whatever the two
    parsers' type mappings: [validate] says valid exactly when [parse]
    returns a document or throws the TypeError of its type-mapping loop,
    invalid with message [msg] exactly when [parse] throws a ParseError
    whose message is [msg], and gives up exactly when [parse] does. *)
Theorem validate_agrees_with_parse P Q s :
  (validate P s = Valid <-> (parse Q s None = PTypeError \/ exists d h, parse Q s None = PDoc d h)) /\
  (forall msg, validate P s = Invalid msg <->
     exists e, parse Q s None = PParseError e /\ pe_message e = msg) /\
  (validate P s = VAbort <-> parse Q s None = PAbort).
Proof.
  rewrite parse_eq, ohm_match_None. unfold validate.
  destruct (grammar_match s R_Schema) as [root|pos ex|].
  - destruct (toAST s root []) as [ast h].
    assert (Hr : (if truthy (get ast "tables") then
                    match js_iter (get ast "tables") with
                    | Some tables => match map_tables Q h tables with
                                     | Some h' => PDoc ast h' | None => PTypeError end
                    | None => PTypeError end
                  else PDoc ast h) = PTypeError \/
                 exists d h', (if truthy (get ast "tables") then
                    match js_iter (get ast "tables") with
                    | Some tables => match map_tables Q h tables with
                                     | Some h' => PDoc ast h' | None => PTypeError end
                    | None => PTypeError end
                  else PDoc ast h) = PDoc d h').
    { destruct (truthy (get ast "tables")); [|right; eauto].
      destruct (js_iter (get ast "tables")) as [ts|]; [|left; reflexivity].
      destruct (map_tables Q h ts) as [h'|]; [right; eauto|left; reflexivity]. }
    split; [split; [intros _; exact Hr|reflexivity]|].
    split; [intros msg; split; [discriminate|]|split; [discriminate|]].
    + intros [e [He _]]. destruct Hr as [Hr|[d [h' Hr]]]; rewrite Hr in He; discriminate.
    + intros He. destruct Hr as [Hr|[d [h' Hr]]]; rewrite Hr in He; discriminate.
  - split; [split; [discriminate|intros [H|[d [h H]]]; discriminate]|].
    split; [|split; discriminate].
    intros msg. split.
    + intros H. injection H as <-. eexists. split; reflexivity.
    + intros [e [He <-]]. injection He as <-. reflexivity.
  - split; [split; [discriminate|intros [H|[d [h H]]]; discriminate]|].
    split; [|split; reflexivity].
    intros msg. split; [discriminate|intros [e [He _]]; discriminate].
Qed.

Lemma pget_in_nodup ps k v : NoDup (map fst ps) -> In (k, v) ps -> pget ps k = v.
Proof.
  induction ps as [|[k0 v0] ps IH]; simpl; [contradiction|]. intros Hnd [E|Hin]; inversion Hnd; subst.
  - injection E as <- <-. rewrite String.eqb_refl. reflexivity.
  - destruct (String.eqb k k0) eqn:Ek.
    + apply String.eqb_eq in Ek. subst. exfalso. apply H1. apply (in_map fst) in Hin. exact Hin.
    + apply IH; assumption.
Qed.

Lemma map_fst_user (user : list (string * string)) :
  map fst (map (fun kv => (fst kv, JS (snd kv))) user) = map fst user.
Proof. rewrite map_map. reflexivity. Qed.

(** X2: for a parser built from user type mappings with distinct keys,
    [mapType] sends a type with a non-empty user mapping to it, keeps a
    type whose user mapping is the empty string, sends an unmapped
    [kinstant] to [timestamp with time zone] and an unmapped [kjson] to
    [jsonb], and returns any other unmapped type that is no property name
    of [Object.prototype] unchanged. *)
Theorem mapType_new_Parser user t :
  NoDup (map fst user) ->
  (forall v, In (t, v) user -> v <> EmptyString -> mapType (new_Parser user) (JS t) = JS v) /\
  (In (t, EmptyString) user -> mapType (new_Parser user) (JS t) = JS t) /\
  (~ In t (map fst user) -> t = "kinstant" ->
     mapType (new_Parser user) (JS t) = JS "timestamp with time zone") /\
  (~ In t (map fst user) -> t = "kjson" -> mapType (new_Parser user) (JS t) = JS "jsonb") /\
  (~ In t (map fst user) -> ~ In t ("kinstant" :: "kjson" :: "__proto__" :: object_prototype_names) ->
     mapType (new_Parser user) (JS t) = JS t).
Proof.
  intros Hnd.
  set (u := map (fun kv => (fst kv, JS (snd kv))) user).
  assert (Hnd' : NoDup (map fst u)) by (unfold u; rewrite map_fst_user; exact Hnd).
  assert (Hlk : mapType (new_Parser user) (JS t) =
                jor (plain_lookup (passign [("kinstant", JS "timestamp with time zone"); ("kjson", JS "jsonb")] u) t)
                    (JS t)) by reflexivity.
  assert (Hin : forall v, In (t, v) user -> phas u t = true /\ pget u t = JS v).
  { intros v Hv. assert (Hu : In (t, JS v) u) by (unfold u; apply (in_map (fun kv => (fst kv, JS (snd kv))) _ _ Hv)).
    split; [apply phas_in; apply (in_map fst) in Hu; exact Hu|].
    apply pget_in_nodup; assumption. }
  assert (Hout : ~ In t (map fst user) -> phas u t = false).
  { intros Hn. destruct (phas u t) eqn:E; [|reflexivity]. apply phas_in in E.
    unfold u in E. rewrite map_fst_user in E. contradiction. }
  assert (Hlook : forall v, phas u t = true -> pget u t = v ->
            plain_lookup (passign [("kinstant", JS "timestamp with time zone"); ("kjson", JS "jsonb")] u) t = v).
  { intros v Hp Hg. unfold plain_lookup. rewrite phas_passign, Hp, orb_true_r, pget_passign, Hp by exact Hnd'.
    exact Hg. }
  split; [|split; [|split; [|split]]].
  - intros v Hv Hne. destruct (Hin v Hv) as [Hp Hg]. rewrite Hlk, (Hlook _ Hp Hg).
    unfold jor. simpl. destruct (String.eqb v EmptyString) eqn:E; [|reflexivity].
    apply String.eqb_eq in E. contradiction.
  - intros Hv. destruct (Hin _ Hv) as [Hp Hg]. rewrite Hlk, (Hlook _ Hp Hg). reflexivity.
  - intros Hn ->. rewrite Hlk. unfold plain_lookup.
    rewrite phas_passign, (Hout Hn), pget_passign, (Hout Hn) by exact Hnd'. reflexivity.
  - intros Hn ->. rewrite Hlk. unfold plain_lookup.
    rewrite phas_passign, (Hout Hn), pget_passign, (Hout Hn) by exact Hnd'. reflexivity.
  - intros Hn Hp. rewrite Hlk. unfold plain_lookup.
    rewrite phas_passign, (Hout Hn), orb_false_r.
    assert (Hd : phas [("kinstant", JS "timestamp with time zone"); ("kjson", JS "jsonb")] t = false).
    { simpl. destruct (String.eqb t "kinstant") eqn:E1; [apply String.eqb_eq in E1; subst; exfalso; apply Hp; left; reflexivity|].
      destruct (String.eqb t "kjson") eqn:E2; [apply String.eqb_eq in E2; subst; exfalso; apply Hp; right; left; reflexivity|].
      reflexivity. }
    rewrite Hd.
    destruct (String.eqb t "__proto__") eqn:E3; [apply String.eqb_eq in E3; subst; exfalso; apply Hp; right; right; left; reflexivity|].
    destruct (existsb (String.eqb t) object_prototype_names) eqn:E4; [|reflexivity].
    apply existsb_exists in E4. destruct E4 as [x [Hx Ex]]. apply String.eqb_eq in Ex. subst.
    exfalso. apply Hp. right; right; right. exact Hx.
Qed.

Lemma table_fold_heap es : forall r xs h v h',
  get r "columns" = JArr xs ->
  st_fold table_step es r h = (v, h') ->
  h' = (h ++ map column_of (filter is_column_element es))%list /\
  get v "columns" = JArr (xs ++ map JRef (seq (length h) (length (filter is_column_element es)))).
Proof.
  induction es as [|e es IH]; intros r xs h v h' Hc E; simpl in E.
  - injection E as <- <-. simpl. rewrite !app_nil_r. auto.
  - unfold st_bind in E. destruct (table_step r e h) as [r1 h1] eqn:E1.
    cbn [filter]. replace (is_column_element e) with (truthy e && jstr_is (get e "type") "column") by reflexivity.
    unfold table_step in E1.
    destruct (truthy e) eqn:Et; simpl in E1 |- *.
    + destruct (jstr_is (get e "type") "column") eqn:Ec; simpl in E1 |- *; rewrite ?Ec.
      * unfold st_bind, alloc, st_ret in E1. injection E1 as <- <-.
        assert (Hc1 : get (push (push r "columns" (JRef (length h))) "elements"
                         (JObj [("type", JS "column"); ("column", JRef (length h))])) "columns"
                      = JArr (xs ++ [JRef (length h)])).
        { rewrite get_push_ne by reflexivity. unfold push. rewrite Hc.
          destruct r; try discriminate. simpl. rewrite pget_pset. reflexivity. }
        destruct (IH _ _ _ _ _ Hc1 E) as [-> ->]. split.
        -- rewrite <- app_assoc. reflexivity.
        -- rewrite length_app, <- app_assoc. simpl. rewrite Nat.add_1_r. reflexivity.
      * assert (Hr1 : get r1 "columns" = JArr xs /\ h1 = h).
        { rewrite <- Hc.
          repeat match type of E1 with context [if ?b then _ else _] => destruct b end;
            unfold st_ret in E1; cbv beta in E1; injection E1 as <- <-;
            rewrite ?get_set_ne, ?get_push_ne by reflexivity; auto. }
        destruct Hr1 as [Hr1 ->]. exact (IH _ _ _ _ _ Hr1 E).
    + unfold st_ret in E1. cbv beta in E1. injection E1 as <- <-. exact (IH _ _ _ _ _ Hc E).
Qed.

Lemma Table_action_heap nameInfo aliasInfo es h v h' :
  Table_action nameInfo aliasInfo (JArr es) h = (v, h') ->
  h' = (h ++ map column_of (filter is_column_element es))%list /\
  get v "columns" = JArr (map JRef (seq (length h) (length (filter is_column_element es)))).
Proof.
  intros E. unfold Table_action in E.
  refine (proj1 (conj (table_fold_heap es _ [] h v h' _ E) I)); clear E.
  assert (H0 : get (table_init nameInfo) "columns" = JArr []).
  { unfold table_init. destruct nameInfo; try reflexivity.
    destruct (phas props "schema"); [|reflexivity]. rewrite get_set_ne by reflexivity. reflexivity. }
  destruct aliasInfo; [rewrite get_set_ne by reflexivity|]; exact H0.
Qed.


(** X3: the Table action allocates one new heap cell per column element
    of its body, in order, at the end of the heap, and the table's
    [columns] refer to exactly these cells. *)
Theorem Table_action_columns_heap nameInfo aliasInfo es h v h' :
  Table_action nameInfo aliasInfo (JArr es) h = (v, h') ->
  h' = (h ++ map column_of (filter is_column_element es))%list /\
  get v "columns" = JArr (map JRef (seq (length h) (length (filter is_column_element es)))).
Proof. apply Table_action_heap. Qed.

Lemma table_step_other r e h k :
  table_body_key k = false -> get (fst (table_step r e h)) k = get r k.
Proof.
  intros Hk. unfold table_body_key in Hk. simpl in Hk.
  repeat rewrite orb_false_iff in Hk. destruct Hk as (H1 & H2 & H3 & H4 & H5 & H6 & _).
  unfold table_step.
  destruct (negb (truthy e)); [reflexivity|].
  destruct (jstr_is (get e "type") "column").
  - simpl. rewrite !get_push_ne by assumption. reflexivity.
  - repeat match goal with |- context [if ?b then _ else _] => destruct b end;
      simpl; rewrite ?get_set_ne, ?get_push_ne by assumption; reflexivity.
Qed.

Lemma table_fold_other es : forall r h k, table_body_key k = false ->
  get (fst (st_fold table_step es r h)) k = get r k.
Proof.
  induction es as [|e es IH]; intros r h k Hk; [reflexivity|].
  simpl. unfold st_bind. pose proof (table_step_other r e h k Hk) as He.
  destruct (table_step r e h) as [r1 h1]. rewrite IH by exact Hk. exact He.
Qed.

Lemma pget_absent ps k : phas ps k = false -> pget ps k = JUndef.
Proof.
  induction ps as [|[k0 v0] ps IH]; simpl; [reflexivity|].
  intros H. apply orb_false_iff in H as [H1 H2]. rewrite H1. exact (IH H2).
Qed.

(** X4: whatever its body, the Table action's result has type [table],
    the name given (the string itself, or the [name] of a qualified
    name), the schema of a qualified name, and as alias the first
    element of the alias value, or none without an alias. *)
Theorem Table_action_identity nameInfo aliasInfo body h :
  let v := fst (Table_action nameInfo aliasInfo body h) in
  get v "type" = JS "table" /\
  get v "name" = match nameInfo with JStr _ => nameInfo | _ => get nameInfo "name" end /\
  get v "schema" = get nameInfo "schema" /\
  get v "alias" = match aliasInfo with Some a => idx0 a | None => JUndef end.
Proof.
  intros v. unfold v, Table_action.
  set (r := match aliasInfo with Some a => set (table_init nameInfo) "alias" (idx0 a)
                                  | None => table_init nameInfo end).
  assert (Hbody : forall k, table_body_key k = false ->
            get (fst (match body with JArr es => st_fold table_step es r | _ => st_ret r end h)) k = get r k).
  { intros k Hk. destruct body; try reflexivity. apply table_fold_other, Hk. }
  rewrite !Hbody by reflexivity.
  assert (Hobj : exists ps, table_init nameInfo = JObj ps).
  { unfold table_init. destruct nameInfo; try (eexists; reflexivity).
    destruct (phas props "schema"); eexists; reflexivity. }
  assert (Hti : get (table_init nameInfo) "type" = JS "table" /\
                get (table_init nameInfo) "name" =
                  match nameInfo with JStr _ => nameInfo | _ => get nameInfo "name" end /\
                get (table_init nameInfo) "schema" = get nameInfo "schema" /\
                get (table_init nameInfo) "alias" = JUndef).
  { unfold table_init. destruct nameInfo as [| | | | |xs|ps| |]; try (simpl; repeat split; reflexivity).
    destruct (phas ps "schema") eqn:Hs.
    - rewrite !get_set by (eexists; reflexivity). simpl. repeat split; reflexivity.
    - simpl. rewrite (pget_absent ps "schema" Hs). repeat split; reflexivity. }
  destruct Hti as (T1 & T2 & T3 & T4).
  unfold r. destruct aliasInfo as [a|].
  - rewrite !get_set by exact Hobj. simpl. repeat split; assumption.
  - repeat split; assumption.
Qed.

Lemma partial_fold es : forall ps xs,
  pget ps "columns" = JArr xs ->
  exists qs, fold_left partial_step es (JObj ps) = JObj qs /\
    pget qs "type" = pget ps "type" /\ pget qs "name" = pget ps "name" /\
    pget qs "columns" = JArr (xs ++ map column_of (filter (fun e => jstr_is (get e "type") "column") es)).
Proof.
  induction es as [|e es IH]; intros ps xs Hc; simpl.
  - exists ps. rewrite app_nil_r. auto.
  - destruct (jstr_is (get e "type") "column") eqn:Ec.
    + assert (Hst : partial_step (JObj ps) e = JObj (pset ps "columns" (JArr (xs ++ [column_of e])))).
      { unfold partial_step, push. rewrite Ec. simpl. rewrite Hc. reflexivity. }
      rewrite Hst.
      destruct (IH (pset ps "columns" (JArr (xs ++ [column_of e]))) (xs ++ [column_of e])%list)
        as [qs [-> [H1 [H2 H3]]]]; [rewrite pget_pset; reflexivity|].
      exists qs. rewrite H1, H2, H3, !pget_pset. simpl. rewrite <- app_assoc. auto.
    + assert (Hst : exists ps', partial_step (JObj ps) e = JObj ps' /\ pget ps' "type" = pget ps "type" /\
                    pget ps' "name" = pget ps "name" /\ pget ps' "columns" = pget ps "columns").
      { unfold partial_step. rewrite Ec.
        repeat match goal with |- context [if ?b then _ else _] => destruct b end;
          simpl; eexists; (split; [reflexivity|]); rewrite ?pget_pset; simpl; auto. }
      destruct Hst as [ps' [-> [H1 [H2 H3]]]].
      destruct (IH ps' xs) as [qs [-> [G1 [G2 G3]]]]; [rewrite H3; exact Hc|].
      exists qs. rewrite G1, G2, G3, H1, H2. auto.
Qed.


Lemma pbs_obj props : forall ps, exists qs, fold_left project_body_step props (JObj ps) = JObj qs.
Proof.
  induction props as [|p props IH]; intros ps; simpl; [eauto|].
  unfold project_body_step at 2. destruct (get p "key"); try apply IH.
  destruct (String.eqb s "__proto__"); apply IH.
Qed.

Lemma pbs_step ps p : exists qs, project_body_step (JObj ps) p = JObj qs /\
  forall k, k <> "__proto__" ->
    pget qs k = (if jstr_is (get p "key") k then get p "value" else pget ps k) /\
    phas qs k = phas ps k || jstr_is (get p "key") k.
Proof.
  unfold project_body_step. destruct (get p "key") eqn:Ep; simpl;
    try (eexists; split; [reflexivity|]; intros k _; rewrite orb_false_r; auto; fail).
  destruct (String.eqb s "__proto__") eqn:Es.
  - eexists; split; [reflexivity|]. intros k Hk. apply String.eqb_eq in Es. subst s.
    destruct (String.eqb "__proto__" k) eqn:E; [apply String.eqb_eq in E; congruence|].
    rewrite orb_false_r. auto.
  - eexists; split; [reflexivity|]. intros k Hk. rewrite pget_pset, phas_pset.
    rewrite (String.eqb_sym s k). destruct (String.eqb k s); simpl; rewrite ?orb_true_r, ?orb_false_r; auto.
Qed.

Lemma pbs_get props k : k <> "__proto__" -> forall ps,
  exists qs, fold_left project_body_step props (JObj ps) = JObj qs /\
  pget qs k = last_prop k props (pget ps k) /\
  phas qs k = phas ps k || existsb (fun p => jstr_is (get p "key") k) props.
Proof.
  intros Hk. unfold last_prop. induction props as [|p props IH]; intros ps; simpl.
  - exists ps. rewrite orb_false_r. auto.
  - destruct (pbs_step ps p) as [qs [-> Hq]]. destruct (Hq k Hk) as [G1 G2].
    destruct (IH qs) as [rs [-> [R1 R2]]]. exists rs. rewrite R1, R2, G1, G2, orb_assoc. split; [reflexivity|].
    split; [|reflexivity]. destruct (jstr_is (get p "key") k); reflexivity.
Qed.

Lemma last_prop_none k props d : existsb (fun p => jstr_is (get p "key") k) props = false ->
  last_prop k props d = d.
Proof.
  unfold last_prop. revert d. induction props as [|p props IH]; intros d H; simpl in *; [reflexivity|].
  apply orb_false_iff in H as [H1 H2]. rewrite H1. apply IH, H2.
Qed.

Lemma last_prop_some k props : existsb (fun p => jstr_is (get p "key") k) props = true ->
  forall d d', last_prop k props d = last_prop k props d'.
Proof.
  unfold last_prop. induction props as [|p props IH]; intros H d d'; simpl in *; [discriminate|].
  destruct (jstr_is (get p "key") k) eqn:E; simpl in H.
  - destruct (existsb (fun p => jstr_is (get p "key") k) props) eqn:E2.
    + apply IH; reflexivity.
    + pose proof (last_prop_none k props (get p "value") E2) as N. unfold last_prop in N. rewrite N. reflexivity.
  - apply IH, H.
Qed.

Lemma nodup_pset ps k v : NoDup (map fst ps) -> NoDup (map fst (pset ps k v)).
Proof.
  induction ps as [|[k0 v0] ps IH]; simpl; intros H.
  - constructor; [intros []|constructor].
  - inversion H as [|? ? Hn Hd]; subst. destruct (String.eqb k k0) eqn:E; simpl; constructor; auto.
    intros Hin. apply Hn.
    assert (Hm : forall x, In x (map fst (pset ps k v)) -> x = k \/ In x (map fst ps)).
    { clear. induction ps as [|[k1 v1] ps IH]; simpl; [intros x [<-|[]]; auto|].
      destruct (String.eqb k k1); simpl; intros x [<-|Hx]; auto; destruct (IH x Hx); auto. }
    destruct (Hm k0 Hin) as [->|]; [|assumption]. rewrite String.eqb_refl in E. discriminate.
Qed.

Lemma pbs_nodup props : forall ps, NoDup (map fst ps) ->
  exists qs, fold_left project_body_step props (JObj ps) = JObj qs /\ NoDup (map fst qs).
Proof.
  induction props as [|p props IH]; intros ps Hps; simpl; [eauto|].
  unfold project_body_step at 2. destruct (get p "key"); try (apply IH; exact Hps).
  destruct (String.eqb s "__proto__"); apply IH; [exact Hps|]. apply nodup_pset, Hps.
Qed.

(** X7: every key of a project but [__proto__] holds the value of the
    last project property with that key; the fields [type] and [name]
    are [project] and the project's name only when no property has that
    key, a property named [type] or [name] overriding them. *)
Theorem Project_properties nm props k :
  k <> "__proto__" ->
  get (project_of nm (fold_left project_body_step props (JObj []))) k =
  last_prop k props (if String.eqb k "type" then JS "project" else if String.eqb k "name" then nm else JUndef).
Proof.
  intros Hk. destruct (pbs_get props k Hk []) as [qs [E [G1 G2]]].
  destruct (pbs_nodup props [] (NoDup_nil _)) as [qs' [E' Hnd]]. rewrite E in E'. injection E' as <-.
  rewrite E. unfold project_of. simpl. rewrite pget_passign by exact Hnd. rewrite G2. simpl.
  destruct (existsb (fun p => jstr_is (get p "key") k) props) eqn:Ex.
  - rewrite G1. apply last_prop_some, Ex.
  - rewrite last_prop_none by exact Ex. reflexivity.
Qed.

Lemma schema_step_obj nm T R E G pj P a :
  schema_step (schema_obj nm T R E G pj P) a =
  if ast_type_is "project" a then schema_obj (get a "name") T R E G a P
  else schema_obj nm (T ++ filter (ast_type_is "table") [a]) (R ++ filter (ast_type_is "ref") [a])
         (E ++ filter (ast_type_is "enum") [a]) (G ++ filter (ast_type_is "tableGroup") [a]) pj
         (P ++ filter (ast_type_is "tablePartial") [a]).
Proof.
  destruct a as [| | | | | |ps| |]; simpl; rewrite ?app_nil_r; try reflexivity.
  destruct (phas ps "type") eqn:Eh.
  - destruct (pget ps "type") as [| | | |t| | | |]; simpl; rewrite ?app_nil_r; try reflexivity.
    destruct (String.eqb t "project") eqn:E1;
      [apply String.eqb_eq in E1; subst; unfold push, set, get, schema_obj; cbn; rewrite ?app_nil_r; reflexivity|].
    destruct (String.eqb t "table") eqn:E2;
      [apply String.eqb_eq in E2; subst; unfold push, set, get, schema_obj; cbn; rewrite ?app_nil_r; reflexivity|].
    destruct (String.eqb t "tablePartial") eqn:E3;
      [apply String.eqb_eq in E3; subst; unfold push, set, get, schema_obj; cbn; rewrite ?app_nil_r; reflexivity|].
    destruct (String.eqb t "ref") eqn:E4;
      [apply String.eqb_eq in E4; subst; unfold push, set, get, schema_obj; cbn; rewrite ?app_nil_r; reflexivity|].
    destruct (String.eqb t "enum") eqn:E5;
      [apply String.eqb_eq in E5; subst; unfold push, set, get, schema_obj; cbn; rewrite ?app_nil_r; reflexivity|].
    destruct (String.eqb t "tableGroup") eqn:E6;
      [apply String.eqb_eq in E6; subst; unfold push, set, get, schema_obj; cbn; rewrite ?app_nil_r; reflexivity|].
    rewrite !app_nil_r. reflexivity.
  - rewrite (pget_absent ps "type" Eh). simpl. rewrite !app_nil_r. reflexivity.
Qed.

Lemma ast_type_is_excl t t' a : ast_type_is t a = true -> ast_type_is t' a = String.eqb t t'.
Proof.
  destruct a as [| | | | | |ps| |]; simpl; try discriminate.
  destruct (pget ps "type"); simpl; try discriminate. intros H. apply String.eqb_eq in H. subst. reflexivity.
Qed.

Lemma schema_fold_obj asts : forall nm T R E G pj P,
  fold_left schema_step asts (schema_obj nm T R E G pj P) =
  schema_obj (if existsb (ast_type_is "project") asts then get (last_project asts pj) "name" else nm)
    (T ++ filter (ast_type_is "table") asts) (R ++ filter (ast_type_is "ref") asts)
    (E ++ filter (ast_type_is "enum") asts) (G ++ filter (ast_type_is "tableGroup") asts)
    (last_project asts pj) (P ++ filter (ast_type_is "tablePartial") asts).
Proof.
  unfold last_project. induction asts as [|a asts IH]; intros nm T R E G pj P.
  - cbn [fold_left existsb filter]. rewrite !app_nil_r. reflexivity.
  - cbn [fold_left existsb filter]. rewrite schema_step_obj. destruct (ast_type_is "project" a) eqn:Ep.
    + rewrite IH, !(ast_type_is_excl "project" _ a Ep). cbn [String.eqb orb]. simpl.
      destruct (existsb (ast_type_is "project") asts) eqn:Ex; [reflexivity|].
      assert (Hl : forall d, fold_left (fun acc a => if ast_type_is "project" a then a else acc) asts d = d).
      { clear -Ex. induction asts as [|b asts IH]; intros d; [reflexivity|].
        simpl in Ex |- *. apply orb_false_iff in Ex as [E1 E2]. rewrite E1. apply IH, E2. }
      rewrite Hl. reflexivity.
    + rewrite IH. cbn [orb]. rewrite <- !app_assoc. cbn [filter].
      destruct (ast_type_is "table" a), (ast_type_is "ref" a), (ast_type_is "enum" a),
        (ast_type_is "tableGroup" a), (ast_type_is "tablePartial" a); reflexivity.
Qed.


Section Bound.
Variable s : string.
Let L := String.length s.

Lemma record_fail_bound q d f : q <= L -> fst f <= L -> fst (record_fail q d f) <= L.
Proof.
  destruct f as [q0 ds]. unfold record_fail. simpl. intros.
  destruct (q0 <? q); [simpl; lia|]. destruct (q =? q0); simpl; lia.
Qed.

Lemma match_at_len ci t : forall q, q <= L -> match_at ci t s q = true -> q + String.length t <= L.
Proof.
  induction t as [|c t IH]; intros q Hq H; simpl in *; [lia|].
  destruct (String.get q s) as [c'|] eqn:G; [|discriminate].
  apply andb_true_iff in H as [_ H]. pose proof (get_lt s q c' G). apply IH in H; [lia|fold L; lia].
Qed.

Lemma char_test_lt test q : char_test test s q = true -> q < L.
Proof.
  unfold char_test. destruct (String.get q s) eqn:G; [|discriminate]. intros _. exact (get_lt s q a G).
Qed.


Lemma seq_eval_bound g es :
  Forall (fun e => gen_bound L (g e)) es ->
  forall pos acc f, pos <= L -> fst f <= L -> out_bound L (seq_eval g es pos acc f).
Proof.
  induction 1 as [|e es He Hes IH]; intros pos acc f Hp Hf; simpl; [auto|].
  specialize (He pos f Hp Hf). destruct (g e pos f) as [|f1|bs1 p1 f1]; simpl in *; auto.
  destruct He. apply IH; assumption.
Qed.

Lemma alt_eval_bound g es :
  Forall (fun e => gen_bound L (g e)) es ->
  forall pos f, pos <= L -> fst f <= L -> out_bound L (alt_eval g es pos f).
Proof.
  induction 1 as [|e es He Hes IH]; intros pos f Hp Hf; simpl; [auto|].
  specialize (He pos f Hp Hf). destruct (g e pos f) as [|f1|bs1 p1 f1]; simpl in *; auto.
Qed.

Lemma star_loop_bound g1 : gen_bound L g1 ->
  forall k p f, p <= L -> fst f <= L ->
  match star_loop g1 k p f with Some (_, q, f') => q <= L /\ fst f' <= L | None => True end.
Proof.
  intros Hg k. induction k as [|k IH]; intros p f Hp Hf; simpl; [exact I|].
  specialize (Hg p f Hp Hf). destruct (g1 p f) as [|f1|bs p1 f1]; simpl in *; auto.
  destruct Hg as [H1 H2]. destruct (p <? p1); [|auto].
  specialize (IH p1 f1 H1 H2). destruct (star_loop g1 k p1 f1) as [[[rows q] f'']|]; auto.
Qed.

Lemma list_loop_bound gsep gel : gen_bound L gsep -> gen_bound L gel ->
  forall k p f, p <= L -> fst f <= L ->
  match list_loop gsep gel k p f with Some (_, r, f') => r <= L /\ fst f' <= L | None => True end.
Proof.
  intros Hs He k. induction k as [|k IH]; intros p f Hp Hf; simpl; [exact I|].
  specialize (Hs p f Hp Hf). destruct (gsep p f) as [|f1|sb ps fs]; simpl in *; auto.
  destruct Hs as [H1 H2]. specialize (He ps fs H1 H2).
  destruct (gel ps fs) as [|f2|bs p' f2]; simpl in *; auto.
  destruct He as [G1 G2]. destruct (p <? p'); [|auto].
  specialize (IH p' f2 G1 G2). destruct (list_loop gsep gel k p' f2) as [[[els r] f'']|]; auto.
Qed.

Lemma go_bound app skip :
  (forall r q f, q <= L -> fst f <= L -> out_bound L (app r q f)) ->
  (forall syn p q, p <= L -> skip syn p = Some q -> q <= L) ->
  forall e syn pos f, pos <= L -> fst f <= L -> out_bound L (go s app skip syn e pos f).
Proof.
  intros Happ Hskip e. induction e as [t|t|lo hi|k|es IH|es IH|e IH|e IH|e IH|e IH|r|e sep IH IHs|]
    using expr_ind'; intros syn pos f Hp Hf; cbn [go].
  - destruct (skip syn pos) as [q|] eqn:Sk; [|exact I]. pose proof (Hskip _ _ _ Hp Sk).
    destruct (match_at false t s q) eqn:M; simpl.
    + pose proof (match_at_len _ _ _ H M). lia.
    + apply record_fail_bound; assumption.
  - destruct (skip syn pos) as [q|] eqn:Sk; [|exact I]. pose proof (Hskip _ _ _ Hp Sk).
    destruct (match_at true t s q) eqn:M; simpl.
    + pose proof (match_at_len _ _ _ H M). lia.
    + apply record_fail_bound; assumption.
  - destruct (skip syn pos) as [q|] eqn:Sk; [|exact I]. pose proof (Hskip _ _ _ Hp Sk).
    destruct (char_test _ s q) eqn:M; simpl.
    + pose proof (char_test_lt _ _ M). lia.
    + apply record_fail_bound; assumption.
  - destruct (skip syn pos) as [q|] eqn:Sk; [|exact I]. pose proof (Hskip _ _ _ Hp Sk).
    destruct (char_test _ s q) eqn:M; simpl.
    + pose proof (char_test_lt _ _ M). lia.
    + apply record_fail_bound; assumption.
  - apply seq_eval_bound; auto. eapply Forall_impl; [|exact IH]. intros e He p f0; apply He.
  - apply alt_eval_bound; auto. eapply Forall_impl; [|exact IH]. intros e He p f0; apply He.
  - pose proof (star_loop_bound _ (IH syn) (S (String.length s)) pos f Hp Hf) as B.
    destruct (star_loop _ _ pos f) as [[[rows q] f1]|]; simpl; auto.
  - pose proof (star_loop_bound _ (IH syn) (S (String.length s)) pos f Hp Hf) as B.
    destruct (star_loop _ _ pos f) as [[[[|row rows] q] f1]|]; simpl; tauto.
  - specialize (IH syn pos f Hp Hf). destruct (go s app skip syn e pos f) as [|f1|bs1 p1 f1]; simpl in *; auto.
  - assert (H0 : fst (0, @nil string) <= L) by (simpl; lia).
    destruct (go s app skip syn e pos (0, [])) as [|f1|bs1 p1 f1]; simpl; auto.
    apply record_fail_bound; assumption.
  - destruct (skip syn pos) as [q|] eqn:Sk; [|exact I]. pose proof (Hskip _ _ _ Hp Sk).
    specialize (Happ r q f H Hf). destruct (app r q f) as [|f1|bs1 p1 f1]; simpl in *; auto.
  - destruct (skip syn pos) as [q|] eqn:Sk; [|exact I]. pose proof (Hskip _ _ _ Hp Sk).
    pose proof (IH true q f H Hf) as G.
    destruct (go s app skip true e q f) as [|f1|bs1 p1 f1]; [exact I| simpl in G |- *; tauto|].
    destruct G as [G1 G2].
    pose proof (list_loop_bound _ _ (IHs true) (IH true) (S (String.length s)) p1 f1 G1 G2) as B.
    destruct (list_loop _ _ _ p1 f1) as [[[els r] f2]|]; simpl in *; tauto.
  - destruct (skip syn pos) as [q|] eqn:Sk; [|exact I]. pose proof (Hskip _ _ _ Hp Sk).
    destruct (q =? String.length s) eqn:M; simpl; [auto|].
    apply record_fail_bound; assumption.
Qed.

Lemma eval_bound n : forall syn e pos f, pos <= L -> fst f <= L ->
  out_bound L (eval rule_body s n syn e pos f).
Proof.
  induction n as [|n IH]; intros syn e pos f Hp Hf; simpl; [exact I|].
  apply go_bound; auto.
  intros [|] p q Hp0 Sk; cbv beta iota in Sk.
  - assert (H0 : fst (0, @nil string) <= L) by (simpl; lia).
    pose proof (IH false (rule_body R_spaces) p (0, []) Hp0 H0) as B.
    destruct (eval rule_body s n false _ p (0, [])) as [|f1|bs1 p1 f1]; try discriminate;
      injection Sk as <-; simpl in B; tauto.
  - injection Sk as <-. exact Hp0.
Qed.

End Bound.

Lemma grammar_match_fail_bound s start pos expected :
  grammar_match s start = MatchFail pos expected -> pos <= String.length s.
Proof.
  unfold grammar_match. intros H.
  pose proof (eval_bound s DEPTH (is_syntactic start) (ESeq [EApp start; EEnd]) 0 (0, [])) as B.
  destruct (eval rule_body s DEPTH _ _ 0 (0, [])) as [|[p ds]|bs p f]; try discriminate.
  - injection H as <- _. simpl in B. apply B; simpl; lia.
  - destruct bs as [|? [|]]; discriminate.
Qed.

(** X9: a ParseError thrown by [parse] is built from a failure on the
    input given, at a position within that input. *)
Theorem parse_error_in_input P dbml sr e :
  parse P dbml sr = PParseError e ->
  exists m, e = new_ParseError m /\ fail_input m = dbml /\ fail_pos m <= String.length dbml.
Proof.
  rewrite parse_eq, ohm_match_gen. intros H.
  destruct (grammar_match dbml _) as [root|pos ex|] eqn:G.
  - destruct (toAST dbml root []) as [ast h].
    destruct (truthy (get ast "tables")); [|discriminate].
    destruct (js_iter (get ast "tables")); [|discriminate].
    destruct (map_tables P h l); discriminate.
  - injection H as <-. eexists. split; [reflexivity|]. simpl. split; [reflexivity|].
    eapply grammar_match_fail_bound; exact G.
  - discriminate.
Qed.

Lemma in_refidx l cols : In l (flat_map refidx cols) <-> In (JRef l) cols.
Proof.
  rewrite in_flat_map. split.
  - intros [c [Hc Hl]]. destruct c; simpl in Hl; try contradiction. destruct Hl as [<-|[]]. exact Hc.
  - intros H. exists (JRef l). simpl. auto.
Qed.

Lemma map_column_ref P h l ps :
  nth_error h l = Some (JObj ps) -> phas ps "dataType" = false ->
  map_column P h (JRef l) = Some (heap_update h l (JObj (pset ps "type" (mapType P (pget ps "type"))))).
Proof.
  intros N Hd. simpl. rewrite N. rewrite pget_absent by exact Hd. unfold jor. simpl.
  rewrite pdel_absent by (rewrite phas_pset; exact Hd). reflexivity.
Qed.

Lemma map_columns_exact P cols : forall h h',
  Forall col_cell h -> NoDup (flat_map refidx cols) -> map_columns P h cols = Some h' ->
  forall l ps, In (JRef l) cols -> nth_error h l = Some (JObj ps) ->
  nth_error h' l = Some (JObj (pset ps "type" (mapType P (pget ps "type")))).
Proof.
  induction cols as [|c cs IH]; intros h h' Hc Hnd H l ps Hin N; [contradiction|].
  simpl in H. destruct (map_column P h c) as [h1|] eqn:E; [|discriminate].
  simpl in Hnd. apply NoDup_app_remove_l in Hnd as Hnd2.
  destruct (In_dec Nat.eq_dec l (flat_map refidx cs)) as [Hl|Hl].
  - pose proof (map_column_rel _ _ _ _ Hc E) as [_ R1].
    assert (Hne : c <> JRef l).
    { intros ->. simpl in Hnd. inversion Hnd as [|? ? Hn _]. contradiction. }
    destruct (R1 l) as [E1|[Hr _]]; [|contradiction].
    eapply IH; [eapply cells_pres_rel; [exact Hc|exact (map_column_rel _ _ _ _ Hc E)]|exact Hnd2|exact H| |].
    + apply in_refidx, Hl.
    + rewrite E1. exact N.
  - destruct Hin as [->|Hin]; [|exfalso; apply Hl, in_refidx, Hin].
    pose proof (Forall_nth _ _ _ _ Hc N) as Hcl. destruct Hcl as [ps0 [Hp Hd]]. injection Hp; intros; subst ps0.
    rewrite (map_column_ref P h l ps N Hd) in E. injection E as <-.
    assert (Hlt : l < length h) by (apply nth_error_Some; congruence).
    pose proof (map_columns_rel P cs _ _
                  (cells_pres_rel _ _ _ Hc (map_column_rel _ _ _ _ Hc (map_column_ref P h l ps N Hd))) H)
      as [_ R2].
    destruct (R2 l) as [E2|[Hr _]]; [|exfalso; apply Hl, in_refidx, Hr].
    rewrite E2, nth_error_heap_update, Nat.eqb_refl by exact Hlt. reflexivity.
Qed.

Lemma col_refs_in t cols l :
  js_iter (get t "columns") = Some cols -> In (JRef l) cols -> In l (col_refs t).
Proof. intros H1 H2. unfold col_refs, cols_of. rewrite H1. apply in_refidx, H2. Qed.

Lemma NoDup_app_disj {A} (l1 l2 : list A) a : NoDup (l1 ++ l2) -> In a l1 -> ~ In a l2.
Proof.
  induction l1 as [|b l1 IH]; simpl; [contradiction|].
  intros Hnd [<-|Hin] Ha; inversion Hnd as [|? ? Hn Hnd']; subst.
  - apply Hn, in_or_app. right. exact Ha.
  - exact (IH Hnd' Hin Ha).
Qed.

Lemma map_tables_exact P ts : forall h h',
  Forall col_cell h -> NoDup (flat_map col_refs ts) -> map_tables P h ts = Some h' ->
  forall l ps, In l (flat_map col_refs ts) -> nth_error h l = Some (JObj ps) ->
  nth_error h' l = Some (JObj (pset ps "type" (mapType P (pget ps "type")))).
Proof.
  induction ts as [|t ts IH]; intros h h' Hc Hnd H l ps Hin N; [contradiction|].
  simpl in H.
  destruct (table_columns t) as [cv|] eqn:Tc; [|discriminate].
  destruct (js_iter cv) as [cols|] eqn:Ji; [|discriminate].
  destruct (map_columns P h cols) as [h1|] eqn:E; [|discriminate].
  assert (cv = get t "columns") as ->.
  { destruct t; simpl in Tc; try discriminate; injection Tc as <-; reflexivity. }
  assert (Hct : col_refs t = flat_map refidx cols) by (unfold col_refs, cols_of; rewrite Ji; reflexivity).
  simpl in Hnd, Hin. rewrite Hct in Hnd, Hin.
  pose proof (map_columns_rel _ _ _ _ Hc E) as R1.
  pose proof (cells_pres_rel _ _ _ Hc R1) as Hc1.
  destruct (In_dec Nat.eq_dec l (flat_map refidx cols)) as [Hl|Hl].
  - pose proof (map_columns_exact P cols h h1 Hc (NoDup_app_remove_r _ _ Hnd) E l ps (proj1 (in_refidx _ _) Hl) N) as M.
    destruct (map_tables_rel P ts h1 h' Hc1 H) as [_ R2].
    destruct (R2 l) as [E2|[[t' [cols' [Ht' [Ji' Hr']]]] _]].
    + rewrite E2. exact M.
    + exfalso. apply (NoDup_app_disj _ _ l Hnd Hl). apply in_flat_map. exists t'. split; [exact Ht'|].
      eapply col_refs_in; eassumption.
  - apply in_app_or in Hin as [Hin|Hin]; [contradiction|].
    destruct R1 as [_ R1]. destruct (R1 l) as [E1|[Hr _]]; [|exfalso; apply Hl, in_refidx, Hr].
    eapply IH; [exact Hc1|exact (NoDup_app_remove_l _ _ Hnd)|exact H|exact Hin|]. rewrite E1. exact N.
Qed.


Lemma rf_col_refs a : ref_free a = true -> col_refs a = [].
Proof.
  intros Ha. pose proof (rf_get a "columns" Ha) as Hc. unfold col_refs, cols_of.
  destruct (get a "columns") as [| | | |t|xs| | |]; simpl; try reflexivity.
  - induction (list_ascii_of_string t); simpl; auto.
  - induction xs as [|x xs IH]; [reflexivity|]. simpl in Hc. apply andb_true_iff in Hc as [H1 H2].
    simpl. rewrite IH by exact H2. destruct x; try reflexivity. discriminate.
Qed.

Lemma table_init_alias_columns nameInfo aliasInfo :
  get (match aliasInfo with Some a => set (table_init nameInfo) "alias" (idx0 a) | None => table_init nameInfo end)
      "columns" = JArr [].
Proof.
  assert (H0 : get (table_init nameInfo) "columns" = JArr []).
  { unfold table_init. destruct nameInfo; try reflexivity.
    destruct (phas props "schema"); [|reflexivity]. rewrite get_set_ne by reflexivity. reflexivity. }
  destruct aliasInfo; [rewrite get_set_ne by reflexivity|]; exact H0.
Qed.

Lemma flat_map_refidx_seq n k : flat_map refidx (map JRef (seq n k)) = seq n k.
Proof. revert n. induction k as [|k IH]; intros n; simpl; [reflexivity|]. rewrite IH. reflexivity. Qed.

Lemma Table_action_alloc nameInfo aliasInfo body h a h1 :
  Table_action nameInfo aliasInfo body h = (a, h1) -> alloc_ok h a h1.
Proof.
  intros E. destruct body as [| | | | |es| | |];
    try (unfold Table_action, st_ret in E; injection E as <- <-;
         split; [exists []; rewrite app_nil_r; reflexivity|];
         unfold col_refs, cols_of; rewrite table_init_alias_columns; simpl; split; [constructor|contradiction]).
  destruct (Table_action_heap _ _ _ _ _ _ E) as [-> Hc].
  split; [eexists; reflexivity|].
  unfold col_refs, cols_of. rewrite Hc. simpl. rewrite flat_map_refidx_seq. split; [apply seq_NoDup|].
  intros l Hl. apply in_seq in Hl. rewrite length_app, length_map. lia.
Qed.

Section Elements.
Variable s : string.

Lemma element_alloc root x h a h1 :
  grammar_match s R_Schema = MatchOk root -> node_of x root -> app_node s R_Element x ->
  toAST s x h = (a, h1) -> alloc_ok h a h1.
Proof.
  intros Hg Hx [q [ln [kids [-> Hf]]]].
  assert (Ha : all_ok s (CNode R_Element q ln kids)).
  { intros n Hn. apply (grammar_match_fits s R_Schema root Hg). eapply node_of_trans; eassumption. }
  simpl in Hf.
  inversion Hf as [| | | | | | | |? ? ? ? ? ? Hin He| | | | | | |]; subst.
  assert (Hc : exists r c, kids = [c] /\ app_node s r c /\ (rule_ok r = true \/ r = R_Table)).
  { simpl in Hin. unfold G.A in Hin.
    repeat destruct Hin as [<-|Hin]; try contradiction;
      pose proof (fits_app_node _ _ _ _ _ _ He) as Hap; inversion He; subst;
      inversion Hap; subst; do 2 eexists; (split; [reflexivity|]); (split; [eassumption|]); auto. }
  destruct Hc as [r [c [-> [[q' [ln' [kids' [-> Hc]]]] Hok]]]].
  change (toAST s (CNode R_Element q ln [CNode r q' ln' kids']) h) with (toAST s (CNode r q' ln' kids') h).
  assert (Hac : all_ok s (CNode r q' ln' kids')).
  { intros n Hn. apply Ha. eapply NO_node; [left; reflexivity|exact Hn]. }
  intros E.
  destruct Hok as [Hok| ->].
  - assert (Htf : table_free (CNode r q' ln' kids')).
    { apply (ok_tree_table_free s); [exact Hac|apply OT_node, Hok]. }
    pose proof (pure_toAST_all s _ _ (NO_self _) Htf h) as [P1 P2]. rewrite E in P1, P2. simpl in P1, P2.
    subst h1. split; [exists []; rewrite app_nil_r; reflexivity|].
    rewrite rf_col_refs by exact P2. split; [constructor|contradiction].
  - pose proof (fits_ok_tree _ _ _ _ _ _ Hc eq_refl) as Hok.
    destruct (table_kids s _ _ _ Hc) as (k1 & k2 & k3 & k4 & k5 & k6 & ->).
    assert (Hp : forall k, In k [k1; k2; k3; k4; k5; k6] -> pure_st (toAST s k)).
    { intros k Hk. apply (pure_toAST_all s k k (NO_self _)).
      apply (ok_tree_table_free s).
      - intros n Hn. apply Hac. eapply NO_node; [exact Hk|exact Hn].
      - rewrite Forall_forall in Hok. apply Hok, Hk. }
    cbn [toAST] in E. unfold st_bind in E.
    destruct (toAST s k2 h) as [n1 h2] eqn:E2.
    assert (h2 = h) as -> by (pose proof (proj1 (Hp k2 ltac:(simpl; tauto) h)) as P; rewrite E2 in P; exact P).
    destruct (if present k3 then _ else _) as [al h3] eqn:E3.
    assert (h3 = h) as ->.
    { destruct (present k3); unfold st_ret in E3.
      - pose proof (proj1 (Hp k3 ltac:(simpl; tauto) h)) as P.
        destruct (toAST s k3 h) as [a3 h4]. simpl in P. subst h4. injection E3 as _ <-. reflexivity.
      - injection E3 as _ <-. reflexivity. }
    destruct (toAST s k5 h) as [b1 h4] eqn:E5.
    assert (h4 = h) as -> by (pose proof (proj1 (Hp k5 ltac:(simpl; tauto) h)) as P; rewrite E5 in P; exact P).
    exact (Table_action_alloc _ _ _ _ _ _ E).
Qed.

End Elements.

Lemma st_map_alloc s root els :
  grammar_match s R_Schema = MatchOk root ->
  (forall x, In x els -> node_of x root /\ app_node s R_Element x) ->
  forall h asts h2, st_map (toAST s) els h = (asts, h2) ->
  (exists ext, h2 = (h ++ ext)%list) /\ NoDup (flat_map col_refs asts) /\
  forall l, In l (flat_map col_refs asts) -> length h <= l < length h2.
Proof.
  intros Hg. induction els as [|x els IH]; intros Hx h asts h2 E; simpl in E.
  - injection E as <- <-. split; [exists []; rewrite app_nil_r; reflexivity|]. split; [constructor|contradiction].
  - unfold st_bind in E. destruct (toAST s x h) as [a h1] eqn:Ea.
    destruct (Hx x (or_introl eq_refl)) as [Hn Hap].
    destruct (element_alloc s root x h a h1 Hg Hn Hap Ea) as [[ext1 ->] [Nd1 R1]].
    destruct (st_map (toAST s) els (h ++ ext1)%list) as [asts' h3] eqn:Em.
    unfold st_ret in E. injection E as <- <-.
    destruct (IH (fun y Hy => Hx y (or_intror Hy)) _ _ _ Em) as [[ext2 ->] [Nd2 R2]].
    split; [exists (ext1 ++ ext2)%list; rewrite app_assoc; reflexivity|].
    repeat rewrite length_app in *. simpl. split.
    + apply NoDup_app; [exact Nd1|exact Nd2|]. intros l H1 H2.
      specialize (R1 l H1). specialize (R2 l H2). lia.
    + intros l Hl. apply in_app_or in Hl as [Hl|Hl]; [specialize (R1 l Hl)|specialize (R2 l Hl)]; lia.
Qed.

Lemma NoDup_flat_map_filter {A B} (f : A -> list B) (p : A -> bool) xs :
  NoDup (flat_map f xs) -> NoDup (flat_map f (filter p xs)).
Proof.
  induction xs as [|x xs IH]; simpl; intros H; [constructor|].
  pose proof (NoDup_app_remove_l _ _ H) as H2.
  destruct (p x); simpl; [|exact (IH H2)].
  apply NoDup_app; [exact (NoDup_app_remove_r _ _ H)|exact (IH H2)|].
  intros b Hb Hb'. apply (NoDup_app_disj _ _ b H Hb).
  apply in_flat_map in Hb' as [y [Hy Hb']]. apply filter_In in Hy as [Hy _].
  apply in_flat_map. eauto.
Qed.

(** X10: after [parse] from the default start rule, the document's
    tables refer to distinct heap cells, each cell is a column object
    without a [dataType] key, and [parse] has replaced the [type] of
    exactly the cells the tables refer to by its [mapType] image, once,
    leaving every other cell as the semantics built it. *)
Theorem parse_maps_table_columns_once P dbml d h' :
  parse P dbml None = PDoc d h' ->
  exists root h, ohm_match dbml None = MatchOk root /\ toAST dbml root [] = (d, h) /\
    length h' = length h /\ NoDup (table_col_refs d) /\
    forall l c, nth_error h l = Some c ->
      exists ps, c = JObj ps /\ phas ps "dataType" = false /\
        (In l (table_col_refs d) ->
           nth_error h' l = Some (JObj (pset ps "type" (mapType P (pget ps "type"))))) /\
        (~ In l (table_col_refs d) -> nth_error h' l = Some (JObj ps)).
Proof.
  intros H. rewrite parse_eq in H.
  destruct (ohm_match dbml None) as [root| |] eqn:Em; try discriminate.
  destruct (toAST dbml root []) as [ast h] eqn:Et.
  assert (Hc : Forall col_cell h).
  { pose proof (pres_toAST_all dbml root root (NO_self _) [] (Forall_nil _)) as Hp.
    rewrite Et in Hp. exact Hp. }
  exists root, h. rewrite ohm_match_None in Em.
  destruct (grammar_match_root _ _ _ Em) as [q [ln [kids [-> Hf]]]].
  simpl in Hf. destruct (star_app_kids _ _ _ _ _ _ Hf) as [st [ln' [els [-> Hels]]]].
  assert (Hd : toAST dbml (CNode R_Schema q ln [CIter st ln' els]) []
               = st_fold (fun schema element => let* a := toAST dbml element in st_ret (schema_step schema a))
                         els schema_init []) by reflexivity.
  pose proof Et as Et0.
  rewrite Hd, (st_fold_map (toAST dbml) schema_step) in Et.
  destruct (st_map (toAST dbml) els []) as [asts h0] eqn:Es. simpl in Et. injection Et as Ed Eh.
  subst h0.
  replace schema_init with (schema_obj (JS "database") [] [] [] [] JUndef []) in Ed by reflexivity.
  rewrite schema_fold_obj in Ed.
  assert (Ht : get ast "tables" = JArr (filter (ast_type_is "table") asts)) by (rewrite <- Ed; reflexivity).
  rewrite Ht in H. simpl in H.
  destruct (map_tables P h (filter (ast_type_is "table") asts)) as [h2|] eqn:Mt; [|discriminate].
  injection H as <- <-.
  assert (Hr : table_col_refs ast = flat_map col_refs (filter (ast_type_is "table") asts))
    by (unfold table_col_refs; rewrite Ht; reflexivity).
  assert (Hnd : NoDup (table_col_refs ast)).
  { rewrite Hr. apply NoDup_flat_map_filter.
    refine (proj1 (proj2 (st_map_alloc dbml _ els Em _ [] asts h Es))).
    intros x Hx. split.
    - eapply NO_node; [left; reflexivity|]. eapply NO_iter; [exact Hx|apply NO_self].
    - rewrite Forall_forall in Hels. auto. }
  destruct (map_tables_rel P _ h h2 Hc Mt) as [Hlen Rel].
  split; [reflexivity|]. split; [exact Et0|]. split; [exact Hlen|]. split; [exact Hnd|].
  intros l c N. destruct (Forall_nth _ _ _ _ Hc N) as [ps [-> Hdt]].
  exists ps. split; [reflexivity|]. split; [exact Hdt|]. split.
  - intros Hl. rewrite Hr in Hnd, Hl. exact (map_tables_exact P _ h h2 Hc Hnd Mt l ps Hl N).
  - intros Hl. destruct (Rel l) as [E1|[[t [cols [Hin [Ji Hcol]]]] _]]; [rewrite E1; exact N|].
    exfalso. apply Hl. rewrite Hr. apply in_flat_map. exists t. split; [exact Hin|].
    eapply col_refs_in; eassumption.
Qed.

Ltac type_cases s :=
  repeat match goal with
  | |- context [String.eqb s ?t] => destruct (String.eqb_spec s t) as [->|?]
  end.

Lemma table_step_setting r e h k :
  In k ["indexes"; "constraints"; "note"; "headerColor"] -> (exists ps, r = JObj ps) ->
  get (fst (table_step r e h)) k = if jstr_is (get e "type") k then setting_value k e else get r k.
Proof.
  intros Hk Hr. unfold table_step.
  destruct (truthy e) eqn:Et; cbn [negb].
  2:{ destruct e; simpl in Et |- *; try discriminate; reflexivity. }
  destruct (get e "type") as [| | | |s| | | |]; simpl jstr_is; cbv iota; try reflexivity.
  cbn [negb jstr_is].
  destruct Hk as [<-|[<-|[<-|[<-|[]]]]]; type_cases s; simpl;
    rewrite ?get_push_ne, ?get_set by first [reflexivity | exact Hr];
    cbn; try reflexivity; congruence.
Qed.

Lemma set_obj ps k v : exists qs, set (JObj ps) k v = JObj qs.
Proof. simpl. eauto. Qed.

Lemma push_obj ps k v : exists qs, push (JObj ps) k v = JObj qs.
Proof. unfold push. destruct (get (JObj ps) k); simpl; eauto. Qed.

Lemma table_step_obj r e h : (exists ps, r = JObj ps) -> exists ps, fst (table_step r e h) = JObj ps.
Proof.
  intros [ps ->]. unfold table_step.
  destruct (negb (truthy e)); [simpl; eauto|].
  repeat match goal with |- context [if ?b then _ else _] => destruct b end;
    simpl; try (eexists; reflexivity); try apply set_obj; try apply push_obj.
  destruct (push_obj ps "columns" (JRef (length h))) as [qs ->]. apply push_obj.
Qed.

Lemma table_fold_setting es : forall r h k,
  In k ["indexes"; "constraints"; "note"; "headerColor"] -> (exists ps, r = JObj ps) ->
  get (fst (st_fold table_step es r h)) k = last_of k (setting_value k) es (get r k).
Proof.
  induction es as [|e es IH]; intros r h k Hk Hr; [reflexivity|].
  simpl. unfold st_bind.
  pose proof (table_step_setting r e h k Hk Hr) as He.
  pose proof (table_step_obj r e h Hr) as Ho.
  destruct (table_step r e h) as [r1 h1]. simpl in He, Ho.
  rewrite IH by assumption. rewrite He. reflexivity.
Qed.

(** X5: a table's [indexes], [constraints], [note] and [headerColor] are
    those of the last body element of that kind, later elements
    overwriting earlier ones; [indexes] is [[]] when there is none or the
    last one has none. *)
Theorem Table_action_last_setting nameInfo aliasInfo es h :
  let v := fst (Table_action nameInfo aliasInfo (JArr es) h) in
  get v "indexes" = last_of "indexes" (fun e => nullish (get e "indexes") (JArr [])) es (JArr []) /\
  get v "constraints" = last_of "constraints" (fun e => get e "constraints") es JUndef /\
  get v "note" = last_of "note" (fun e => get e "value") es JUndef /\
  get v "headerColor" = last_of "headerColor" (fun e => get e "value") es JUndef.
Proof.
  intros v. unfold v, Table_action.
  set (r := match aliasInfo with Some a => set (table_init nameInfo) "alias" (idx0 a)
                                  | None => table_init nameInfo end).
  assert (Hr : exists ps, r = JObj ps).
  { unfold r, table_init. destruct aliasInfo, nameInfo; simpl; eauto;
      destruct (phas props "schema"); simpl; eauto. }
  assert (Hg : get r "indexes" = JArr [] /\ get r "constraints" = JUndef /\
               get r "note" = JUndef /\ get r "headerColor" = JUndef).
  { unfold r, table_init. destruct aliasInfo, nameInfo; simpl; try (repeat split; reflexivity);
      destruct (phas props "schema"); simpl; repeat split; reflexivity. }
  destruct Hg as (G1 & G2 & G3 & G4).
  rewrite !table_fold_setting by (simpl; tauto || exact Hr).
  rewrite G1, G2, G3, G4. repeat split; reflexivity.
Qed.

Lemma partial_step_setting ps e k :
  In k ["indexes"; "constraints"; "note"] ->
  exists qs, partial_step (JObj ps) e = JObj qs /\
    pget qs k = if jstr_is (get e "type") k then setting_value k e else pget ps k.
Proof.
  intros Hk. unfold partial_step.
  destruct (get e "type") as [| | | |s| | | |]; cbn [jstr_is]; try (eexists; split; reflexivity).
  destruct Hk as [<-|[<-|[<-|[]]]]; type_cases s; simpl; unfold push; simpl;
    try (destruct (pget ps "columns")); simpl;
    eexists; (split; [reflexivity|]); rewrite ?pget_pset; cbn; try reflexivity; congruence.
Qed.

Lemma partial_fold_setting es : forall ps k,
  In k ["indexes"; "constraints"; "note"] ->
  get (fold_left partial_step es (JObj ps)) k = last_of k (setting_value k) es (pget ps k).
Proof.
  induction es as [|e es IH]; intros ps k Hk; [reflexivity|].
  simpl. destruct (partial_step_setting ps e k Hk) as [qs [-> Hq]].
  rewrite IH by exact Hk. rewrite Hq. reflexivity.
Qed.

(** X6: a table partial has type [tablePartial] and its name; its
    [columns] are its column elements in order, built as for a table,
    and its [indexes], [constraints] and [note] are those of the last
    element of that kind. *)
Theorem TablePartial_fields nm es :
  let v := fold_left partial_step es
             (JObj [("type", JS "tablePartial"); ("name", nm); ("columns", JArr []); ("indexes", JArr [])]) in
  get v "type" = JS "tablePartial" /\ get v "name" = nm /\
  get v "columns" = JArr (map column_of (filter (fun e => jstr_is (get e "type") "column") es)) /\
  get v "indexes" = last_of "indexes" (fun e => nullish (get e "indexes") (JArr [])) es (JArr []) /\
  get v "constraints" = last_of "constraints" (fun e => get e "constraints") es JUndef /\
  get v "note" = last_of "note" (fun e => get e "value") es JUndef.
Proof.
  intros v. unfold v.
  rewrite (partial_fold_setting es _ "indexes"), (partial_fold_setting es _ "constraints"),
    (partial_fold_setting es _ "note") by (simpl; tauto).
  destruct (partial_fold es [("type", JS "tablePartial"); ("name", nm); ("columns", JArr []); ("indexes", JArr [])] []
              eq_refl) as [qs [-> [H1 [H2 H3]]]].
  simpl. rewrite H1, H2, H3. repeat split; reflexivity.
Qed.

Lemma Table_action_no_tables a b c h : get (fst (Table_action a b c h)) "tables" = JUndef.
Proof.
  unfold Table_action.
  set (r := match b with Some a0 => set (table_init a) "alias" (idx0 a0) | None => table_init a end).
  assert (Hr : get r "tables" = JUndef).
  { unfold r, table_init. destruct b, a; simpl; try reflexivity;
      destruct (phas props "schema"); reflexivity. }
  destruct c; try exact Hr. rewrite table_fold_other by reflexivity. exact Hr.
Qed.

(** X11: with the start rule [Table], [parse] returns the table and heap
    exactly as the semantics built them: the result has no [tables]
    field, so no column type is mapped. *)
Theorem parse_Table_start_unmapped P dbml d h' :
  parse P dbml (Some R_Table) = PDoc d h' ->
  exists root, ohm_match dbml (Some R_Table) = MatchOk root /\ toAST dbml root [] = (d, h') /\
    get d "type" = JS "table".
Proof.
  rewrite parse_eq. destruct (ohm_match dbml (Some R_Table)) as [root| |] eqn:Em; try discriminate.
  pose proof Em as Em0. rewrite ohm_match_gen in Em0. cbv beta iota in Em0.
  pose proof (grammar_match_root dbml R_Table root Em0) as Hn.
  destruct Hn as (q & ln & kids & -> & Hf).
  destruct (table_kids dbml q ln kids Hf) as (k1 & k2 & k3 & k4 & k5 & k6 & ->).
  pose proof (toAST_Table_type dbml q ln k1 k2 k3 k4 k5 k6 []) as Ht.
  assert (Hu : get (fst (toAST dbml (CNode R_Table q ln [k1; k2; k3; k4; k5; k6]) [])) "tables" = JUndef).
  { cbn [toAST]. unfold st_bind.
    destruct (toAST dbml k2 []) as [n1 h1].
    destruct (if present k3 then _ else _) as [a1 h2].
    destruct (toAST dbml k5 h2) as [b1 h3].
    apply Table_action_no_tables. }
  destruct (toAST dbml (CNode R_Table q ln [k1; k2; k3; k4; k5; k6]) []) as [ast h] eqn:Et.
  simpl in Hu, Ht. rewrite Hu. simpl. intros E; injection E as <- <-.
  eexists; split; [reflexivity|]. split; [exact Et|exact Ht].
Qed.

Lemma pget_passign_absent ps qs k : phas qs k = false -> pget (passign ps qs) k = pget ps k.
Proof.
  revert ps. induction qs as [|[k0 v0] qs IH]; intros ps H; [reflexivity|].
  simpl in H. apply orb_false_iff in H as [H1 H2].
  unfold passign in *. simpl. rewrite IH by exact H2. rewrite pget_pset, H1. reflexivity.
Qed.


Lemma column_setting_keys s x h :
  app_node s R_ColumnSetting x ->
  exists ps h', toAST s x h = (JObj ps, h') /\ NoDup (map fst ps) /\
    forall k, column_key k -> phas ps k = false.
Proof.
  intros Hx. destruct (column_setting_inv s x Hx) as (q & ln & r & q' & ln' & kids' & -> & Hin & Hb).
  simpl in Hin. repeat destruct Hin as [<-|Hin]; try contradiction; try (simpl in Hb; finv; finv_app);
    simpl; unfold st_bind, st_ret, obj;
    repeat (match goal with |- context [match ?m with (_, _) => _ end] => destruct m end);
    do 2 eexists; (split; [reflexivity|]); simpl;
    (split; [repeat constructor; simpl; intuition discriminate|]);
    intros k [<-|[<-|[<-|[]]]]; reflexivity.
Qed.

Lemma column_kids s q kids p :
  fitsP s true (rule_body R_Column) q kids p ->
  exists k1 k2 k3, kids = [k1; k2; k3] /\
    (present k3 = false \/
     exists q1 ln1 q2 ln2 kids2, k3 = CIter q1 ln1 [CNode R_ColumnSettings q2 ln2 kids2] /\
       fitsP s true (rule_body R_ColumnSettings) q2 kids2 (q2 + ln2)).
Proof.
  intros H. simpl in H. finv.
  - match goal with H : fitsP _ _ (EApp R_ColumnSettings) _ _ _ |- _ =>
      inversion H as [| | | | |? ? ? q2 ? ? Hsk Hb| | | | | | | | | |]; subst; clear H end.
    finv_app. pose proof (fitsP_mono s _ _ _ _ _ Hb).
    do 3 eexists. split; [reflexivity|]. right. do 5 eexists. split; [reflexivity|].
    replace (q2 + (p - q2)) with p by lia. exact Hb.
  - finv_app. do 3 eexists. split; [reflexivity|]. left. reflexivity.
Qed.

Lemma fold_assign_keys vs :
  Forall (fun v => exists ps, v = JObj ps /\ forall k, column_key k -> phas ps k = false) vs ->
  forall acc, (forall k, column_key k -> phas acc k = false) ->
  exists qs, fold_left assign vs (JObj acc) = JObj qs /\ forall k, column_key k -> phas qs k = false.
Proof.
  induction 1 as [|v vs [ps [-> Hp]] _ IH]; intros acc Hacc; simpl.
  - exists acc. auto.
  - apply IH. intros k Hk. rewrite phas_passign, Hacc, Hp by exact Hk. reflexivity.
Qed.

Lemma column_settings_keys s q ln kids h :
  fitsP s true (rule_body R_ColumnSettings) q kids (q + ln) ->
  exists qs, fst (toAST s (CNode R_ColumnSettings q ln kids) h) = JObj qs /\
    forall k, column_key k -> phas qs k = false.
Proof.
  intros Hb. destruct (column_settings_inv s _ _ _ Hb) as (a & c & q' & ln' & items & -> & Hitems).
  cbn [toAST]. rewrite st_fold_map.
  destruct (st_map (toAST s) items h) as [vs h1] eqn:Em. simpl.
  assert (H2 : Forall2 (fun _ v => exists ps, v = JObj ps /\
                          forall k, column_key k -> phas ps k = false) items vs).
  { eapply st_map_Forall2; [|exact Hitems|exact Em].
    intros x h0 Hx. destruct (column_setting_keys s x h0 Hx) as (ps & h2 & Ex & _ & Hp).
    exists (JObj ps), h2. split; [exact Ex|]. exists ps; auto. }
  apply fold_assign_keys; [|reflexivity].
  clear -H2. induction H2; constructor; assumption.
Qed.

(** X12: in a parse tree, a Column node's AST has type [column], the
    name and the data type of its first two children, whatever its
    settings: no column setting writes [type], [name] or [dataType]. *)
Theorem Column_identity s start root q ln kids h v h' :
  grammar_match s start = MatchOk root ->
  node_of (CNode R_Column q ln kids) root ->
  toAST s (CNode R_Column q ln kids) h = (v, h') ->
  exists k1 k2 k3, kids = [k1; k2; k3] /\
    get v "type" = JS "column" /\
    get v "name" = fst (toAST s k1 h) /\
    get v "dataType" = fst (toAST s k2 (snd (toAST s k1 h))).
Proof.
  intros Hm Hn E.
  destruct (parsed_node_ok s start root _ Hm Hn) as [Hr|Hb]; [discriminate|].
  destruct (column_kids s _ _ _ Hb) as (k1 & k2 & k3 & -> & Hk3).
  exists k1, k2, k3. split; [reflexivity|].
  cbn [toAST] in E. unfold st_bind in E.
  destruct (toAST s k1 h) as [nm h1]. simpl. destruct (toAST s k2 h1) as [dt h2]. simpl.
  destruct Hk3 as [Hp|(q1 & ln1 & q2 & ln2 & kids2 & -> & Hs)].
  - rewrite Hp in E. unfold st_ret in E. injection E as <- _. auto.
  - destruct (column_settings_keys s q2 ln2 kids2 h2 Hs) as (qs & Eq & Hq).
    remember (CNode R_ColumnSettings q2 ln2 kids2) as cn eqn:Ecn.
    cbn [present toAST st_map] in E. unfold st_bind, st_ret in E. simpl in E.
    destruct (toAST s cn h2) as [cs h3]. simpl in Eq, E. subst cs.
    injection E as <- _. simpl.
    rewrite !pget_passign_absent by (apply Hq; unfold column_key; simpl; tauto). auto.
Qed.

(** ** Instances of the properties above on concrete inputs *)

Lemma mapType_new_Parser_witness :
  NoDup (map fst [("int", "integer"); ("text", EmptyString)]) /\
  mapType (new_Parser [("int", "integer"); ("text", EmptyString)]) (JS "int") = JS "integer".
Proof.
  assert (Hnd : NoDup (map fst [("int", "integer"); ("text", EmptyString)]))
    by (simpl; repeat constructor; simpl; intuition discriminate).
  split; [exact Hnd|].
  apply (proj1 (mapType_new_Parser _ "int" Hnd) "integer"); [simpl; tauto | discriminate].
Defined.

Lemma Table_action_columns_heap_witness :
  let es := [JObj [("type", JS "column"); ("name", JS "a"); ("dataType", JS "int")];
             JObj [("type", JS "note"); ("value", JS "n")]] in
  let v := fst (Table_action (JS "t") None (JArr es) []) in
  let h' := snd (Table_action (JS "t") None (JArr es) []) in
  Table_action (JS "t") None (JArr es) [] = (v, h') /\
  h' = ([] ++ map column_of (filter is_column_element es))%list /\
  get v "columns" = JArr (map JRef (seq (length (@nil jv)) (length (filter is_column_element es)))).
Proof.
  intros es v h'.
  assert (H : Table_action (JS "t") None (JArr es) [] = (v, h')) by apply surjective_pairing.
  split; [exact H|]. exact (Table_action_columns_heap (JS "t") None es [] v h' H).
Defined.

Lemma Project_properties_witness :
  "database_type" <> "__proto__" /\
  get (project_of (JS "p") (fold_left project_body_step
         [JObj [("key", JS "database_type"); ("value", JS "PostgreSQL")]] (JObj []))) "database_type" =
  JS "PostgreSQL".
Proof.
  assert (Hk : "database_type" <> "__proto__") by discriminate.
  split; [exact Hk|].
  rewrite (Project_properties (JS "p") [JObj [("key", JS "database_type"); ("value", JS "PostgreSQL")]]
             "database_type" Hk).
  vm_compute. reflexivity.
Defined.


Lemma parse_error_in_input_witness :
  exists e, parse (new_Parser []) "Table {" None = PParseError e /\
    exists m, e = new_ParseError m /\ fail_input m = "Table {" /\ fail_pos m <= String.length "Table {".
Proof.
  assert (Hr : exists e, parse (new_Parser []) "Table {" None = PParseError e)
    by (vm_compute; eexists; reflexivity).
  destruct Hr as (e & E). exists e. split; [exact E|].
  exact (parse_error_in_input _ _ None e E).
Defined.

Lemma parse_maps_table_columns_once_witness :
  exists d h', parse (new_Parser [("int", "integer")]) "Table t { a int b kjson }" None = PDoc d h' /\
    NoDup (table_col_refs d) /\ length (table_col_refs d) = 2.
Proof.
  assert (Hr : exists d h', parse (new_Parser [("int", "integer")]) "Table t { a int b kjson }" None = PDoc d h'
                 /\ length (table_col_refs d) = 2)
    by (vm_compute; do 2 eexists; split; reflexivity).
  destruct Hr as (d & h' & E & L). exists d, h'. split; [exact E|]. split; [|exact L].
  destruct (parse_maps_table_columns_once _ _ d h' E) as (root & h & _ & _ & _ & Hnd & _). exact Hnd.
Defined.

Lemma parse_Table_start_unmapped_witness :
  exists d h', parse (new_Parser [("int", "integer")]) "Table t { a int }" (Some R_Table) = PDoc d h' /\
    get d "type" = JS "table" /\ nth_error h' 0 = Some (JObj [("name", JS "a"); ("type", JS "int")]).
Proof.
  assert (Hr : exists d h', parse (new_Parser [("int", "integer")]) "Table t { a int }" (Some R_Table) = PDoc d h'
                 /\ nth_error h' 0 = Some (JObj [("name", JS "a"); ("type", JS "int")]))
    by (vm_compute; do 2 eexists; split; reflexivity).
  destruct Hr as (d & h' & E & N). exists d, h'. split; [exact E|]. split; [|exact N].
  destruct (parse_Table_start_unmapped _ _ d h' E) as (root & _ & _ & T). exact T.
Defined.

Lemma Column_identity_witness :
  let s := w_src in let start := R_Schema in let root := w_root s in
  let n := w_node s 76 in let q := cst_start n in let ln := cst_len n in let kids := cst_kids n in
  let h : heap := [] in
  let v := fst (toAST s (CNode R_Column q ln kids) h) in
  let h' := snd (toAST s (CNode R_Column q ln kids) h) in
  (grammar_match s start = MatchOk root /\
   node_of (CNode R_Column q ln kids) root /\
   toAST s (CNode R_Column q ln kids) h = (v, h')) /\
  exists k1 k2 k3, kids = [k1; k2; k3] /\
    get v "type" = JS "column" /\
    get v "name" = fst (toAST s k1 h) /\
    get v "dataType" = fst (toAST s k2 (snd (toAST s k1 h))).
Proof.
  intros s start root n q ln kids h v h'.
  assert (H1 : grammar_match s start = MatchOk root) by (vm_compute; reflexivity).
  assert (H2 : node_of (CNode R_Column q ln kids) root)
    by (apply (subtrees_node_of root 76); vm_compute; reflexivity).
  assert (H3 : toAST s (CNode R_Column q ln kids) h = (v, h')) by apply surjective_pairing.
  split; [auto|].
  exact (Column_identity s start root q ln kids h v h' H1 H2 H3).
Defined.
